(** * OneFlow execution substrate: operand enumerators, RDMA message pool,
      POSIX shared-memory segments.

    Shallow embedding of
    - [AccessBlobArgCbPhyInstrOperand::ForEach*MirroredObject]
      (vm/access_blob_arg_cb_phy_instr_operand.cpp, found in
      src/oneflow/core/operator/sink_tick_op.cpp, lines 46-71),
    - [IBVerbsMessagePool]
      (comm_network/ibverbs/ibverbs_message_pool.cpp, found in
      src/oneflow/core/autograd/gradient_funcs/math_unary_op.cpp, lines 74-136),
    - [ipc::SharedMemory]
      (ipc/shared_memory.cpp, found in
      src/oneflow/core/functional/tensor_index.cpp, lines 383-500),
    - tensor indexing, [PrepareSliceIndices] and its companions
      (functional/tensor_index.cpp, lines 16-368 of the same file) as
      [TensorGetItemFunctor] and [TensorSetItemFunctor] call them
      (src/oneflow/core/functional/impl/array_functor.cpp, lines 1350-1430),
    - [promoteTypes] and the type metadata
      (src/oneflow/core/framework/dtype.cpp, lines 1-191) and
      [FunctionLibrary] (functional/function_library.h, found in the
      same file, lines 192-281),
    followed by the properties established for them. *)

From Stdlib Require Import Ascii String.
From stdpp Require Import base numbers option list strings gmap.

Local Open Scope Z_scope.

(** ** Machine integers and pointers *)

(** [size_t] and pointers are 64-bit; [uint32_t] is 32-bit.  Values are
    kept in [Z], reduced where the C++ arithmetic reduces them. *)
Definition wrap64 (z : Z) : Z := z `mod` 2 ^ 64.
Definition wrap32 (z : Z) : Z := z `mod` 2 ^ 32.

(** A pointer is its address; [nullptr] is address zero. *)
Definition nullptr : Z := 0.

(* ================================================================= *)
(** ** Physical instruction operand (AccessBlobArgCb variant) *)

Module vm.

(** [MirroredObject*]: address of a dependency object. *)
Definition MirroredObject_ptr := Z.

(** [LocalDepObject]: only [mut_mirrored_object()] is used, which hands
    out the address of the embedded mirrored object. *)
Record LocalDepObject := {
  mut_mirrored_object : MirroredObject_ptr
}.

Record AccessBlobArgCbPhyInstrOperand := {
  modifier_ : string;
  compute_local_dep_object_ : LocalDepObject
}.

(** The callback [std::function<void(MirroredObject* infer,
    MirroredObject* compute)>] runs for its effect; [St] is whatever
    state the callback closes over. *)
Definition Visitor (St : Type) : Type :=
  MirroredObject_ptr -> MirroredObject_ptr -> St -> St.

Section Enumerators.
Context {St : Type}.
Implicit Types (self : AccessBlobArgCbPhyInstrOperand) (DoEach : Visitor St).

Definition ForEachConstMirroredObject self DoEach (st : St) : St :=
  if String.eqb (modifier_ self) "const"
  then DoEach nullptr (mut_mirrored_object (compute_local_dep_object_ self)) st
  else st.

Definition ForEachMutMirroredObject self DoEach (st : St) : St :=
  if String.eqb (modifier_ self) "mut"
  then DoEach nullptr (mut_mirrored_object (compute_local_dep_object_ self)) st
  else st.

Definition ForEachMut2MirroredObject self DoEach (st : St) : St :=
  if String.eqb (modifier_ self) "mut2"
  then DoEach nullptr (mut_mirrored_object (compute_local_dep_object_ self)) st
  else st.
End Enumerators.

(** A visitor that appends every invocation to a log. *)
Definition Invocation : Type := MirroredObject_ptr * MirroredObject_ptr.

Definition record_call : Visitor (list Invocation) :=
  fun infer compute log => log ++ [(infer, compute)].

(** The invocations an enumerator makes, in order. *)
Definition invocations
    (enumerate : AccessBlobArgCbPhyInstrOperand ->
                 Visitor (list Invocation) -> list Invocation -> list Invocation)
    (self : AccessBlobArgCbPhyInstrOperand) : list Invocation :=
  enumerate self record_call [].

Definition access_tags : list string := ["const"; "mut"; "mut2"]%string.

(** Sample operands. *)
Definition mut2_operand : AccessBlobArgCbPhyInstrOperand :=
  {| modifier_ := "mut2"; compute_local_dep_object_ := {| mut_mirrored_object := 4096 |} |}.

Definition stray_operand : AccessBlobArgCbPhyInstrOperand :=
  {| modifier_ := "Const"; compute_local_dep_object_ := {| mut_mirrored_object := 4096 |} |}.

End vm.

(* ================================================================= *)
(** ** RDMA message pool *)

Module ibverbs.

(** Outcome of a call that can end the process: [CHECK] failures are
    fatal, and [back()] on an empty container is undefined. *)
Inductive result (A : Type) : Type :=
| Ret (a : A)
| CheckFailed
| Undefined.
Arguments Ret {A} a.
Arguments CheckFailed {A}.
Arguments Undefined {A}.

Definition bind {A B} (r : result A) (k : A -> result B) : result B :=
  match r with
  | Ret a => k a
  | CheckFailed => CheckFailed
  | Undefined => Undefined
  end.

(** A registered memory region, as the adapter records it. *)
Record ibv_mr := {
  mr_pd : Z;
  mr_addr : Z;
  mr_length : Z;
  mr_access : Z
}.

(** [ActorMsgMR(mr, addr, size)]. *)
Record ActorMsgMR := {
  msg_mr : Z;
  msg_addr : Z;
  msg_size : Z
}.

(** What lies outside the pool object: the C heap, the adapter's table
    of registered regions, and the [ActorMsgMR] objects made by [new].
    The handle of the [k]-th region and the address of the [k]-th
    object are [k + 1], so neither is ever null and no two coincide. *)
Record Env := {
  brk : Z;
  mrs : list ibv_mr;
  max_mr : nat;
  objs : list ActorMsgMR
}.

Definition IBV_ACCESS_LOCAL_WRITE : Z := 1.
Definition IBV_ACCESS_REMOTE_WRITE : Z := 2.
Definition IBV_ACCESS_REMOTE_READ : Z := 4.

(** [malloc]: a block no other block overlaps. *)
Definition malloc (n : Z) (e : Env) : Z * Env :=
  (brk e,
   {| brk := brk e + Z.max n 1; mrs := mrs e; max_mr := max_mr e; objs := objs e |}).

(** Modelled from the spec: [ibv::wrapper.ibv_reg_mr_wrap] is not part of
    the sources.  It registers [length] bytes at [addr] with the adapter
    and returns the handle of the new region, or null when the adapter
    refuses (here: its table of [max_mr] regions is full). *)
Definition ibv_reg_mr_wrap (pd addr length access : Z) (e : Env) : Z * Env :=
  if (List.length (mrs e) <? max_mr e)%nat
  then (Z.of_nat (List.length (mrs e)) + 1,
        {| brk := brk e;
           mrs := mrs e ++ [{| mr_pd := pd; mr_addr := addr;
                               mr_length := length; mr_access := access |}];
           max_mr := max_mr e; objs := objs e |})
  else (nullptr, e).

(** [new ActorMsgMR(mr, addr, size)]. *)
Definition new_ActorMsgMR (mr addr size : Z) (e : Env) : Z * Env :=
  (Z.of_nat (List.length (objs e)) + 1,
   {| brk := brk e; mrs := mrs e; max_mr := max_mr e;
      objs := objs e ++ [{| msg_mr := mr; msg_addr := addr; msg_size := size |}] |}).

Record IBVerbsMessagePool := {
  pd_ : Z;
  num_msg_per_bluk_allocation_ : Z;
  ibv_mr_buf_ : list Z;
  memory_buf_ : list Z;
  message_buf_ : list Z
}.

(** The pool together with its surroundings. *)
Definition State : Type := IBVerbsMessagePool * Env.

(** Constructor; the batch size is a [uint32_t]. *)
Definition IBVerbsMessagePool_new (pd : Z) (num_msg_per_bluk_allocation : Z)
  : IBVerbsMessagePool :=
  {| pd_ := pd;
     num_msg_per_bluk_allocation_ := wrap32 num_msg_per_bluk_allocation;
     ibv_mr_buf_ := []; memory_buf_ := []; message_buf_ := [] |}.

Definition push_message (msg_mr : Z) (p : IBVerbsMessagePool) : IBVerbsMessagePool :=
  {| pd_ := pd_ p;
     num_msg_per_bluk_allocation_ := num_msg_per_bluk_allocation_ p;
     ibv_mr_buf_ := ibv_mr_buf_ p; memory_buf_ := memory_buf_ p;
     message_buf_ := message_buf_ p ++ [msg_mr] |}.

Definition push_region (mr addr : Z) (p : IBVerbsMessagePool) : IBVerbsMessagePool :=
  {| pd_ := pd_ p;
     num_msg_per_bluk_allocation_ := num_msg_per_bluk_allocation_ p;
     ibv_mr_buf_ := ibv_mr_buf_ p ++ [mr]; memory_buf_ := memory_buf_ p ++ [addr];
     message_buf_ := message_buf_ p |}.

Definition pop_message (p : IBVerbsMessagePool) : IBVerbsMessagePool :=
  {| pd_ := pd_ p;
     num_msg_per_bluk_allocation_ := num_msg_per_bluk_allocation_ p;
     ibv_mr_buf_ := ibv_mr_buf_ p; memory_buf_ := memory_buf_ p;
     message_buf_ := removelast (message_buf_ p) |}.

Section Pool.
(** [sizeof(ActorMsg)]; the type is declared outside these sources. *)
Variable sizeof_ActorMsg : Z.

(** The body of the [for] loop of [BulkAllocMessage], [n] iterations
    from index [i]. *)
Fixpoint carve_messages (n : nat) (i : Z) (mr addr message_size : Z) (s : State)
  : State :=
  match n with
  | O => s
  | S n' =>
      let split_addr := addr + wrap64 (message_size * i) in
      let '(msg_mr, e') := new_ActorMsgMR mr split_addr message_size (snd s) in
      carve_messages n' (i + 1) mr addr message_size
                     (push_message msg_mr (fst s), e')
  end.

Definition BulkAllocMessage (s : State) : result State :=
  let '(p, e) := s in
  let message_size := wrap64 sizeof_ActorMsg in
  let register_memory_size :=
    wrap64 (message_size * num_msg_per_bluk_allocation_ p) in
  let '(addr, e1) := malloc register_memory_size e in
  let '(mr, e2) :=
    ibv_reg_mr_wrap (pd_ p) addr register_memory_size
      (Z.lor (Z.lor IBV_ACCESS_LOCAL_WRITE IBV_ACCESS_REMOTE_WRITE)
             IBV_ACCESS_REMOTE_READ) e1 in
  if mr =? nullptr then CheckFailed
  else Ret (carve_messages (Z.to_nat (num_msg_per_bluk_allocation_ p)) 0
                           mr addr message_size (push_region mr addr p, e2)).

Definition GetMessageFromBuf (s : State) : result (Z * State) :=
  match last (message_buf_ (fst s)) with
  | Some msg_mr => Ret (msg_mr, (pop_message (fst s), snd s))
  | None => Undefined
  end.

(** Runs with [message_buf_mutex_] held from entry to return. *)
Definition GetMessage (s : State) : result (Z * State) :=
  match message_buf_ (fst s) with
  | _ :: _ => GetMessageFromBuf s
  | [] => bind (BulkAllocMessage s) GetMessageFromBuf
  end.

(** Runs with [message_buf_mutex_] held from entry to return. *)
Definition PutMessage (msg_mr : Z) (s : State) : State :=
  (push_message msg_mr (fst s), snd s).

(** Calls on one pool are serialised by the mutex, so what several
    threads do to it is a sequence of completed calls. *)
Inductive event : Type :=
| EvGet (msg_mr : Z)
| EvPut (msg_mr : Z).

(** A configuration pairs the state with the buffers out on lease. *)
Definition Config : Type := State * list Z.

(** The buffers still on lease once [m] has been handed back. *)
Definition release (m : Z) (leased : list Z) : list Z :=
  filter (fun x => x <> m) leased.

(** One completed call.  A buffer is handed to [PutMessage] only while
    it is out on lease. *)
Inductive step : Config -> event -> Config -> Prop :=
| step_get s leased m s' :
    GetMessage s = Ret (m, s') ->
    step (s, leased) (EvGet m) (s', m :: leased)
| step_put s leased m :
    m ∈ leased ->
    step (s, leased) (EvPut m) (PutMessage m s, release m leased).

Inductive exec : Config -> list event -> Config -> Prop :=
| exec_nil c : exec c [] c
| exec_cons c ev c1 evs c2 :
    step c ev c1 -> exec c1 evs c2 -> exec c (ev :: evs) c2.

(** Executable counterpart: [n] consecutive [GetMessage] calls, with
    the number of registered regions seen after each. *)
Fixpoint get_n (n : nat) (s : State) : result (list (Z * nat) * State) :=
  match n with
  | O => Ret ([], s)
  | S n' =>
      bind (GetMessage s) (fun '(m, s1) =>
      bind (get_n n' s1) (fun '(ms, s2) =>
      Ret ((m, List.length (ibv_mr_buf_ (fst s1))) :: ms, s2)))
  end.
End Pool.

#[export] Instance event_eq_dec : EqDecision event.
Proof. solve_decision. Defined.

(** The address [new] gives the [k]-th [ActorMsgMR] object. *)
Definition obj_ptr (k : nat) : Z := Z.of_nat k + 1.

(** A buffer the pool knows is one of the objects made by [new]. *)
Definition known (e : Env) (m : Z) : Prop := 1 <= m <= Z.of_nat (length (objs e)).

(** No buffer is at once twice in the free list, twice on lease, or in
    both; and every one of them is known. *)
Definition pool_inv (c : Config) : Prop :=
  NoDup (message_buf_ (fst (fst c)) ++ snd c) /\
  (forall m, m ∈ message_buf_ (fst (fst c)) ++ snd c -> known (snd (fst c)) m).

(** A small adapter with nothing registered yet. *)
Definition small_env : Env := {| brk := 4096; mrs := []; max_mr := 8; objs := [] |}.

(** A run with two buffers on lease at once, one of them leased for the
    second time. *)
Definition sample_run : list event := [EvGet 4; EvGet 3; EvPut 4; EvGet 4].

End ibverbs.

(* ================================================================= *)
(** ** Shared-memory segment *)

Module ipc.

(** Constants of <fcntl.h>, <sys/stat.h>, <sys/mman.h>, <errno.h> (Linux). *)
Definition O_RDWR : Z := 2.
Definition O_CREAT : Z := 64.
Definition O_EXCL : Z := 128.
Definition S_IRUSR : Z := 256.
Definition S_IWUSR : Z := 128.
Definition PROT_READ : Z := 1.
Definition PROT_WRITE : Z := 2.
Definition MAP_SHARED : Z := 1.
Definition MAP_FAILED : Z := 2 ^ 64 - 1.
Definition ENOENT : Z := 2.
Definition EBADF : Z := 9.
Definition EEXIST : Z := 17.
Definition EINVAL : Z := 22.

(** Conversion of a [size_t] to the signed [off_t]. *)
Definition to_off_t (z : Z) : Z :=
  let u := wrap64 z in if u <? 2 ^ 63 then u else u - 2 ^ 64.

(** [Maybe<T>]: a value, or an error that keeps the code it was raised
    with. *)
Inductive Maybe (A : Type) : Type :=
| Ok (a : A)
| Error (code : Z).
Arguments Ok {A} a.
Arguments Error {A} code.

(** How a call that may end the process or loop comes out. *)
Inductive outcome (A : Type) : Type :=
| Returns (a : A)
| Aborts
| NoFuel.
Arguments Returns {A} a.
Arguments Aborts {A}.
Arguments NoFuel {A}.

Record stat := { st_size : Z }.

(** The calls the code makes into libc and into str_util, over a world
    [W] they act on.  Each returns what the C function returns. *)
Class Platform (W : Type) := {
  errno : W -> Z;
  shm_open : string -> Z -> Z -> W -> Z * W;
  shm_unlink : string -> W -> Z * W;
  posix_fallocate : Z -> Z -> Z -> W -> Z * W;
  fstat : Z -> W -> Z * stat * W;
  mmap : Z -> Z -> Z -> Z -> Z -> Z -> W -> Z * W;
  munmap : Z -> Z -> W -> Z * W;
  close : Z -> W -> Z * W;
  (** [None]: the store faults. *)
  memset : Z -> Z -> Z -> W -> option W;
  GenAlphaNumericString : Z -> W -> string * W
}.

Record SharedMemory := {
  buf_ : Z;
  name_ : string;
  size_ : Z
}.

Section Code.
Context {W : Type} `{!Platform W}.

(** Modelled from the spec: the macro [PCHECK_OR_RETURN] (pcheck.h) is
    not part of the sources.  A non-zero code makes the enclosing
    function return an error wrapping that code, after running what is
    streamed into it ([ReturnEmptyStr]); zero lets it continue. *)
Definition PCHECK_OR_RETURN {A B : Type} (code : Z) (on_error : W -> W)
    (wrap_ : Maybe A * W -> B) (continue_ : W -> B) (w : W) : B :=
  if code =? 0 then continue_ w else wrap_ (Error code, on_error w).

(** [int ShmOpen(const std::string&, bool, int* )]: the code and [*fd]. *)
Definition ShmOpen (shm_name : string) (create : bool) (w : W) : Z * Z * W :=
  let '(fd, w1) :=
    shm_open shm_name
             (Z.lor (Z.lor (if create then O_CREAT else 0) O_EXCL) O_RDWR)
             (Z.lor S_IRUSR S_IWUSR) w in
  (if fd =? -1 then errno w1 else 0, fd, w1).

Definition kNameLength : Z := 8.

(** One pass through the body of the loop of
    [int ShmOpen(std::string*, int* )]: the code, [*shm_name], [*fd]. *)
Definition ShmOpen_gen_body (w : W) : Z * string * Z * W :=
  let '(suffix, w1) := GenAlphaNumericString kNameLength w in
  let shm_name := ("/ofshm_" +:+ suffix)%string in
  let '(err, fd, w2) := ShmOpen shm_name true w1 in
  (err, shm_name, fd, w2).

(** [int ShmOpen(std::string*, int* )]; [fuel] bounds the passes of
    [while (true)]. *)
Fixpoint ShmOpen_gen (fuel : nat) (w : W) : outcome (Z * string * Z * W) :=
  match fuel with
  | O => NoFuel
  | S fuel' =>
      let '(err, shm_name, fd, w1) := ShmOpen_gen_body w in
      if negb (err =? EEXIST) then Returns (err, shm_name, fd, w1)
      else ShmOpen_gen fuel' w1
  end.

(** The world before pass [k] of the loop (counting from zero). *)
Fixpoint world_before_pass (k : nat) (w : W) : W :=
  match k with
  | O => w
  | S k' => world_before_pass k' (snd (ShmOpen_gen_body w))
  end.

Definition pass_code (r : Z * string * Z * W) : Z := fst (fst (fst r)).
Definition pass_name (r : Z * string * Z * W) : string := snd (fst (fst r)).

Definition ShmMap (fd : Z) (shm_size : Z) (w : W) : Z * Z * W :=
  let '(ptr, w1) :=
    mmap nullptr shm_size (Z.lor PROT_READ PROT_WRITE) MAP_SHARED fd 0 w in
  (if ptr =? MAP_FAILED then errno w1 else 0, ptr, w1).

Definition close_fd (fd : Z) (w : W) : W := snd (close fd w).

(** [SharedMemory::Open(const Optional<std::string>&, size_t)].  The
    line it writes to [std::cout] for a named segment is left out. *)
Definition Open (fuel : nat) (opt_shm_name : option string) (shm_size : Z) (w : W)
  : outcome (Maybe SharedMemory * W) :=
  let opened :=
    match opt_shm_name with
    | Some shm_name =>
        let '(err, fd, w1) := ShmOpen shm_name true w in
        Returns (err, shm_name, fd, w1)
    | None => ShmOpen_gen fuel w
    end in
  match opened with
  | Returns (err, shm_name, fd, w1) =>
      PCHECK_OR_RETURN err id Returns (fun w1 =>
      let '(err, w2) := posix_fallocate fd 0 (to_off_t shm_size) w1 in
      PCHECK_OR_RETURN err (close_fd fd) Returns (fun w2 =>
      let '(err, ptr, w3) := ShmMap fd shm_size w2 in
      PCHECK_OR_RETURN err (close_fd fd) Returns (fun w3 =>
      let w4 := close_fd fd w3 in
      match memset ptr 0 shm_size w4 with
      | Some w5 =>
          Returns (Ok {| buf_ := ptr; name_ := shm_name; size_ := shm_size |}, w5)
      | None => Aborts
      end) w3) w2) w1
  | Aborts => Aborts
  | NoFuel => NoFuel
  end.

(** The part of [Open] that follows the creation of the segment, for
    reasoning about it apart from how the descriptor was obtained. *)
Definition Open_created (shm_name : string) (fd shm_size : Z) (w1 : W)
  : outcome (Maybe SharedMemory * W) :=
  let '(err, w2) := posix_fallocate fd 0 (to_off_t shm_size) w1 in
  if err =? 0 then
    let '(err, ptr, w3) := ShmMap fd shm_size w2 in
    if err =? 0 then
      match memset ptr 0 shm_size (close_fd fd w3) with
      | Some w5 =>
          Returns (Ok {| buf_ := ptr; name_ := shm_name; size_ := shm_size |}, w5)
      | None => Aborts
      end
    else Returns (Error err, close_fd fd w3)
  else Returns (Error err, close_fd fd w2).

(** [SharedMemory::Open(const std::string&)]. *)
Definition Open_name (shm_name : string) (w : W) : Maybe SharedMemory * W :=
  let '(err, fd, w1) := ShmOpen shm_name false w in
  PCHECK_OR_RETURN err id id (fun w1 =>
  let '(err, st, w2) := fstat fd w1 in
  PCHECK_OR_RETURN err (close_fd fd) id (fun w2 =>
  let shm_size := wrap64 (st_size st) in
  let '(err, ptr, w3) := ShmMap fd shm_size w2 in
  PCHECK_OR_RETURN err (close_fd fd) id (fun w3 =>
  let w4 := close_fd fd w3 in
  (Ok {| buf_ := ptr; name_ := shm_name; size_ := shm_size |}, w4)) w3) w2) w1.

(** [SharedMemory::Close()]: the result and the object afterwards. *)
Definition Close (self : SharedMemory) (w : W) : Maybe unit * SharedMemory * W :=
  let '(err, w1) := munmap (buf_ self) (size_ self) w in
  PCHECK_OR_RETURN err id (fun '(r, w) => (r, self, w)) (fun w1 =>
  (Ok tt, {| buf_ := nullptr; name_ := name_ self; size_ := size_ self |}, w1)) w1.

Definition UnlinkByName (name : string) (w : W) : Maybe unit * W :=
  let '(err, w1) := shm_unlink name w in
  PCHECK_OR_RETURN err id id (fun w1 => (Ok tt, w1)) w1.

Definition Unlink (self : SharedMemory) (w : W) : Maybe unit * W :=
  UnlinkByName (name_ self) w.

(** [SharedMemory::~SharedMemory()]; [CHECK_JUST] ends the process on
    an error. *)
Definition SharedMemory_destroy (self : SharedMemory) (w : W) : outcome W :=
  if negb (buf_ self =? nullptr) then
    match Close self w with
    | (Ok _, _, w1) => Returns w1
    | (Error _, _, _) => Aborts
    end
  else Returns w.
End Code.

End ipc.


(* ================================================================= *)
(** ** The platform: POSIX shared memory on Linux

    What shm_open(3), shm_unlink(3), posix_fallocate(3), fstat(2),
    mmap(2), munmap(2) and close(2) do to the name space, the descriptor
    table and the address space of the calling process.  Resource limits
    and permissions are left out: a call fails only for the reasons its
    arguments and the state give. *)

Module linux.
Import ipc.

Definition PAGE_SIZE : Z := 4096.

Definition round_up (n : Z) : Z := (n + PAGE_SIZE - 1) `div` PAGE_SIZE * PAGE_SIZE.

(** A shared-memory object: its length and its bytes by offset. *)
Record shm_object := {
  o_size : Z;
  o_byte : Z -> Z
}.

(** A mapping of [vm_obj] at addresses [vm_start, vm_end), whose first
    byte is byte [vm_off] of the object. *)
Record vma := {
  vm_start : Z;
  vm_end : Z;
  vm_obj : nat;
  vm_off : Z;
  vm_prot : Z
}.

Inductive syscall : Type :=
| SysShmOpen (name : string) (oflag mode : Z)
| SysShmUnlink (name : string)
| SysFallocate (fd offset len : Z)
| SysFstat (fd : Z)
| SysMmap (addr len prot flags fd off : Z)
| SysMunmap (addr len : Z)
| SysClose (fd : Z).

Record OS := {
  os_errno : Z;
  os_names : gmap string nat;
  os_objects : list shm_object;
  os_fds : gmap Z nat;
  os_vmas : list vma;
  os_trace : list syscall;
  os_seed : Z
}.

Definition set_errno (e : Z) (os : OS) : OS :=
  {| os_errno := e; os_names := os_names os; os_objects := os_objects os;
     os_fds := os_fds os; os_vmas := os_vmas os; os_trace := os_trace os;
     os_seed := os_seed os |}.

Definition set_names (ns : gmap string nat) (os : OS) : OS :=
  {| os_errno := os_errno os; os_names := ns; os_objects := os_objects os;
     os_fds := os_fds os; os_vmas := os_vmas os; os_trace := os_trace os;
     os_seed := os_seed os |}.

Definition set_objects (objs : list shm_object) (os : OS) : OS :=
  {| os_errno := os_errno os; os_names := os_names os; os_objects := objs;
     os_fds := os_fds os; os_vmas := os_vmas os; os_trace := os_trace os;
     os_seed := os_seed os |}.

Definition set_fds (fds : gmap Z nat) (os : OS) : OS :=
  {| os_errno := os_errno os; os_names := os_names os; os_objects := os_objects os;
     os_fds := fds; os_vmas := os_vmas os; os_trace := os_trace os;
     os_seed := os_seed os |}.

Definition set_vmas (vs : list vma) (os : OS) : OS :=
  {| os_errno := os_errno os; os_names := os_names os; os_objects := os_objects os;
     os_fds := os_fds os; os_vmas := vs; os_trace := os_trace os;
     os_seed := os_seed os |}.

Definition set_seed (seed : Z) (os : OS) : OS :=
  {| os_errno := os_errno os; os_names := os_names os; os_objects := os_objects os;
     os_fds := os_fds os; os_vmas := os_vmas os; os_trace := os_trace os;
     os_seed := seed |}.

(** Every system call is appended to the trace when it is entered. *)
Definition enter (c : syscall) (os : OS) : OS :=
  {| os_errno := os_errno os; os_names := os_names os; os_objects := os_objects os;
     os_fds := os_fds os; os_vmas := os_vmas os; os_trace := os_trace os ++ [c];
     os_seed := os_seed os |}.

(** A failing call returns [-1] and leaves its reason in [errno]. *)
Definition fail (e : Z) (os : OS) : Z * OS := (-1, set_errno e os).

Definition has_flag (flags f : Z) : bool := negb (Z.land flags f =? 0).

(** The lowest descriptor not in use. *)
Fixpoint lowest_free (fds : gmap Z nat) (fd : Z) (n : nat) : Z :=
  match n with
  | O => fd
  | S n' => match fds !! fd with
            | None => fd
            | Some _ => lowest_free fds (fd + 1) n'
            end
  end.

Definition new_fd (id : nat) (os : OS) : Z * OS :=
  let fd := lowest_free (os_fds os) 0 (size (os_fds os)) in
  (fd, set_fds (<[fd := id]> (os_fds os)) os).

Definition sys_shm_open (name : string) (oflag mode : Z) (os : OS) : Z * OS :=
  let os := enter (SysShmOpen name oflag mode) os in
  match os_names os !! name with
  | Some id =>
      if has_flag oflag O_CREAT && has_flag oflag O_EXCL then fail EEXIST os
      else new_fd id os
  | None =>
      if has_flag oflag O_CREAT then
        let id := List.length (os_objects os) in
        new_fd id
          (set_names (<[name := id]> (os_names os))
             (set_objects (os_objects os ++ [{| o_size := 0; o_byte := fun _ => 0 |}])
                os))
      else fail ENOENT os
  end.

Definition sys_shm_unlink (name : string) (os : OS) : Z * OS :=
  let os := enter (SysShmUnlink name) os in
  match os_names os !! name with
  | Some _ => (0, set_names (delete name (os_names os)) os)
  | None => fail ENOENT os
  end.

(** posix_fallocate returns the error number itself. *)
Definition sys_posix_fallocate (fd offset len : Z) (os : OS) : Z * OS :=
  let os := enter (SysFallocate fd offset len) os in
  match os_fds os !! fd with
  | None => (EBADF, os)
  | Some id =>
      if (offset <? 0) || (len <=? 0) then (EINVAL, os)
      else (0, set_objects
                 (alter (fun o => {| o_size := Z.max (o_size o) (offset + len);
                                     o_byte := o_byte o |}) id (os_objects os))
                 os)
  end.

Definition sys_fstat (fd : Z) (os : OS) : Z * stat * OS :=
  let os := enter (SysFstat fd) os in
  match os_fds os !! fd with
  | None => let '(r, os) := fail EBADF os in (r, {| st_size := 0 |}, os)
  | Some id =>
      (0, {| st_size := from_option o_size 0 (os_objects os !! id) |}, os)
  end.

(** Where the kernel places a mapping it may place anywhere: on a page
    boundary above every existing mapping. *)
Definition mmap_min_addr : Z := 65536.

Definition unmapped_area (vs : list vma) : Z :=
  round_up (foldr (fun v top => Z.max (vm_end v) top) mmap_min_addr vs).

Definition sys_mmap (addr len prot flags fd off : Z) (os : OS) : Z * OS :=
  let os := enter (SysMmap addr len prot flags fd off) os in
  match os_fds os !! fd with
  | None => let '(_, os) := fail EBADF os in (MAP_FAILED, os)
  | Some id =>
      if (len <=? 0) || (off <? 0) || negb (off `mod` PAGE_SIZE =? 0)
      then let '(_, os) := fail EINVAL os in (MAP_FAILED, os)
      else
        let start := unmapped_area (os_vmas os) in
        (start,
         set_vmas (os_vmas os ++ [{| vm_start := start; vm_end := start + round_up len;
                                     vm_obj := id; vm_off := off; vm_prot := prot |}])
                  os)
  end.

(** What is left of a mapping once the pages of [a, b) are gone. *)
Definition vma_cut (a b : Z) (v : vma) : list vma :=
  (if vm_start v <? Z.min a (vm_end v)
   then [{| vm_start := vm_start v; vm_end := Z.min a (vm_end v);
            vm_obj := vm_obj v; vm_off := vm_off v; vm_prot := vm_prot v |}]
   else []) ++
  (if Z.max b (vm_start v) <? vm_end v
   then [{| vm_start := Z.max b (vm_start v); vm_end := vm_end v;
            vm_obj := vm_obj v;
            vm_off := vm_off v + (Z.max b (vm_start v) - vm_start v);
            vm_prot := vm_prot v |}]
   else []).

(** munmap succeeds whether or not anything is mapped in the range. *)
Definition sys_munmap (addr len : Z) (os : OS) : Z * OS :=
  let os := enter (SysMunmap addr len) os in
  if negb (addr `mod` PAGE_SIZE =? 0) || (len <=? 0) then fail EINVAL os
  else (0, set_vmas (flat_map (vma_cut addr (addr + round_up len)) (os_vmas os)) os).

Definition sys_close (fd : Z) (os : OS) : Z * OS :=
  let os := enter (SysClose fd) os in
  match os_fds os !! fd with
  | None => fail EBADF os
  | Some _ => (0, set_fds (delete fd (os_fds os)) os)
  end.

(** The mapping an address falls in. *)
Definition covers (a : Z) (v : vma) : bool :=
  (vm_start v <=? a) && (a <? vm_end v).

Definition vma_of (os : OS) (a : Z) : option vma :=
  List.find (covers a) (os_vmas os).

(** A load of one byte; [None] when the address is not mapped readable. *)
Definition read_byte (os : OS) (a : Z) : option Z :=
  match vma_of os a with
  | Some v =>
      if has_flag (vm_prot v) PROT_READ
      then (fun o => o_byte o (vm_off v + (a - vm_start v))) <$> os_objects os !! vm_obj v
      else None
  | None => None
  end.

(** [memset(ptr, c, n)]: [n] stores of the byte [c].  The stores fault
    unless the range lies in one writable mapping. *)
Definition libc_memset (ptr c n : Z) (os : OS) : option OS :=
  if n <=? 0 then Some os
  else
    match vma_of os ptr with
    | Some v =>
        if has_flag (vm_prot v) PROT_WRITE && (ptr + n <=? vm_end v) then
          let lo := vm_off v + (ptr - vm_start v) in
          Some (set_objects
                  (alter (fun o => {| o_size := o_size o;
                                      o_byte := fun i => if (lo <=? i) && (i <? lo + n)
                                                         then c `mod` 256 else o_byte o i |})
                         (vm_obj v) (os_objects os))
                  os)
        else None
    | None => None
    end.

(** Modelled from the spec: [GenAlphaNumericString] (str_util) is not part
    of the sources.  It yields a random string of the given number of
    letters and digits; here the randomness is a linear congruential
    generator whose seed is part of the state. *)
Definition alphanumeric : list ascii :=
  list_ascii_of_string "0123456789abcdefghijklmnopqrstuvwxyzABCDEFGHIJKLMNOPQRSTUVWXYZ".

Fixpoint gen_chars (n : nat) (seed : Z) : string * Z :=
  match n with
  | O => (EmptyString, seed)
  | S n' =>
      let seed' := (seed * 1103515245 + 12345) `mod` 2 ^ 31 in
      let c := nth (Z.to_nat (seed' `mod` 62)) alphanumeric "0"%char in
      let '(s, seed'') := gen_chars n' seed' in
      (String c s, seed'')
  end.

Definition gen_alpha_numeric (n : Z) (os : OS) : string * OS :=
  let '(s, seed) := gen_chars (Z.to_nat n) (os_seed os) in
  (s, set_seed seed os).

#[export] Instance platform : Platform OS := {|
  errno := os_errno;
  shm_open := sys_shm_open;
  shm_unlink := sys_shm_unlink;
  posix_fallocate := sys_posix_fallocate;
  fstat := sys_fstat;
  mmap := sys_mmap;
  munmap := sys_munmap;
  close := sys_close;
  memset := libc_memset;
  GenAlphaNumericString := gen_alpha_numeric
|}.

(** A freshly booted system: nothing named, opened or mapped. *)
Definition boot (seed : Z) : OS :=
  {| os_errno := 0; os_names := ∅; os_objects := []; os_fds := ∅;
     os_vmas := []; os_trace := []; os_seed := seed |}.

(** What [Open], in either form, returns is a mapped, page-aligned buffer
    of positive size. *)
Definition mapped_handle (self : SharedMemory) : Prop :=
  buf_ self <> nullptr /\ buf_ self `mod` PAGE_SIZE = 0 /\ 0 < size_ self.

(** A system in which the first name the generator will draw is taken. *)
Definition crowded : OS :=
  match Open 1 None 4096 (boot 1) with
  | Returns (_, os) => set_seed 1 os
  | _ => boot 1
  end.

(** The names that [shm_open] and [shm_unlink] look up as they are
    given: a slash followed by one to 253 characters, none of them a
    slash or NUL, and not [.] or [..].  The C library turns down or
    rewrites any other name before the name space is consulted (an
    empty name or one with an inner slash is refused with EINVAL,
    leading slashes are dropped, a NUL ends the name), which
    [sys_shm_open] and [sys_shm_unlink] do not model: a theorem whose
    truth depends on it takes such a name. *)
Definition name_char_ok (c : ascii) : bool :=
  negb (Ascii.eqb c "/") && negb (Ascii.eqb c "000").

Definition shm_name_ok (name : string) : bool :=
  match name with
  | String c rest =>
      Ascii.eqb c "/"
      && negb (String.eqb rest "") && negb (String.eqb rest ".")
      && negb (String.eqb rest "..")
      && (Z.of_nat (String.length rest) <=? 253)
      && forallb name_char_ok (list_ascii_of_string rest)
  | EmptyString => false
  end.

End linux.


(* ================================================================= *)
(** ** Shared memory on Linux: what a call leaves alone *)

Module linux_frame.
Import linux.

(** Two states of the system with the same names, objects, descriptors
    and mappings. *)
Definition same_resources (os os' : OS) : Prop :=
  os_names os' = os_names os /\ os_objects os' = os_objects os /\
  os_fds os' = os_fds os /\ os_vmas os' = os_vmas os.

(** Every name of the name space is one that is looked up as given, so
    that no segment goes by a second spelling of its name. *)
Definition names_ok (os : OS) : Prop :=
  map_Forall (fun name _ => shm_name_ok name = true) (os_names os).

End linux_frame.

(* ================================================================= *)
(** ** Message pool: the ledger of regions and buffers *)

Module pool_ledger.
Import ibverbs.

Section Ledger.
(** [sizeof(ActorMsg)] as a [size_t], the protection domain and the batch
    size the pool was made with. *)
Variables (message_size pd batch : Z).
(** The number of regions the adapter held, and where the heap ended,
    before the pool was made. *)
Variable registered0 : nat.
Variable heap0 : Z.

(** A handle the pool holds names a region the adapter registered for
    this pool: of one batch of messages, at a block the pool keeps. *)
Definition region_ok (p : IBVerbsMessagePool) (e : Env) (h : Z) : Prop :=
  1 <= h /\
  exists r, mrs e !! Z.to_nat (h - 1) = Some r /\
    mr_pd r = pd /\ mr_length r = wrap64 (message_size * batch) /\
    mr_access r = 7 /\ mr_addr r ∈ memory_buf_ p.

(** A buffer is an [ActorMsgMR] object of one message, carved at slot
    [k] of a region the pool holds. *)
Definition buffer_ok (p : IBVerbsMessagePool) (e : Env) (m : Z) : Prop :=
  1 <= m /\
  exists obj r k, objs e !! Z.to_nat (m - 1) = Some obj /\
    msg_mr obj ∈ ibv_mr_buf_ p /\
    mrs e !! Z.to_nat (msg_mr obj - 1) = Some r /\
    msg_addr obj = mr_addr r + wrap64 (message_size * k) /\
    0 <= k < batch /\ msg_size obj = message_size.

Definition ledger (c : Config) : Prop :=
  let p := fst (fst c) in
  let e := snd (fst c) in
  pd_ p = pd /\ num_msg_per_bluk_allocation_ p = batch /\
  ibv_mr_buf_ p =
    map (fun k => Z.of_nat k + 1) (seq registered0 (length (memory_buf_ p))) /\
  length (mrs e) = (registered0 + length (memory_buf_ p))%nat /\
  NoDup (memory_buf_ p) /\ heap0 <= brk e /\
  (forall a, a ∈ memory_buf_ p -> heap0 <= a < brk e) /\
  (length (message_buf_ p) + length (snd c) =
   Z.to_nat batch * length (memory_buf_ p))%nat /\
  (forall h, h ∈ ibv_mr_buf_ p -> region_ok p e h) /\
  (forall m, m ∈ message_buf_ p ++ snd c -> buffer_ok p e m).
End Ledger.
End pool_ledger.

(** ** Message pool: teardown *)

Module pool_teardown.
Import ibverbs.

(** What the adapter and the heap have been asked to give back so far. *)
Record Released := {
  deregistered : list Z;
  freed : list Z
}.

Definition EINVAL : Z := 22.

(** Modelled from the spec: [ibv::wrapper.ibv_dereg_mr] is not part of
    the sources.  It returns 0 and retires the region when [mr] is the
    handle of a region that is registered and not yet retired, and an
    error number otherwise. *)
Definition ibv_dereg_mr (mr : Z) (e : Env) (r : Released) : Z * Released :=
  if bool_decide (1 <= mr <= Z.of_nat (length (mrs e)) /\ mr ∉ deregistered r)
  then (0, {| deregistered := deregistered r ++ [mr]; freed := freed r |})
  else (EINVAL, r).

(** [free]: a null pointer is ignored; handing over a block a second
    time is undefined. *)
Definition free (addr : Z) (r : Released) : result Released :=
  if addr =? nullptr then Ret r
  else if bool_decide (addr ∈ freed r) then Undefined
  else Ret {| deregistered := deregistered r; freed := freed r ++ [addr] |}.

(** The first loop of the destructor, over [ibv_mr_buf_]. *)
Fixpoint dereg_each (ibv_mr_buf : list Z) (e : Env) (r : Released) : result Released :=
  match ibv_mr_buf with
  | [] => Ret r
  | mr :: rest =>
      let '(rc, r') := ibv_dereg_mr mr e r in
      if rc =? 0 then dereg_each rest e r' else CheckFailed
  end.

(** The second loop, over [memory_buf_]. *)
Fixpoint free_each (memory_buf : list Z) (r : Released) : result Released :=
  match memory_buf with
  | [] => Ret r
  | addr :: rest => bind (free addr r) (free_each rest)
  end.

(** [~IBVerbsMessagePool()]. *)
Definition IBVerbsMessagePool_destroy (p : IBVerbsMessagePool) (e : Env) (r : Released)
  : result (IBVerbsMessagePool * Released) :=
  bind (dereg_each (ibv_mr_buf_ p) e r) (fun r1 =>
  bind (free_each (memory_buf_ p) r1) (fun r2 =>
  Ret ({| pd_ := pd_ p;
          num_msg_per_bluk_allocation_ := num_msg_per_bluk_allocation_ p;
          ibv_mr_buf_ := []; memory_buf_ := [];
          message_buf_ := message_buf_ p |}, r2))).

Definition nothing_released : Released := {| deregistered := []; freed := [] |}.

End pool_teardown.

(* ================================================================= *)
(** ** Tensor indexing (functional/tensor_index.cpp) *)

Module functional.

(** Conversion to [int] and to [int64_t]. *)
Definition to_int (z : Z) : Z := (z + 2 ^ 31) `mod` 2 ^ 32 - 2 ^ 31.
Definition to_int64 (z : Z) : Z := (z + 2 ^ 63) `mod` 2 ^ 64 - 2 ^ 63.

(** [DataType], in the order of data_type.proto. *)
Inductive DataType : Type :=
| kInvalidDataType | kChar | kFloat | kDouble | kInt8 | kInt32 | kInt64
| kUInt8 | kOFRecord | kFloat16 | kTensorBuffer | kBFloat16.

#[export] Instance DataType_eq_dec : EqDecision DataType.
Proof. solve_decision. Defined.

Inductive ErrorKind : Type :=
| CheckFailedError
| IndexError
| RuntimeError.

(** A [Maybe<T>]: a value or an error to hand to the caller.  [Abort]
    is the end of the process: a failed glog [CHECK], or a fault such
    as a division by zero. *)
Inductive Maybe (A : Type) : Type :=
| Ok (a : A)
| Error (kind : ErrorKind)
| Abort.
Arguments Ok {A} a.
Arguments Error {A} kind.
Arguments Abort {A}.

(** [JUST(...)]. *)
Definition bind {A B} (r : Maybe A) (k : A -> Maybe B) : Maybe B :=
  match r with
  | Ok a => k a
  | Error kind => Error kind
  | Abort => Abort
  end.

Notation "'JUST' x <- e ; k" := (bind e (fun x => k))
  (at level 10, x name, e at level 100, k at level 200, only parsing).

Abbreviation Shape := (list Z).

Definition NumAxes (shape : Shape) : Z := Z.of_nat (length shape).

(** Modelled from the spec: [Shape::At] is not part of the sources.  It
    returns the extent of axis [index] and [CHECK]s that the axis
    exists. *)
Definition At (shape : Shape) (index : Z) : Maybe Z :=
  if (0 <=? index) && (index <? NumAxes shape)
  then match shape !! Z.to_nat index with
       | Some d => Ok d
       | None => Abort
       end
  else Abort.

(** [detail::Slice(start, end, step)]. *)
Record Slice : Type := {
  start_ : Z;
  end_ : Z;
  step_ : Z
}.

#[export] Instance Slice_eq_dec : EqDecision Slice.
Proof. solve_decision. Defined.

(** The slice that takes the whole of an axis of extent [d]. *)
Definition whole_axis (d : Z) : Slice := {| start_ := 0; end_ := d; step_ := 1 |}.

(** What [PrepareSliceIndices] makes of a slice item on an axis of
    extent [d]. *)
Definition clamp_slice (slice : Slice) (d : Z) : Slice :=
  let step := Z.min (step_ slice) d in
  let end' := Z.min (end_ slice) d in
  let start := Z.min (start_ slice) d in
  let start := if start <? 0 then to_int64 (start + d) else start in
  let start := if start <? 0 then 0 else start in
  let end' := if end' <? 0 then to_int64 (end' + d) else end' in
  let end' := if end' <? start then start else end' in
  let step := if start =? end' then 1 else step in
  {| start_ := start; end_ := end'; step_ := step |}.

(** [start == end ? 0 : (end - start + step - 1) / step]. *)
Definition slice_length (s : Slice) : Z :=
  if start_ s =? end_ s then 0
  else Z.quot (to_int64 (end_ s - start_ s + step_ s - 1)) (step_ s).

(** What it makes of an integer item: the integer counted from the
    front. *)
Definition from_front (integer d : Z) : Z :=
  if integer <? 0 then to_int64 (integer + d) else integer.

Definition one_element (integer : Z) : Slice :=
  {| start_ := integer; end_ := to_int64 (integer + 1); step_ := 1 |}.

(** [std::vector::resize(n)], new places holding [x]. *)
Definition resize {A} (n : nat) (x : A) (l : list A) : list A :=
  take n l ++ replicate (n - length l) x.

(** [detail::IndexItem], one item of a [TensorIndex]. *)
Inductive IndexItem (Tensor : Type) : Type :=
| ItemSlice (slice : Slice)
| ItemInteger (integer : Z)
| ItemBoolean (boolean : bool)
| ItemEllipsis
| ItemNone
| ItemTensor (tensor : Tensor).
Arguments ItemSlice {Tensor} slice.
Arguments ItemInteger {Tensor} integer.
Arguments ItemBoolean {Tensor} boolean.
Arguments ItemEllipsis {Tensor}.
Arguments ItemNone {Tensor}.
Arguments ItemTensor {Tensor} tensor.

(** The four vectors the caller passes by pointer. *)
Record Outputs (Tensor : Type) : Type := {
  slice_indices : list Slice;
  tensor_indices : list (option Tensor);
  expand_dims : list Z;
  target_dims : list Z
}.

Arguments slice_indices {Tensor} o.
Arguments tensor_indices {Tensor} o.
Arguments expand_dims {Tensor} o.
Arguments target_dims {Tensor} o.

(** The local variables that live across the items of the index. *)
Record Cursor (Tensor : Type) : Type := {
  dim : Z;
  has_expand_boolean_dim : bool;
  outs : Outputs Tensor
}.

Arguments dim {Tensor} c.
Arguments has_expand_boolean_dim {Tensor} c.
Arguments outs {Tensor} c.

(** Tensors and the operators on them are declared outside these
    sources.  A tensor shows its shape and its element type; an
    operator returns a tensor or an error.
    [SyncAccessTensorWithTimeOut] stands for the call with the callback
    that copies one [int64_t] out of the blob, and gives the value
    copied. *)
Class TensorOps (Tensor : Type) : Type := {
  tensor_shape : Tensor -> Shape;
  tensor_dtype : Tensor -> DataType;
  is_eager : Tensor -> bool;
  is_consistent : Tensor -> bool;
  ArgWhere : Tensor -> DataType -> Maybe (list (option Tensor));
  ConsistentToLocal : Tensor -> Maybe Tensor;
  SyncAccessTensorWithTimeOut : Tensor -> Maybe Z;
  Slice_op : Tensor -> list Z -> list Z -> list Z -> Maybe Tensor;
  Reshape : Tensor -> Shape -> Maybe Tensor;
  Expand : Tensor -> Shape -> Maybe Tensor;
  Transpose : Tensor -> list Z -> Maybe Tensor;
  Narrow : Tensor -> Z -> Z -> Z -> Maybe Tensor
}.

Section Indexing.
Context {Tensor : Type} `{ops : TensorOps Tensor}.

(** A [TensorTuple] is a vector of shared pointers, some of them null. *)
Local Abbreviation TensorTuple := (list (option Tensor)).
Local Abbreviation TensorIndex := (list (IndexItem Tensor)).

Definition is_mask (tensor : Tensor) : bool :=
  bool_decide (tensor_dtype tensor = kInt8) || bool_decide (tensor_dtype tensor = kUInt8).

Definition CountSpecifiedDims (index : TensorIndex) : Z :=
  fold_left (fun specified_ndims index_item =>
    match index_item with
    | ItemSlice _ | ItemInteger _ => to_int64 (specified_ndims + 1)
    | ItemTensor tensor =>
        if is_mask tensor
        then to_int64 (specified_ndims + NumAxes (tensor_shape tensor))
        else to_int64 (specified_ndims + 1)
    | _ => specified_ndims
    end) index 0.

Definition HasFalseIndex (index : TensorIndex) : Maybe bool :=
  Ok (existsb (fun item =>
        match item with
        | ItemBoolean boolean => negb boolean
        | _ => false
        end) index).

(** *** ExpandMaskIndex *)


(** [TensorTuple::at(i)] of a tuple known to be long enough; the
    pointer may be null. *)
Definition tuple_at (t : TensorTuple) (i : nat) : option Tensor :=
  default None (t !! i).

(** The [for] loop of [ExpandMaskIndex], [n] iterations from [i]. *)
Fixpoint mask_columns (n : nat) (i : Z) (res0 : option Tensor) (size : Z)
    (indices : TensorTuple) : Maybe TensorTuple :=
  match n with
  | O => Ok indices
  | S n' =>
      match res0 with
      | None => Abort
      | Some r =>
          JUST item <- Slice_op r [0; i] [size; to_int (i + 1)] [1; 1] ;
          JUST item <- Reshape item [size] ;
          mask_columns n' (to_int (i + 1)) res0 size (indices ++ [Some item])
      end
  end.

Definition ExpandMaskIndex (index : Tensor) : Maybe TensorTuple :=
  JUST res <- ArgWhere index kInt64 ;
  if negb (length res =? 2)%nat then Error RuntimeError
  else
    match tuple_at res 1 with
    | None => Abort
    | Some size_tensor =>
        if negb (is_eager size_tensor) then Error RuntimeError
        else
          JUST size_tensor <- (if is_consistent size_tensor
                          then ConsistentToLocal size_tensor
                          else Ok size_tensor) ;
          JUST size <- SyncAccessTensorWithTimeOut size_tensor ;
          mask_columns (length (tensor_shape index)) 0 (tuple_at res 0) size []
    end.

(** *** PrepareSliceIndices *)

Definition no_outputs : Outputs Tensor :=
  {| slice_indices := []; tensor_indices := []; expand_dims := []; target_dims := [] |}.

Definition emplace_slice (s : Slice) (o : Outputs Tensor) : Outputs Tensor :=
  {| slice_indices := slice_indices o ++ [s]; tensor_indices := tensor_indices o;
     expand_dims := expand_dims o; target_dims := target_dims o |}.

Definition emplace_expand_dim (d : Z) (o : Outputs Tensor) : Outputs Tensor :=
  {| slice_indices := slice_indices o; tensor_indices := tensor_indices o;
     expand_dims := expand_dims o ++ [d]; target_dims := target_dims o |}.

Definition emplace_target_dim (d : Z) (o : Outputs Tensor) : Outputs Tensor :=
  {| slice_indices := slice_indices o; tensor_indices := tensor_indices o;
     expand_dims := expand_dims o; target_dims := target_dims o ++ [d] |}.

(** [tensor_indices->resize(target_dims->size())] followed by
    [tensor_indices->emplace_back(t)]. *)
Definition emplace_tensor (t : option Tensor) (o : Outputs Tensor) : Outputs Tensor :=
  {| slice_indices := slice_indices o;
     tensor_indices := resize (length (target_dims o)) None (tensor_indices o) ++ [t];
     expand_dims := expand_dims o; target_dims := target_dims o |}.

(** The loop of the ellipsis item, [n] iterations from [j]. *)
Fixpoint ellipsis_slices (n : nat) (j : Z) (shape : Shape) (dim : Z) (o : Outputs Tensor)
  : Maybe (Outputs Tensor) :=
  match n with
  | O => Ok o
  | S n' =>
      JUST d <- At shape (to_int (dim + j)) ;
      ellipsis_slices n' (to_int (j + 1)) shape dim
        (emplace_target_dim d (emplace_slice (whole_axis d) o))
  end.

(** The loop that compares a mask with the indexed shape, [n]
    iterations from [j]. *)
Fixpoint mask_matches (n : nat) (j : Z) (mask_shape shape : Shape) (dim : Z)
  : Maybe unit :=
  match n with
  | O => Ok tt
  | S n' =>
      JUST m <- At mask_shape j ;
      JUST d <- At shape (to_int (dim + j)) ;
      if negb (m =? d) then Error IndexError
      else mask_matches n' (to_int (j + 1)) mask_shape shape dim
  end.

(** The loop over the index tensors of one item. *)
Fixpoint tensor_slices (indices : TensorTuple) (shape : Shape) (c : Cursor Tensor)
  : Maybe (Cursor Tensor) :=
  match indices with
  | [] => Ok c
  | t :: rest =>
      JUST d <- At shape (dim c) ;
      let o := emplace_slice (whole_axis d) (outs c) in
      let o := emplace_tensor t o in
      let o := emplace_target_dim d o in
      tensor_slices rest shape
        {| dim := to_int (dim c + 1);
           has_expand_boolean_dim := has_expand_boolean_dim c; outs := o |}
  end.

(** One iteration of the loop over the index. *)
Definition index_item_step (shape : Shape) (specified_ndims : Z) (has_false_index : bool)
    (index_item : IndexItem Tensor) (c : Cursor Tensor) : Maybe (Cursor Tensor) :=
  let ndims := NumAxes shape in
  match index_item with
  | ItemNone =>
      let o := emplace_expand_dim (dim c) (outs c) in
      let o := emplace_slice {| start_ := 0; end_ := 1; step_ := 1 |} o in
      let o := emplace_target_dim 1 o in
      Ok {| dim := dim c; has_expand_boolean_dim := has_expand_boolean_dim c; outs := o |}
  | ItemBoolean _ =>
      if negb (has_expand_boolean_dim c) then
        let boolean_index := if negb has_false_index then 1 else 0 in
        let o := emplace_expand_dim (dim c) (outs c) in
        let o := emplace_slice {| start_ := 0; end_ := boolean_index; step_ := 1 |} o in
        let o := emplace_target_dim boolean_index o in
        Ok {| dim := dim c; has_expand_boolean_dim := true; outs := o |}
      else Ok c
  | ItemEllipsis =>
      let unspecified_ndims := to_int64 (ndims - specified_ndims) in
      let unspecified_ndims := Z.min (to_int64 (ndims - dim c)) unspecified_ndims in
      JUST o <- ellipsis_slices (Z.to_nat unspecified_ndims) 0 shape (dim c) (outs c) ;
      Ok {| dim := to_int (dim c + unspecified_ndims);
            has_expand_boolean_dim := has_expand_boolean_dim c; outs := o |}
  | ItemSlice slice =>
      if negb (dim c <? ndims) then Error CheckFailedError
      else if negb (step_ slice >? 0) then Error CheckFailedError
      else
        JUST d <- At shape (dim c) ;
        let s := clamp_slice slice d in
        let o := emplace_slice s (outs c) in
        let o := emplace_target_dim (slice_length s) o in
        Ok {| dim := to_int (dim c + 1);
              has_expand_boolean_dim := has_expand_boolean_dim c; outs := o |}
  | ItemInteger integer =>
      if negb (dim c <? ndims) then Error CheckFailedError
      else
        JUST d <- At shape (dim c) ;
        let integer := from_front integer d in
        if (integer <? 0) || (integer >=? d) then Error IndexError
        else
          let o := emplace_slice (one_element integer) (outs c) in
          Ok {| dim := to_int (dim c + 1);
                has_expand_boolean_dim := has_expand_boolean_dim c; outs := o |}
  | ItemTensor tensor =>
      if negb (dim c <? ndims) then Error CheckFailedError
      else
        JUST indices <- (if is_mask tensor
                    then
                      JUST matched <- mask_matches (length (tensor_shape tensor)) 0
                             (tensor_shape tensor) shape (dim c) ;
                      ExpandMaskIndex tensor
                    else Ok [Some tensor]) ;
        tensor_slices indices shape c
  end.

Fixpoint index_items (shape : Shape) (specified_ndims : Z) (has_false_index : bool)
    (index : TensorIndex) (c : Cursor Tensor) : Maybe (Cursor Tensor) :=
  match index with
  | [] => Ok c
  | index_item :: rest =>
      JUST c' <- index_item_step shape specified_ndims has_false_index index_item c ;
      index_items shape specified_ndims has_false_index rest c'
  end.

(** The closing loop, [n] iterations from axis [i]. *)
Fixpoint remaining_slices (n : nat) (i : Z) (shape : Shape) (o : Outputs Tensor) : Maybe (Outputs Tensor) :=
  match n with
  | O => Ok o
  | S n' =>
      JUST d <- At shape i ;
      remaining_slices n' (to_int (i + 1)) shape
        (emplace_target_dim d (emplace_slice (whole_axis d) o))
  end.

Definition PrepareSliceIndices (index : TensorIndex) (shape : Shape) (o : Outputs Tensor)
  : Maybe (Outputs Tensor) :=
  let ndims := NumAxes shape in
  let specified_ndims := CountSpecifiedDims index in
  if negb (specified_ndims <=? ndims) then Error CheckFailedError
  else
    JUST has_false_index <- HasFalseIndex index ;
    JUST c <- index_items shape specified_ndims has_false_index index
           {| dim := 0; has_expand_boolean_dim := false; outs := o |} ;
    remaining_slices (Z.to_nat (ndims - dim c)) (dim c) shape (outs c).

(** *** RemoveExpandDimSlice *)

(** The first loop: [mask[dim] = 1] for every [dim], which is compared
    with a [size_t] and so taken as unsigned. *)
Fixpoint mark_expand_dims (expand_dims : list Z) (size : nat) (mask : list Z)
  : Maybe (list Z) :=
  match expand_dims with
  | [] => Ok mask
  | dim :: rest =>
      if wrap64 dim >=? Z.of_nat size then Error RuntimeError
      else mark_expand_dims rest size (<[Z.to_nat (wrap64 dim) := 1]> mask)
  end.

(** The second loop. *)
Fixpoint unmasked_slices (expand_slices : list Slice) (mask : list Z) : list Slice :=
  match expand_slices, mask with
  | s :: slices, m :: mask' =>
      if m =? 0 then s :: unmasked_slices slices mask' else unmasked_slices slices mask'
  | _, _ => []
  end.

Definition RemoveExpandDimSlice (expand_slices : list Slice) (expand_dims : list Z)
  : Maybe (list Slice) :=
  JUST mask <- mark_expand_dims expand_dims (length expand_slices)
            (replicate (length expand_slices) 0) ;
  Ok (unmasked_slices expand_slices mask).

(** *** Advanced indexing *)

(** One entry of [sizes] in [ExpandIndices]: the extent at place [j] of
    the two shapes aligned at their last axes.  Extents are compared as
    [int]s. *)
Definition broadcast_size (shape expanded_shape : Shape) (ndims j : Z) : Maybe Z :=
  let dim := to_int (j - (ndims - NumAxes shape)) in
  let expanded_dim := to_int (j - (ndims - NumAxes expanded_shape)) in
  if dim <? 0 then At expanded_shape expanded_dim
  else if expanded_dim <? 0 then At shape dim
  else
    JUST d <- At shape dim ;
    let size := to_int d in
    JUST e <- At expanded_shape expanded_dim ;
    let expanded_size := to_int e in
    if negb ((size =? expanded_size) || (size =? 1) || (expanded_size =? 1))
    then Error CheckFailedError
    else Ok (Z.max size expanded_size).

(** The loop over [j] from [n - 1] down to [0]. *)
Fixpoint broadcast_sizes (n : nat) (shape expanded_shape : Shape) (ndims : Z)
    (sizes : list Z) : Maybe (list Z) :=
  match n with
  | O => Ok sizes
  | S j =>
      JUST size <- broadcast_size shape expanded_shape ndims (Z.of_nat j) ;
      broadcast_sizes j shape expanded_shape ndims (<[j := size]> sizes)
  end.

(** The first loop of [ExpandIndices].  [expanded_shape] is null, here
    [None], exactly as long as [first] is true. *)
Fixpoint broadcast_shape (indices : TensorTuple) (expanded_shape : option Shape)
  : Maybe (option Shape) :=
  match indices with
  | [] => Ok expanded_shape
  | None :: rest => broadcast_shape rest expanded_shape
  | Some index :: rest =>
      match expanded_shape with
      | None => broadcast_shape rest (Some (tensor_shape index))
      | Some expanded =>
          let shape := tensor_shape index in
          let ndims := to_int (Z.max (NumAxes shape) (NumAxes expanded)) in
          JUST sizes <- broadcast_sizes (Z.to_nat ndims) shape expanded ndims
                          (replicate (Z.to_nat ndims) 0) ;
          broadcast_shape rest (Some sizes)
      end
  end.

(** The second loop of [ExpandIndices]. *)
Fixpoint expand_each (indices : TensorTuple) (expanded_shape : option Shape)
  : Maybe TensorTuple :=
  match indices with
  | [] => Ok []
  | None :: rest =>
      JUST expanded_indices <- expand_each rest expanded_shape ;
      Ok (None :: expanded_indices)
  | Some index :: rest =>
      match expanded_shape with
      | None => Abort
      | Some expanded =>
          JUST item <- (if bool_decide (tensor_shape index <> expanded)
                        then Expand index expanded else Ok index) ;
          JUST expanded_indices <- expand_each rest expanded_shape ;
          Ok (Some item :: expanded_indices)
      end
  end.

Definition ExpandIndices (indices : TensorTuple) : Maybe TensorTuple :=
  JUST expanded_shape <- broadcast_shape indices None ;
  expand_each indices expanded_shape.

Definition present (indices : TensorTuple) (i : nat) : bool :=
  match indices !! i with
  | Some (Some _) => true
  | _ => false
  end.

(** The loop of [IsContinuosSubspace]. *)
Fixpoint continuos_scan (indices : TensorTuple) (token : Z) : bool :=
  match indices with
  | [] => true
  | index :: rest =>
      if bool_decide (is_Some index) && (token =? 0) then continuos_scan rest 1
      else if bool_decide (is_Some index) && negb (token =? 0) then
        if negb (token =? 1) then false else continuos_scan rest token
      else if token =? 0 then continuos_scan rest (to_int (token + 1))
      else continuos_scan rest token
  end.

Definition IsContinuosSubspace (indices : TensorTuple) : Maybe bool :=
  Ok (continuos_scan indices 0).


(** The axes [i < ndim] that an index tensor addresses, and then the
    others: the two loops that fill [permute]. *)
Definition front_permute (ndim : nat) (indices : TensorTuple) : list Z :=
  (Z.of_nat <$> filter (fun i => present indices i = true) (seq 0 ndim))
  ++ (Z.of_nat <$> filter (fun i => present indices i = false) (seq 0 ndim)).

Definition front_indices (ndim : nat) (indices : TensorTuple) : TensorTuple :=
  (fun i => tuple_at indices i) <$> filter (fun i => present indices i = true) (seq 0 ndim).

Definition need_transpose (permute : list Z) : bool :=
  existsb (fun '(i, p) => negb (p =? Z.of_nat i)) (imap pair permute).

(** [TransposeFront]; [valid_indices] is the caller's tuple. *)
Definition TransposeFront (input : Tensor) (indices : TensorTuple) (valid_indices : TensorTuple)
  : Maybe (Tensor * TensorTuple) :=
  let ndim := length (tensor_shape input) in
  let permute := front_permute ndim indices in
  let valid_indices := valid_indices ++ front_indices ndim indices in
  if need_transpose permute
  then JUST output <- Transpose input permute ; Ok (output, valid_indices)
  else Ok (input, valid_indices).

(** The position of the first index tensor, or [-1]. *)
Fixpoint index_subspace_pos (indices : TensorTuple) (i : Z) : Z :=
  match indices with
  | [] => -1
  | Some _ :: _ => i
  | None :: rest => index_subspace_pos rest (to_int (i + 1))
  end.

(** The three loops that fill [permute] in [AdjustSubspace]. *)
Definition subspace_permute (pos index_ndim ndim : Z) : list Z :=
  let first := (fun i => to_int (Z.of_nat i + index_ndim)) <$> seq 0 (Z.to_nat pos) in
  let second := Z.of_nat <$> seq 0 (Z.to_nat index_ndim) in
  let filled := to_int (Z.of_nat (length (first ++ second))) in
  first ++ second
  ++ ((fun i => to_int (filled + Z.of_nat i)) <$> seq 0 (Z.to_nat (ndim - filled))).

Definition AdjustSubspace (input : Tensor) (indices : TensorTuple) (index_ndim : Z)
  : Maybe Tensor :=
  let pos := index_subspace_pos indices 0 in
  if pos <=? 0 then Ok input
  else
    let ndim := to_int (NumAxes (tensor_shape input)) in
    if negb (to_int (pos + index_ndim) <=? ndim) then Error CheckFailedError
    else Transpose input (subspace_permute pos index_ndim ndim).

(** *** SplitFunctor and SplitWithSizeFunctor (functional/impl/array_functor.cpp) *)

(** The loop of [SplitFunctor], [n] iterations from [i]. *)
Fixpoint split_pieces (n : nat) (i : Z) (x : Tensor)
    (dim split_size num_splits last_split_size : Z) : Maybe TensorTuple :=
  match n with
  | O => Ok []
  | S n' =>
      let length := if i <? to_int64 (num_splits - 1) then split_size
                    else last_split_size in
      JUST piece <- Narrow x dim (to_int64 (i * split_size)) length ;
      JUST splits <- split_pieces n' (to_int (i + 1)) x dim split_size num_splits
                       last_split_size ;
      Ok (Some piece :: splits)
  end.

Definition SplitFunctor (x : Tensor) (split_size dim : Z) : Maybe TensorTuple :=
  if negb (split_size >=? 0) then Error CheckFailedError
  else
    JUST dim_size <- At (tensor_shape x) dim ;
    if split_size =? 0 then Abort
    else
      let num_splits :=
        Z.max (Z.quot (to_int64 (dim_size + split_size - 1)) split_size) 1 in
      let last_split_size :=
        to_int64 (split_size - to_int64 (to_int64 (split_size * num_splits) - dim_size)) in
      split_pieces (Z.to_nat num_splits) 0 x dim split_size num_splits last_split_size.

(** The loop of [SplitWithSizeFunctor]; it hands on [start_idx].  The
    counter of the loop, an [int], stays in its range for fewer than
    2^31 sizes. *)
Fixpoint split_with_sizes (split_sizes : list Z) (start_idx : Z) (x : Tensor) (dim : Z)
  : Maybe (TensorTuple * Z) :=
  match split_sizes with
  | [] => Ok ([], start_idx)
  | length :: rest =>
      if negb (length >=? 0) then Error CheckFailedError
      else
        JUST piece <- Narrow x dim start_idx length ;
        JUST r <- split_with_sizes rest (to_int64 (start_idx + length)) x dim ;
        Ok (Some piece :: r.1, r.2)
  end.

Definition SplitWithSizeFunctor (x : Tensor) (split_sizes : list Z) (dim : Z)
  : Maybe TensorTuple :=
  JUST dim_size <- At (tensor_shape x) dim ;
  JUST r <- split_with_sizes split_sizes 0 x dim ;
  if negb (r.2 =? dim_size) then Error CheckFailedError
  else Ok r.1.

(** [Narrow] of one tensor along [dim] for each of the pieces, given by
    start and length. *)
Fixpoint narrow_each (x : Tensor) (dim : Z) (pieces : list (Z * Z)) : Maybe TensorTuple :=
  match pieces with
  | [] => Ok []
  | (start, length) :: rest =>
      JUST piece <- Narrow x dim start length ;
      JUST splits <- narrow_each x dim rest ;
      Ok (Some piece :: splits)
  end.

End Indexing.

(** How [slice_indices] and [expand_dims] are laid out: [real] holds the
    slices of the axes of the tensor, in order; every other slice
    stands for an axis to insert, is [0:1] or [0:0], and has the number
    of the axis it goes before noted in [expand_dims]. *)
Inductive layout : list Slice -> list Z -> list Slice -> Prop :=
| layout_nil : layout [] [] []
| layout_axis slices dims real s :
    layout slices dims real ->
    layout (slices ++ [s]) dims (real ++ [s])
| layout_expand slices dims real b :
    layout slices dims real -> b = 0 \/ b = 1 ->
    layout (slices ++ [{| start_ := 0; end_ := b; step_ := 1 |}])
           (dims ++ [Z.of_nat (length real)]) real.

(** The slices [PrepareSliceIndices] makes for an axis of extent [d]:
    the whole axis, one element an integer item names, or what is left
    of a slice item. *)
Inductive axis_slice {Tensor : Type} (index : list (IndexItem Tensor)) (d : Z)
  : Slice -> Prop :=
| axis_whole : axis_slice index d (whole_axis d)
| axis_integer integer :
    ItemInteger integer ∈ index -> 0 <= from_front integer d < d ->
    axis_slice index d (one_element (from_front integer d))
| axis_clamped slice :
    ItemSlice slice ∈ index -> 0 < step_ slice ->
    axis_slice index d (clamp_slice slice d).

(** What holds of the cursor between two items: the slices made so far
    are those of the first [dim] axes, laid out among the inserted
    ones. *)
Definition cursor_ok {Tensor : Type} (index : list (IndexItem Tensor)) (shape : Shape)
    (c : Cursor Tensor) : Prop :=
  0 <= dim c <= NumAxes shape /\
  exists real,
    layout (slice_indices (outs c)) (expand_dims (outs c)) real /\
    Z.of_nat (length real) = dim c /\
    Forall2 (fun s d => axis_slice index d s) real (take (length real) shape).

(** A shape can be broadcast to another: aligned at their last axes,
    each of its extents is 1 or the extent of the other. *)
Definition broadcasts_to (shape expanded : Shape) : Prop :=
  (length shape <= length expanded)%nat /\
  forall j d, shape !! j = Some d ->
    d = 1 \/ expanded !! (j + (length expanded - length shape))%nat = Some d.

(** Pieces that follow one another from [start], of the given
    lengths. *)
Fixpoint consecutive_pieces (start : Z) (lengths : list Z) : list (Z * Z) :=
  match lengths with
  | [] => []
  | length :: rest => (start, length) :: consecutive_pieces (start + length) rest
  end.

(** A slice stays within an axis of extent [d]. *)
Definition within (s : Slice) (d : Z) : Prop :=
  0 <= start_ s <= end_ s /\ end_ s <= d /\ 1 <= step_ s.

(** Tensors known by their shape alone, to try the functions on: an
    operator answers with the shape of its result, and fails where it
    would need the elements. *)
Definition shape_ops : TensorOps (list Z) :=
  {| tensor_shape := fun t => t;
     tensor_dtype := fun _ => kInt64;
     is_eager := fun _ => true;
     is_consistent := fun _ => false;
     ArgWhere := fun _ _ => Error RuntimeError;
     ConsistentToLocal := fun t => Ok t;
     SyncAccessTensorWithTimeOut := fun _ => Error RuntimeError;
     Slice_op := fun _ _ _ _ => Error RuntimeError;
     Reshape := fun _ shape => Ok shape;
     Expand := fun _ shape => Ok shape;
     Transpose := fun t permute => Ok ((fun i => default 0 (t !! Z.to_nat i)) <$> permute);
     Narrow := fun t dim _ length => Ok (<[Z.to_nat dim := length]> t) |}.

(** The same, with an [ArgWhere] that finds every element of a mask
    set. *)
Definition mask_ops : TensorOps (list Z) :=
  {| tensor_shape := fun t => t;
     tensor_dtype := fun _ => kInt8;
     is_eager := fun _ => true;
     is_consistent := fun _ => false;
     ArgWhere := fun t _ =>
       Ok [Some [fold_right Z.mul 1 t; Z.of_nat (length t)]; Some [1]];
     ConsistentToLocal := fun t => Ok t;
     SyncAccessTensorWithTimeOut := fun _ => Ok 1;
     Slice_op := fun _ start stop _ => Ok (zip_with Z.sub stop start);
     Reshape := fun _ shape => Ok shape;
     Expand := fun _ shape => Ok shape;
     Transpose := fun t permute => Ok ((fun i => default 0 (t !! Z.to_nat i)) <$> permute);
     Narrow := fun t dim _ length => Ok (<[Z.to_nat dim := length]> t) |}.

(** The index of [x[None, 1, 0:2]], and of [x[None, 0:5, None]]. *)
Definition sample_index : list (IndexItem (list Z)) :=
  [ItemNone; ItemInteger 1; ItemSlice {| start_ := 0; end_ := 2; step_ := 1 |}].

Definition sample_index2 : list (IndexItem (list Z)) :=
  [ItemNone; ItemSlice {| start_ := 0; end_ := 5; step_ := 1 |}; ItemNone].

End functional.

(* ================================================================= *)
(** ** Element types (framework/dtype.cpp) *)

Module dtype.
Import functional.

(** [static_cast<int>(data_type)], the numbering of data_type.proto. *)
Definition data_type_index (data_type : DataType) : nat :=
  match data_type with
  | kInvalidDataType => 0
  | kChar => 1
  | kFloat => 2
  | kDouble => 3
  | kInt8 => 4
  | kInt32 => 5
  | kInt64 => 6
  | kUInt8 => 7
  | kOFRecord => 8
  | kFloat16 => 9
  | kTensorBuffer => 10
  | kBFloat16 => 11
  end.

Record DTypeMeta : Type := {
  name : string;
  is_signed : bool;
  is_floating_point : bool;
  is_complex : bool
}.

(** The entries of [data_type2dtype_meta]; [MapAt] fails on a key that
    is not there. *)
Definition DTypeMeta4DataType (data_type : DataType) : Maybe DTypeMeta :=
  match data_type with
  | kInvalidDataType =>
      Ok {| name := "oneflow.invalid_data_type"; is_signed := false;
            is_floating_point := false; is_complex := false |}
  | kChar =>
      Ok {| name := "oneflow.char"; is_signed := false;
            is_floating_point := false; is_complex := false |}
  | kFloat16 =>
      Ok {| name := "oneflow.float16"; is_signed := true;
            is_floating_point := true; is_complex := false |}
  | kFloat =>
      Ok {| name := "oneflow.float32"; is_signed := true;
            is_floating_point := true; is_complex := false |}
  | kDouble =>
      Ok {| name := "oneflow.float64"; is_signed := true;
            is_floating_point := true; is_complex := false |}
  | kInt8 =>
      Ok {| name := "oneflow.int8"; is_signed := true;
            is_floating_point := false; is_complex := false |}
  | kInt32 =>
      Ok {| name := "oneflow.int32"; is_signed := true;
            is_floating_point := false; is_complex := false |}
  | kInt64 =>
      Ok {| name := "oneflow.int64"; is_signed := true;
            is_floating_point := false; is_complex := false |}
  | kUInt8 =>
      Ok {| name := "oneflow.uint8"; is_signed := false;
            is_floating_point := false; is_complex := false |}
  | kOFRecord =>
      Ok {| name := "oneflow.of_record"; is_signed := false;
            is_floating_point := false; is_complex := false |}
  | kTensorBuffer =>
      Ok {| name := "oneflow.tensor_buffer"; is_signed := false;
            is_floating_point := false; is_complex := false |}
  | kBFloat16 =>
      Ok {| name := "oneflow.bfloat16"; is_signed := true;
            is_floating_point := true; is_complex := false |}
  end.

(** [CHECK_JUST]: an error ends the process. *)
Definition CHECK_JUST {A} (r : Maybe A) : Maybe A :=
  match r with
  | Ok a => Ok a
  | _ => Abort
  end.

Definition DType_is_signed (data_type : DataType) : Maybe bool :=
  bind (CHECK_JUST (DTypeMeta4DataType data_type)) (fun m => Ok (is_signed m)).

Definition DType_is_floating_point (data_type : DataType) : Maybe bool :=
  bind (CHECK_JUST (DTypeMeta4DataType data_type)) (fun m => Ok (is_floating_point m)).

(** [DType::priority_order]. *)
Definition priority_order (data_type : DataType) : Z :=
  nth (data_type_index data_type) [0; 2; 7; 8; 3; 4; 5; 1; 10; 6; 11; 9] 0.

(** [_promoteTypesLookup]. *)
Definition _promoteTypesLookup : list (list DataType) :=
  let iv := kInvalidDataType in
  let c1 := kChar in
  let f4 := kFloat in
  let f8 := kDouble in
  let i1 := kInt8 in
  let i4 := kInt32 in
  let i8 := kInt64 in
  let u1 := kUInt8 in
  let re := kOFRecord in
  let f2 := kFloat16 in
  let bu := kTensorBuffer in
  let bf := kBFloat16 in
  [ (* iv *) [iv; c1; f4; f8; i1; i4; i8; u1; re; f2; bu; bf];
    (* c1 *) [c1; c1; f4; f8; i1; i4; i8; c1; re; f2; bu; bf];
    (* f4 *) [f4; f4; f4; f8; f4; f4; f4; f4; re; f4; bu; bf];
    (* f8 *) [f8; f8; f8; f8; f8; f8; f8; f8; re; f8; bu; bf];
    (* i1 *) [i1; i1; f4; f8; i1; i4; i8; i1; re; f2; bu; bf];
    (* i4 *) [i4; i4; f4; f8; i4; i4; i8; i4; re; f2; bu; bf];
    (* i8 *) [i8; i8; f4; f8; i8; i8; i8; i8; re; f2; bu; bf];
    (* u1 *) [u1; c1; f4; f8; i1; i4; i8; u1; re; f2; bu; bf];
    (* re *) [re; re; re; re; re; re; re; re; re; re; bu; re];
    (* f2 *) [f2; f2; f4; f8; f2; f2; f2; f2; re; f2; bu; bf];
    (* bu *) [bu; bu; bu; bu; bu; bu; bu; bu; bu; bu; bu; bu];
    (* bf *) [bf; bf; bf; bf; bf; bf; bf; bf; re; bf; bu; bf] ].

Definition promoteTypes (a b : DataType) : DataType :=
  nth (data_type_index b) (nth (data_type_index a) _promoteTypesLookup []) kInvalidDataType.

End dtype.

(* ================================================================= *)
(** ** Registry of functors (functional/function_library.h) *)

Module function_library.
Import functional.

Section Library.
(** The functor classes, the packed signatures [FType], and the
    signature [function_traits] and [PackedFunctorMaker] give a functor
    class. *)
Context {Func FType : Type} `{EqDecision FType}.
Variable FType_of : Func -> FType.

(** [PackedFuncMap<FType>::Get()]: one map from names to creators for
    each signature.  A creator makes the packed functor of its class
    under the name it was registered with. *)
Definition FunctionLibrary : Type := FType -> gmap string Func.

Definition PackedFunctor : Type := string * Func.

(** Nothing registered. *)
Definition empty_library : FunctionLibrary := fun _ => ∅.

(** [add_functor<Func>(func_name)]; the [CHECK_EQ] ends the process. *)
Definition add_functor (func : Func) (func_name : string) (m : FunctionLibrary)
  : Maybe FunctionLibrary :=
  let functors := m (FType_of func) in
  if decide (func_name ∈ dom functors) then Abort
  else Ok (fun ftype =>
             if decide (ftype = FType_of func) then <[func_name := func]> functors
             else m ftype).

(** [find<R, Args...>(func_name)]. *)
Definition find (ftype : FType) (func_name : string) (m : FunctionLibrary)
  : Maybe PackedFunctor :=
  match m ftype !! func_name with
  | Some func => Ok (func_name, func)
  | None => Error CheckFailedError
  end.

(** The body of an [ONEFLOW_FUNCTION_LIBRARY(m)] block: its
    [add_functor] calls, in order, each with the class and the name it
    registers. *)
Fixpoint add_functors (registrations : list (Func * string)) (m : FunctionLibrary)
  : Maybe FunctionLibrary :=
  match registrations with
  | [] => Ok m
  | (func, func_name) :: rest =>
      bind (add_functor func func_name m) (add_functors rest)
  end.

End Library.

(** The block of functional/impl/array_functor.cpp; a functor class
    goes by its name. *)
Definition array_functors : list (string * string) :=
  [ ("impl::ArgMaxFunctor", "ArgMax");
    ("impl::ArgMinFunctor", "ArgMin");
    ("impl::ConsistentConstantFunctor", "ConsistentConstant");
    ("impl::ConstantFunctor", "Constant");
    ("impl::ConsistentEmptyFunctor", "ConsistentEmpty");
    ("impl::EmptyFunctor", "Empty");
    ("impl::ZerosLikeFunctor", "ZerosLike");
    ("impl::OnesLikeFunctor", "OnesLike");
    ("impl::FlattenFunctor", "Flatten");
    ("impl::WhereFunctor", "Where");
    ("impl::WhereScalarXFunctor", "WhereScalarX");
    ("impl::WhereScalarYFunctor", "WhereScalarY");
    ("impl::WhereScalarXYFunctor", "WhereScalarXY");
    ("impl::ArgWhereFunctor", "ArgWhere");
    ("impl::BroadcastLikeFunctor", "BroadcastLike");
    ("impl::ConcatFunctor", "Concat");
    ("impl::StackFunctor", "Stack");
    ("impl::ExpandFunctor", "Expand");
    ("impl::ExpandDimsFunctor", "ExpandDims");
    ("impl::GatherFunctor", "Gather");
    ("impl::DimGatherFunctor", "DimGather");
    ("impl::ArgSortFunctor", "ArgSort");
    ("impl::GatherNdFunctor", "GatherNd");
    ("impl::ScatterNdFunctor", "ScatterNd");
    ("impl::TensorScatterNdUpdateFunctor", "TensorScatterNdUpdate");
    ("impl::ScatterNdLikeFunctor", "ScatterNdLike");
    ("impl::ReshapeFunctor", "Reshape");
    ("impl::SliceFunctor", "Slice");
    ("impl::SliceGradFunctor", "SliceGrad");
    ("impl::NarrowFunctor", "Narrow");
    ("impl::NarrowGradFunctor", "NarrowGrad");
    ("impl::LogicalSliceAssignFunctor", "LogicalSliceAssign");
    ("impl::LogicalSliceFunctor", "LogicalSlice");
    ("impl::SliceUpdateFunctor", "SliceUpdate");
    ("impl::SqueezeFunctor", "Squeeze");
    ("impl::CopyFunctor", "Copy");
    ("impl::FlipFunctor", "Flip");
    ("impl::FlipGradFunctor", "FlipGrad");
    ("impl::UpsampleFunctor", "Upsample");
    ("impl::UpsampleNearest2DFunctor", "UpsampleNearest2D");
    ("impl::UpsampleNearest2DGradFunctor", "UpsampleNearest2DGrad");
    ("impl::UpsampleBilinear2DFunctor", "UpsampleBilinear2D");
    ("impl::UpsampleBilinear2DGradFunctor", "UpsampleBilinear2DGrad");
    ("impl::UpsampleLinear1DFunctor", "UpsampleLinear1D");
    ("impl::UpsampleLinear1DGradFunctor", "UpsampleLinear1DGrad");
    ("impl::UpsampleNearest1DFunctor", "UpsampleNearest1D");
    ("impl::UpsampleNearest1DGradFunctor", "UpsampleNearest1DGrad");
    ("impl::UpsampleBicubic2DFunctor", "UpsampleBicubic2D");
    ("impl::UpsampleBicubic2DGradFunctor", "UpsampleBicubic2DGrad");
    ("impl::UpsampleNearest3DFunctor", "UpsampleNearest3D");
    ("impl::UpsampleNearest3DGradFunctor", "UpsampleNearest3DGrad");
    ("impl::UpsampleTrilinear3DFunctor", "UpsampleTrilinear3D");
    ("impl::UpsampleTrilinear3DGradFunctor", "UpsampleTrilinear3DGrad");
    ("impl::UnsortedSegmentSumLikeFunctor", "UnsortedSegmentSumLike");
    ("impl::TrilFunctor", "Tril");
    ("impl::TriuFunctor", "Triu");
    ("impl::DiagFunctor", "Diag");
    ("impl::DiagGradFunctor", "DiagGrad");
    ("impl::TensorGetItemFunctor", "TensorGetItem");
    ("impl::DimScatterFunctor", "DimScatter");
    ("impl::DimScatterAddFunctor", "DimScatterAdd");
    ("impl::DimScatterMulFunctor", "DimScatterMul");
    ("impl::DimScatterUpdateScalarFunctor", "DimScatterUpdateScalar");
    ("impl::DimScatterAddScalarFunctor", "DimScatterAddScalar");
    ("impl::DimScatterMulScalarFunctor", "DimScatterMulScalar");
    ("impl::TensorSetItemFunctor", "TensorSetItem");
    ("impl::CastLikeFunctor", "CastLike");
    ("impl::ElementwiseMinimumGradFunctor", "ElementwiseMinGrad");
    ("impl::ElementwiseMaximumGradFunctor", "ElementwiseMaxGrad");
    ("impl::BroadcastPowXGradFunctor", "BroadcastPowXGrad");
    ("impl::BroadcastPowYGradFunctor", "BroadcastPowYGrad");
    ("impl::DivGradFunctor", "DivGrad");
    ("impl::IdentityFunctor", "Identity");
    ("impl::AmpWhiteIdentityFunctor", "AmpWhiteIdentity");
    ("impl::ReduceSumLikeFunctor", "ReduceSumLike");
    ("impl::BroadcastReduceSumLikeFunctor", "BroadcastReduceSumLike");
    ("impl::SplitFunctor", "Split");
    ("impl::SplitLikeFunctor", "SplitLike");
    ("impl::SplitWithSizeFunctor", "SplitWithSize");
    ("impl::BatchGatherFunctor", "BatchGather");
    ("impl::UnsortedBatchSegmentSumFunctor", "UnsortedBatchSegmentSum") ]%string.

End function_library.


(* ================================================================= *)
(** * Properties *)

(** ** Operand enumerators *)

Module vm_facts.
Import vm.

Section AnyVisitor.
Context {St : Type} (self : AccessBlobArgCbPhyInstrOperand) (DoEach : Visitor St) (st : St).

Let compute := mut_mirrored_object (compute_local_dep_object_ self).

Lemma ForEachConst_run :
  ForEachConstMirroredObject self DoEach st =
  if decide (modifier_ self = "const"%string) then DoEach nullptr compute st else st.
Proof.
  unfold ForEachConstMirroredObject.
  destruct (String.eqb_spec (modifier_ self) "const"); case_decide; first [reflexivity | congruence].
Qed.

Lemma ForEachMut_run :
  ForEachMutMirroredObject self DoEach st =
  if decide (modifier_ self = "mut"%string) then DoEach nullptr compute st else st.
Proof.
  unfold ForEachMutMirroredObject.
  destruct (String.eqb_spec (modifier_ self) "mut"); case_decide; first [reflexivity | congruence].
Qed.

Lemma ForEachMut2_run :
  ForEachMut2MirroredObject self DoEach st =
  if decide (modifier_ self = "mut2"%string) then DoEach nullptr compute st else st.
Proof.
  unfold ForEachMut2MirroredObject.
  destruct (String.eqb_spec (modifier_ self) "mut2"); case_decide; first [reflexivity | congruence].
Qed.
End AnyVisitor.

Ltac enumerate_log :=
  unfold invocations;
  rewrite ?ForEachConst_run, ?ForEachMut_run, ?ForEachMut2_run;
  repeat case_decide; try congruence; try reflexivity.

(** C2.  For an operand whose modifier is one of const, mut, mut2, the
    enumerator of that tag calls the visitor exactly once, with a null
    infer argument and the operand's compute dependency object, and the
    other two enumerators do not call it. *)
Theorem tagged_operand_visits_once (self : AccessBlobArgCbPhyInstrOperand) :
  modifier_ self ∈ access_tags ->
  let compute := mut_mirrored_object (compute_local_dep_object_ self) in
  (modifier_ self = "const"%string /\
   invocations ForEachConstMirroredObject self = [(nullptr, compute)] /\
   invocations ForEachMutMirroredObject self = [] /\
   invocations ForEachMut2MirroredObject self = [])
  \/
  (modifier_ self = "mut"%string /\
   invocations ForEachConstMirroredObject self = [] /\
   invocations ForEachMutMirroredObject self = [(nullptr, compute)] /\
   invocations ForEachMut2MirroredObject self = [])
  \/
  (modifier_ self = "mut2"%string /\
   invocations ForEachConstMirroredObject self = [] /\
   invocations ForEachMutMirroredObject self = [] /\
   invocations ForEachMut2MirroredObject self = [(nullptr, compute)]).
Proof.
  intros Htag compute. unfold access_tags in Htag.
  apply elem_of_cons in Htag as [H | Htag]; [left | right].
  { split; [exact H | repeat split; enumerate_log]. }
  apply elem_of_cons in Htag as [H | Htag]; [left | right].
  { split; [exact H | repeat split; enumerate_log]. }
  apply list_elem_of_singleton in Htag.
  split; [exact Htag | repeat split; enumerate_log].
Qed.

Lemma tagged_operand_visits_once_witness :
  invocations ForEachMut2MirroredObject mut2_operand = [(0, 4096)].
Proof.
  destruct (tagged_operand_visits_once mut2_operand) as [H | [H | H]].
  - unfold access_tags, mut2_operand; simpl. set_solver.
  - destruct H as [H _]. discriminate H.
  - destruct H as [H _]. discriminate H.
  - destruct H as (_ & _ & _ & H). exact H.
Defined.

(** C9.  For an operand whose modifier is none of const, mut, mut2, none
    of the three enumerators calls the visitor, and each returns: whatever
    the visitor and the state it works on, the state comes back as it
    went in. *)
Theorem untagged_operand_never_visits (self : AccessBlobArgCbPhyInstrOperand) :
  modifier_ self ∉ access_tags ->
  (invocations ForEachConstMirroredObject self = [] /\
   invocations ForEachMutMirroredObject self = [] /\
   invocations ForEachMut2MirroredObject self = []) /\
  (forall (St : Type) (DoEach : Visitor St) (st : St),
     ForEachConstMirroredObject self DoEach st = st /\
     ForEachMutMirroredObject self DoEach st = st /\
     ForEachMut2MirroredObject self DoEach st = st).
Proof.
  unfold access_tags. intros Htag.
  assert (modifier_ self <> "const"%string /\ modifier_ self <> "mut"%string /\
          modifier_ self <> "mut2"%string) as (Hc & Hm & Hm2).
  { repeat split; intros E; apply Htag; rewrite E; set_solver. }
  split.
  - repeat split; enumerate_log.
  - intros St DoEach st.
    rewrite ForEachConst_run, ForEachMut_run, ForEachMut2_run.
    repeat case_decide; try congruence. auto.
Qed.

Lemma untagged_operand_never_visits_witness :
  invocations ForEachConstMirroredObject stray_operand = [] /\
  invocations ForEachMutMirroredObject stray_operand = [] /\
  invocations ForEachMut2MirroredObject stray_operand = [].
Proof.
  apply (untagged_operand_never_visits stray_operand).
  unfold access_tags, stray_operand; simpl.
  rewrite !elem_of_cons, elem_of_nil. intros [H | [H | [H | []]]]; discriminate H.
Defined.

End vm_facts.

(** ** Message pool *)

Module ibverbs_facts.
Import ibverbs.

Section PoolFacts.
Variable sizeof_ActorMsg : Z.

Local Abbreviation GetMessage := (ibverbs.GetMessage sizeof_ActorMsg).
Local Abbreviation BulkAllocMessage := (ibverbs.BulkAllocMessage sizeof_ActorMsg).
Local Abbreviation step := (ibverbs.step sizeof_ActorMsg).
Local Abbreviation exec := (ibverbs.exec sizeof_ActorMsg).

Lemma pop_push m p : pop_message (push_message m p) = p.
Proof.
  destruct p; unfold pop_message, push_message; simpl.
  by rewrite removelast_last.
Qed.

Lemma GetMessageFromBuf_snoc p e l m :
  message_buf_ p = l ++ [m] ->
  GetMessageFromBuf (p, e) = Ret (m, (pop_message p, e)).
Proof.
  intros E. unfold GetMessageFromBuf; simpl. by rewrite E, last_snoc.
Qed.

Lemma GetMessage_pops p e l m :
  message_buf_ p = l ++ [m] ->
  GetMessage (p, e) = Ret (m, (pop_message p, e)).
Proof.
  intros E. unfold ibverbs.GetMessage; simpl. rewrite E.
  destruct l; simpl; by apply (GetMessageFromBuf_snoc _ _ _ _ E).
Qed.

Lemma GetMessage_nonempty p e :
  message_buf_ p <> [] -> GetMessage (p, e) = GetMessageFromBuf (p, e).
Proof. unfold ibverbs.GetMessage; simpl. by destruct (message_buf_ p). Qed.

Lemma GetMessage_empty p e :
  message_buf_ p = [] ->
  GetMessage (p, e) = bind (BulkAllocMessage (p, e)) GetMessageFromBuf.
Proof. unfold ibverbs.GetMessage; simpl. by intros ->. Qed.

(** What the loop of [BulkAllocMessage] leaves behind. *)
Lemma carve_messages_spec n : forall i mr addr msz p e,
  let s' := carve_messages n i mr addr msz (p, e) in
  message_buf_ (fst s') = message_buf_ p ++ map obj_ptr (seq (length (objs e)) n) /\
  length (objs (snd s')) = (length (objs e) + n)%nat /\
  ibv_mr_buf_ (fst s') = ibv_mr_buf_ p /\
  memory_buf_ (fst s') = memory_buf_ p /\
  pd_ (fst s') = pd_ p /\
  num_msg_per_bluk_allocation_ (fst s') = num_msg_per_bluk_allocation_ p /\
  mrs (snd s') = mrs e /\ max_mr (snd s') = max_mr e /\ brk (snd s') = brk e.
Proof.
  induction n as [|n IH]; intros i mr addr msz p e; simpl.
  - rewrite app_nil_r, Nat.add_0_r. tauto.
  - 
    specialize (IH (i + 1) mr addr msz
      (push_message (obj_ptr (length (objs e))) p)
      {| brk := brk e; mrs := mrs e; max_mr := max_mr e;
         objs := objs e ++ [{| msg_mr := mr;
                               msg_addr := addr + wrap64 (msz * i);
                               msg_size := msz |}] |}).
    simpl in IH. rewrite length_app in IH. simpl in IH.
    rewrite Nat.add_1_r in IH.
    destruct IH as (H1 & H2 & H3 & H4 & H5 & H6 & H7 & H8 & H9).
    unfold obj_ptr in *.
    rewrite H1, H2, H3, H4, H5, H6, H7, H8, H9, <- app_assoc.
    repeat split; try reflexivity. lia.
Qed.

(** The state [BulkAllocMessage] produces when the adapter accepts the
    region. *)
Lemma BulkAllocMessage_spec p e :
  (length (mrs e) < max_mr e)%nat ->
  exists s',
    BulkAllocMessage (p, e) = Ret s' /\
    mrs (snd s') =
      mrs e ++ [{| mr_pd := pd_ p; mr_addr := brk e;
                   mr_length := wrap64 (wrap64 sizeof_ActorMsg *
                                        num_msg_per_bluk_allocation_ p);
                   mr_access := 7 |}] /\
    ibv_mr_buf_ (fst s') = ibv_mr_buf_ p ++ [Z.of_nat (length (mrs e)) + 1] /\
    memory_buf_ (fst s') = memory_buf_ p ++ [brk e] /\
    message_buf_ (fst s') =
      message_buf_ p ++
      map obj_ptr (seq (length (objs e)) (Z.to_nat (num_msg_per_bluk_allocation_ p))) /\
    length (objs (snd s')) =
      (length (objs e) + Z.to_nat (num_msg_per_bluk_allocation_ p))%nat /\
    num_msg_per_bluk_allocation_ (fst s') = num_msg_per_bluk_allocation_ p /\
    max_mr (snd s') = max_mr e.
Proof.
  intros Hroom. unfold ibverbs.BulkAllocMessage, malloc, ibv_reg_mr_wrap; simpl.
  apply Nat.ltb_lt in Hroom. rewrite Hroom.
  replace (Z.of_nat (length (mrs e)) + 1 =? nullptr) with false
    by (symmetry; apply Z.eqb_neq; unfold nullptr; lia).
  eexists. split; [reflexivity|].
  match goal with
  | |- context [carve_messages ?n ?i ?mr ?addr ?msz (?p', ?e')] =>
      pose proof (carve_messages_spec n i mr addr msz p' e') as H
  end.
  simpl in H. destruct H as (H1 & H2 & H3 & H4 & H5 & H6 & H7 & H8 & H9).
  rewrite H1, H2, H3, H4, H6, H7, H8. repeat split; reflexivity.
Qed.

Lemma BulkAllocMessage_full p e :
  ~ (length (mrs e) < max_mr e)%nat -> BulkAllocMessage (p, e) = CheckFailed.
Proof.
  intros Hfull. unfold ibverbs.BulkAllocMessage, malloc, ibv_reg_mr_wrap; simpl.
  apply Nat.ltb_nlt in Hfull. by rewrite Hfull.
Qed.

(** C10.  The free list is a stack: [PutMessage(m)] followed at once by
    [GetMessage] returns [m] and leaves the pool and its surroundings as
    they were before the [PutMessage]; in particular no region is
    registered and no buffer is created by that [GetMessage]. *)
Theorem put_then_get_is_identity (s : State) (m : Z) :
  GetMessage (PutMessage m s) = Ret (m, s) /\
  (forall m' s', GetMessage (PutMessage m s) = Ret (m', s') ->
     m' = m /\
     message_buf_ (fst s') = message_buf_ (fst s) /\
     ibv_mr_buf_ (fst s') = ibv_mr_buf_ (fst s) /\
     memory_buf_ (fst s') = memory_buf_ (fst s) /\
     mrs (snd s') = mrs (snd s) /\ objs (snd s') = objs (snd s)).
Proof.
  assert (GetMessage (PutMessage m s) = Ret (m, s)) as E.
  { destruct s as [p e]. unfold PutMessage; simpl.
    rewrite GetMessage_nonempty by (simpl; by destruct (message_buf_ p)).
    rewrite (GetMessageFromBuf_snoc _ _ (message_buf_ p) m) by reflexivity.
    by rewrite pop_push. }
  split; [exact E|].
  intros m' s' E'. rewrite E in E'. injection E' as -> ->. repeat split.
Qed.

Lemma wrap64_small z : 0 <= z < 2 ^ 64 -> wrap64 z = z.
Proof. intros H. unfold wrap64. by apply Z.mod_small. Qed.

Lemma last_map_seq (f : nat -> Z) a n :
  last (map f (seq a (S n))) = Some (f (a + n)%nat) /\
  removelast (map f (seq a (S n))) = map f (seq a n).
Proof.
  rewrite seq_S, map_app; simpl. by rewrite last_snoc, removelast_last.
Qed.

(** [GetMessage] on an empty free list, when the adapter accepts the
    region and the batch is not empty. *)
Lemma GetMessage_allocates p e n :
  message_buf_ p = [] ->
  (length (mrs e) < max_mr e)%nat ->
  Z.to_nat (num_msg_per_bluk_allocation_ p) = S n ->
  exists s',
    GetMessage (p, e) = Ret (obj_ptr (length (objs e) + n), s') /\
    mrs (snd s') =
      mrs e ++ [{| mr_pd := pd_ p; mr_addr := brk e;
                   mr_length := wrap64 (wrap64 sizeof_ActorMsg *
                                        num_msg_per_bluk_allocation_ p);
                   mr_access := 7 |}] /\
    ibv_mr_buf_ (fst s') = ibv_mr_buf_ p ++ [Z.of_nat (length (mrs e)) + 1] /\
    memory_buf_ (fst s') = memory_buf_ p ++ [brk e] /\
    message_buf_ (fst s') = map obj_ptr (seq (length (objs e)) n) /\
    length (objs (snd s')) = (length (objs e) + S n)%nat /\
    num_msg_per_bluk_allocation_ (fst s') = num_msg_per_bluk_allocation_ p /\
    max_mr (snd s') = max_mr e.
Proof.
  intros Hempty Hroom HB.
  destruct (BulkAllocMessage_spec p e Hroom)
    as ([p' e'] & Ealloc & Hmrs & Hmr & Hmem & Hmsg & Hobjs & Hnum & Hmax).
  cbn [fst snd] in *. rewrite Hempty, HB, app_nil_l in Hmsg.
  destruct (last_map_seq obj_ptr (length (objs e)) n) as [Hlast Hrest].
  exists (pop_message p', e'). rewrite GetMessage_empty, Ealloc by done.
  unfold bind, GetMessageFromBuf, pop_message; cbn [fst snd message_buf_
    ibv_mr_buf_ memory_buf_ num_msg_per_bluk_allocation_].
  rewrite Hmsg, Hlast, Hrest, Hobjs, HB.
  repeat split; assumption.
Qed.

(** Without a batch there is nothing for [GetMessage] to return. *)
Lemma GetMessage_empty_batch p e :
  message_buf_ p = [] -> Z.to_nat (num_msg_per_bluk_allocation_ p) = O ->
  forall m s', GetMessage (p, e) <> Ret (m, s').
Proof.
  intros Hempty HB m s'. rewrite GetMessage_empty by done.
  destruct (decide (length (mrs e) < max_mr e)%nat) as [Hroom | Hfull].
  - destruct (BulkAllocMessage_spec p e Hroom)
      as ([p' e'] & Ealloc & _ & _ & _ & Hmsg & _).
    rewrite Ealloc. cbn [fst snd] in *. rewrite Hempty, HB in Hmsg. simpl in Hmsg.
    unfold GetMessageFromBuf; simpl. by rewrite Hmsg.
  - by rewrite BulkAllocMessage_full.
Qed.

(** C1 (as amended).  With a batch size [B] of at least one: a
    [GetMessage] that finds the free list non-empty pops its last buffer
    and registers and creates nothing; one that finds it empty registers
    exactly one region, of [sizeof(ActorMsg) * B] bytes, creates [B]
    buffers, returns the last of them and leaves the other [B - 1] free
    (or ends the process when the adapter refuses the region).  From a
    new pool with [B = 4], five calls register a region in the first
    and the fifth call and in no other. *)
Theorem bulk_allocation_iff_free_list_empty (p : IBVerbsMessagePool) (e : Env) :
  let B := num_msg_per_bluk_allocation_ p in
  1 <= B < 2 ^ 32 ->
  0 <= sizeof_ActorMsg < 2 ^ 32 ->
  (message_buf_ p <> [] ->
   exists m,
     last (message_buf_ p) = Some m /\
     GetMessage (p, e) = Ret (m, (pop_message p, e))) /\
  (message_buf_ p = [] -> (length (mrs e) < max_mr e)%nat ->
   exists m s',
     GetMessage (p, e) = Ret (m, s') /\
     mrs (snd s') =
       mrs e ++ [{| mr_pd := pd_ p; mr_addr := brk e;
                    mr_length := sizeof_ActorMsg * B; mr_access := 7 |}] /\
     length (ibv_mr_buf_ (fst s')) = S (length (ibv_mr_buf_ p)) /\
     length (memory_buf_ (fst s')) = S (length (memory_buf_ p)) /\
     Z.of_nat (length (objs (snd s'))) = Z.of_nat (length (objs e)) + B /\
     m = obj_ptr (length (objs e)) + (B - 1) /\
     message_buf_ (fst s') = map obj_ptr (seq (length (objs e)) (Z.to_nat (B - 1))) /\
     Z.of_nat (length (message_buf_ (fst s'))) = B - 1) /\
  (message_buf_ p = [] -> ~ (length (mrs e) < max_mr e)%nat ->
   GetMessage (p, e) = CheckFailed) /\
  (forall pd e0, (length (mrs e0) + 2 <= max_mr e0)%nat ->
   exists ms s',
     get_n sizeof_ActorMsg 5 (IBVerbsMessagePool_new pd 4, e0) = Ret (ms, s') /\
     map snd ms = [1; 1; 1; 1; 2]%nat).
Proof.
  intros B HB Hsz. repeat split.
  - intros Hne. destruct (message_buf_ p) as [|x l] eqn:E using rev_ind; [done|].
    exists x. rewrite last_snoc. split; [done|].
    rewrite GetMessage_nonempty by (rewrite E; by destruct l).
    by apply (GetMessageFromBuf_snoc _ _ l).
  - intros Hempty Hroom.
    destruct (Z.to_nat B) as [|n] eqn:En; [lia|].
    destruct (GetMessage_allocates p e n Hempty Hroom En)
      as (s' & EG & Hmrs & Hmr & Hmem & Hmsg & Hobjs & _).
    exists (obj_ptr (length (objs e) + n)), s'.
    split; [exact EG|].
    rewrite Hmrs, Hmr, Hmem, Hmsg, Hobjs, !length_app, length_map, length_seq.
    rewrite !wrap64_small; fold B.
    + replace (Z.to_nat (B - 1)) with n by lia. unfold obj_ptr. simpl.
      repeat split; try reflexivity; lia.
    + lia.
    + rewrite wrap64_small by lia. nia.
  - intros Hempty Hfull. rewrite GetMessage_empty by done.
    by rewrite BulkAllocMessage_full.
  - intros pd e0 Hroom.
    destruct (GetMessage_allocates (IBVerbsMessagePool_new pd 4) e0 3)
      as ([p1 e1] & G1 & Hmrs1 & Hmr1 & _ & Hmsg1 & _ & HB1 & Hmax1);
      [done | lia | done |].
    cbn [fst snd] in *. simpl in Hmsg1, Hmr1, HB1.
    set (a := length (objs e0)) in *.
    pose proof (GetMessage_pops p1 e1 [obj_ptr a; obj_ptr (S a)]
                  (obj_ptr (S (S a))) Hmsg1) as G2.
    pose proof (GetMessage_pops (pop_message p1) e1 [obj_ptr a] (obj_ptr (S a))
                  (f_equal (fun l => removelast l) Hmsg1)) as G3.
    pose proof (GetMessage_pops (pop_message (pop_message p1)) e1 [] (obj_ptr a)
                  (f_equal (fun l => removelast (removelast l)) Hmsg1)) as G4.
    destruct (GetMessage_allocates
                (pop_message (pop_message (pop_message p1))) e1 3)
      as ([p5 e5] & G5 & _ & Hmr5 & _); simpl.
    { by rewrite Hmsg1. }
    { rewrite Hmrs1, length_app, Hmax1. simpl. lia. }
    { by rewrite HB1. }
    cbn [fst snd] in *. simpl in Hmr5. rewrite Hmr1 in Hmr5.
    unfold get_n. rewrite G1. simpl. rewrite G2. simpl. rewrite G3. simpl.
    rewrite G4. simpl. rewrite G5. simpl.
    eexists _, _. split; [reflexivity|]. simpl. by rewrite Hmr1, Hmr5.
Qed.

(** *** Leases *)

#[local] Instance obj_ptr_inj : Inj eq eq obj_ptr.
Proof. intros x y. unfold obj_ptr. lia. Qed.

Lemma NoDup_fresh_ptrs a n : NoDup (map obj_ptr (seq a n)).
Proof. apply (NoDup_fmap_2 obj_ptr), NoDup_seq. Qed.

Lemma elem_of_fresh_ptrs x a n :
  x ∈ map obj_ptr (seq a n) -> Z.of_nat a + 1 <= x <= Z.of_nat (a + n).
Proof.
  intros (k & -> & Hk)%(list_elem_of_fmap_1 obj_ptr).
  apply elem_of_seq in Hk. unfold obj_ptr. lia.
Qed.

Lemma step_preserves_inv c ev c' : pool_inv c -> step c ev c' -> pool_inv c'.
Proof.
  intros [Hnd Hknown] Hstep. destruct Hstep as [[p e] leased m s' EG | s leased m Hin];
    unfold pool_inv in *; cbn [fst snd] in *.
  - destruct (message_buf_ p) as [|x l _] eqn:E using rev_ind.
    + destruct (Z.to_nat (num_msg_per_bluk_allocation_ p)) as [|n] eqn:En.
      { by destruct (GetMessage_empty_batch p e E En m s'). }
      destruct (decide (length (mrs e) < max_mr e)%nat) as [Hroom | Hfull].
      2: { rewrite GetMessage_empty, BulkAllocMessage_full in EG by done.
           discriminate EG. }
      destruct (GetMessage_allocates p e n E Hroom En)
        as (s1 & EG1 & _ & _ & _ & Hmsg & Hobjs & _).
      rewrite EG in EG1. injection EG1 as -> <-.
      rewrite Hmsg. unfold known in *. rewrite Hobjs. simpl in Hknown.
      split.
      * apply NoDup_app. split; [apply NoDup_fresh_ptrs|]. split.
        -- intros x Hx%elem_of_fresh_ptrs [->|Hl%Hknown]%elem_of_cons;
             unfold obj_ptr in *; lia.
        -- apply NoDup_cons. split; [|exact Hnd].
           intros Hl%Hknown. unfold obj_ptr in Hl. lia.
      * intros x [Hx%elem_of_fresh_ptrs | [->|Hl%Hknown]%elem_of_cons]%elem_of_app;
          unfold obj_ptr; lia.
    + rewrite (GetMessage_pops p e l x E) in EG. injection EG as <- <-.
      simpl. rewrite E, removelast_last.
      rewrite <- app_assoc in Hnd, Hknown. simpl in Hnd, Hknown. by split.
  - destruct s as [p e]. simpl in *. unfold release.
    apply NoDup_app in Hnd as (Hnd1 & Hdisj & Hnd2).
    split.
    + apply NoDup_app. split.
      * apply NoDup_app. split; [exact Hnd1|]. split; [|apply NoDup_singleton].
        intros x Hx ->%list_elem_of_singleton. by apply (Hdisj m).
      * split; [|by apply NoDup_filter].
        intros x [Hx | ->%list_elem_of_singleton]%elem_of_app
               [Hl Hne]%list_elem_of_filter; [by apply (Hdisj x) | done].
    + intros x [[Hx | ->%list_elem_of_singleton]%elem_of_app
               | [Hl Hne]%list_elem_of_filter]%elem_of_app;
        apply Hknown; set_solver.
Qed.

Lemma exec_preserves_inv c evs c' : exec c evs c' -> pool_inv c -> pool_inv c'.
Proof.
  induction 1 as [|c ev c1 evs c2 Hstep _ IH]; [done|].
  intros Hinv. by apply IH, (step_preserves_inv c ev).
Qed.

Lemma exec_app c evs1 evs2 c' :
  exec c (evs1 ++ evs2) c' -> exists c1, exec c evs1 c1 /\ exec c1 evs2 c'.
Proof.
  revert c. induction evs1 as [|ev evs1 IH]; intros c H; simpl in H.
  - exists c. split; [constructor | exact H].
  - inversion H as [|? ? c1 ? ? Hstep Hrest]; subst.
    destruct (IH _ Hrest) as (c2 & H1 & H2).
    exists c2. split; [by apply (exec_cons _ _ _ c1) | exact H2].
Qed.

Lemma stays_leased c evs c' m :
  exec c evs c' -> m ∈ snd c -> EvPut m ∉ evs -> m ∈ snd c'.
Proof.
  induction 1 as [|c ev c1 evs c2 Hstep _ IH]; [done|].
  intros Hin Hput. apply IH.
  - destruct Hstep as [s leased m' s' _ | s leased m' _]; simpl in *.
    + set_solver.
    + unfold release. apply list_elem_of_filter. split; [|done].
      intros ->. apply Hput. set_solver.
  - set_solver.
Qed.

Lemma new_pool_inv pd B e : pool_inv ((IBVerbsMessagePool_new pd B, e), []).
Proof. split; simpl; [constructor | set_solver]. Qed.

(** C6 (as amended).  In every run of [GetMessage] and [PutMessage] calls
    on a new pool in which a buffer is handed to [PutMessage] only while
    it is on lease: the buffers on lease at any time are pairwise distinct, none of
    them is in the free list, the next [GetMessage] returns none of them,
    and between two [GetMessage] calls that return the same buffer there
    is a [PutMessage] of that buffer. *)
Theorem leased_buffers_distinct (pd B : Z) (e : Env) (evs : list event) (c : Config) :
  exec ((IBVerbsMessagePool_new pd B, e), []) evs c ->
  NoDup (snd c) /\
  (forall m, m ∈ snd c -> m ∉ message_buf_ (fst (fst c))) /\
  (forall m m' s', m ∈ snd c -> GetMessage (fst c) = Ret (m', s') -> m' <> m) /\
  (forall evs1 evs2 evs3 m,
     evs = evs1 ++ EvGet m :: evs2 ++ EvGet m :: evs3 -> EvPut m ∈ evs2).
Proof.
  intros Hexec.
  pose proof (exec_preserves_inv _ _ _ Hexec (new_pool_inv pd B e)) as Hinv.
  destruct c as [s leased]. repeat split.
  - destruct Hinv as [Hnd _]. by apply NoDup_app in Hnd as (_ & _ & Hnd).
  - destruct Hinv as [Hnd _]. apply NoDup_app in Hnd as (_ & Hdisj & _).
    intros m Hl Hb. by apply (Hdisj m).
  - intros m m' s' Hl EG ->.
    destruct (step_preserves_inv _ _ _ Hinv (step_get _ s leased m s' EG)) as [Hnd _].
    apply NoDup_app in Hnd as (_ & _ & Hnd). simpl in Hnd.
    apply NoDup_cons in Hnd as [Hnotin _]. by apply Hnotin.
  - intros evs1 evs2 evs3 m ->.
    destruct (decide (EvPut m ∈ evs2)) as [Hput | Hput]; [exact Hput | exfalso].
    apply exec_app in Hexec as (c1 & H1 & H2).
    inversion H2 as [|? ? c2 ? ? Hget1 H3]; subst.
    apply exec_app in H3 as (c3 & H3 & H4).
    inversion H4 as [|? ? c4 ? ? Hget2 _]; subst.
    assert (pool_inv c3) as Hinv3.
    { apply (exec_preserves_inv _ _ _ H3), (step_preserves_inv _ _ _
        (exec_preserves_inv _ _ _ H1 (new_pool_inv pd B e)) Hget1). }
    assert (m ∈ snd c3) as Hl.
    { apply (stays_leased _ _ _ _ H3); [|exact Hput].
      inversion Hget1; subst; simpl. set_solver. }
    destruct (step_preserves_inv _ _ _ Hinv3 Hget2) as [Hnd _].
    inversion Hget2; subst; simpl in *.
    apply NoDup_app in Hnd as (_ & _ & Hnd).
    apply NoDup_cons in Hnd as [Hnotin _]. by apply Hnotin.
Qed.

End PoolFacts.

Lemma bulk_allocation_iff_free_list_empty_witness :
  exists m s',
    GetMessage 64 (IBVerbsMessagePool_new 7 4, small_env) = Ret (m, s') /\
    m = 4 /\ message_buf_ (fst s') = [1; 2; 3].
Proof.
  destruct (bulk_allocation_iff_free_list_empty 64 (IBVerbsMessagePool_new 7 4) small_env)
    as (_ & H & _).
  - change (1 <= 4 < 2 ^ 32). lia.
  - lia.
  - destruct (H eq_refl) as (m & s' & EG & _ & _ & _ & _ & Hm & Hbuf & _).
    + simpl. lia.
    + exists m, s'. split; [exact EG|]. split; [exact Hm | exact Hbuf].
Defined.

Lemma sample_run_exec :
  exists s, exec 64 ((IBVerbsMessagePool_new 7 4, small_env), []) sample_run
                 (s, [4; 3]).
Proof.
  eexists. unfold sample_run.
  eapply exec_cons; [apply step_get; vm_compute; reflexivity|].
  eapply exec_cons; [apply step_get; vm_compute; reflexivity|].
  eapply exec_cons; [apply (step_put 64 _ [3; 4] 4); apply list_elem_of_further,
                     list_elem_of_here|].
  eapply exec_cons; [apply step_get; vm_compute; reflexivity|].
  apply exec_nil.
Defined.

Lemma leased_buffers_distinct_witness :
  NoDup [4; 3] /\ EvPut 4 ∈ [EvGet 3; EvPut 4].
Proof.
  destruct sample_run_exec as [s Hexec].
  destruct (leased_buffers_distinct 64 7 4 small_env sample_run (s, [4; 3]) Hexec)
    as (Hnd & _ & _ & Hbetween).
  split; [exact Hnd|].
  exact (Hbetween [] [EvGet 3; EvPut 4] [] 4 eq_refl).
Defined.

(** C1 as stated fails for a batch size of zero: the bulk allocation adds
    no buffer, so the [GetMessage] that asked for it has none to consume
    and calls [back()] on an empty free list. *)
Lemma empty_batch_yields_no_buffer :
  message_buf_ (IBVerbsMessagePool_new 7 0) = [] /\
  (exists s, BulkAllocMessage 64 (IBVerbsMessagePool_new 7 0, small_env) = Ret s /\
             message_buf_ (fst s) = [] /\ length (mrs (snd s)) = 1%nat) /\
  GetMessage 64 (IBVerbsMessagePool_new 7 0, small_env) = Undefined /\
  ~ (exists m s', GetMessage 64 (IBVerbsMessagePool_new 7 0, small_env) = Ret (m, s')).
Proof.
  split; [reflexivity|]. split; [eexists; repeat split|].
  split; [reflexivity|]. intros (m & s' & H). discriminate H.
Qed.

(** C6 as stated fails: a buffer that was leased and handed back can be
    handed back once more, which the pool accepts; the next two
    [GetMessage] calls then both return it, with no [PutMessage] between
    them. *)
Lemma double_put_leases_twice :
  exists s1 s4 s5,
    GetMessage 64 (IBVerbsMessagePool_new 7 4, small_env) = Ret (4, s1) /\
    GetMessage 64 (PutMessage 4 (PutMessage 4 s1)) = Ret (4, s4) /\
    GetMessage 64 s4 = Ret (4, s5) /\
    ~ NoDup [4; 4].
Proof.
  eexists _, _, _.
  split; [vm_compute; reflexivity|].
  split; [vm_compute; reflexivity|].
  split; [vm_compute; reflexivity|].
  intros [Hin _]%NoDup_cons. apply Hin, list_elem_of_here.
Qed.

End ibverbs_facts.

(** ** Shared memory: the retry loop, on any platform *)

Module ipc_facts.
Import ipc.

Section AnyPlatform.
Context {W : Type} `{!Platform W}.

Lemma ShmOpen_gen_step (fuel : nat) (w : W) :
  ShmOpen_gen (S fuel) w =
  if pass_code (ShmOpen_gen_body w) =? EEXIST
  then ShmOpen_gen fuel (snd (ShmOpen_gen_body w))
  else Returns (ShmOpen_gen_body w).
Proof.
  simpl. destruct (ShmOpen_gen_body w) as [[[err name] fd] w1].
  unfold pass_code; simpl. by destruct (err =? EEXIST).
Qed.

Lemma ShmOpen_gen_name (w : W) :
  pass_name (ShmOpen_gen_body w) =
  ("/ofshm_" +:+ fst (GenAlphaNumericString kNameLength w))%string.
Proof.
  unfold ShmOpen_gen_body, pass_name.
  destruct (GenAlphaNumericString kNameLength w) as [suffix w1].
  by destruct (ShmOpen _ true w1) as [[err fd] w2].
Qed.

(** While the passes report EEXIST the loop goes on. *)
Lemma ShmOpen_gen_pending (k : nat) : forall (w : W) (fuel : nat),
  (forall i, (i < k)%nat ->
     pass_code (ShmOpen_gen_body (world_before_pass i w)) = EEXIST) ->
  (fuel <= k)%nat -> ShmOpen_gen fuel w = NoFuel.
Proof.
  induction k as [|k IH]; intros w fuel Hbusy Hfuel.
  - by replace fuel with O by lia.
  - destruct fuel as [|fuel]; [done|].
    pose proof (Hbusy O ltac:(lia)) as H0. simpl in H0.
    rewrite ShmOpen_gen_step, H0, Z.eqb_refl.
    apply IH; [|lia]. intros i Hi. apply (Hbusy (S i)). lia.
Qed.

(** The first pass that reports something else ends it. *)
Lemma ShmOpen_gen_settles (k : nat) : forall (w : W) (fuel : nat),
  (forall i, (i < k)%nat ->
     pass_code (ShmOpen_gen_body (world_before_pass i w)) = EEXIST) ->
  pass_code (ShmOpen_gen_body (world_before_pass k w)) <> EEXIST ->
  (k < fuel)%nat ->
  ShmOpen_gen fuel w = Returns (ShmOpen_gen_body (world_before_pass k w)).
Proof.
  induction k as [|k IH]; intros w fuel Hbusy Hfree Hfuel;
    (destruct fuel as [|fuel]; [lia|]); rewrite ShmOpen_gen_step.
  - simpl in Hfree. apply Z.eqb_neq in Hfree. by rewrite Hfree.
  - pose proof (Hbusy O ltac:(lia)) as H0. simpl in H0.
    rewrite H0, Z.eqb_refl.
    apply IH; [|exact Hfree|lia]. intros i Hi. apply (Hbusy (S i)). lia.
Qed.

Lemma first_settling_pass (k : nat) : forall (w : W),
  pass_code (ShmOpen_gen_body (world_before_pass k w)) <> EEXIST ->
  exists j, (j <= k)%nat /\
    (forall i, (i < j)%nat ->
       pass_code (ShmOpen_gen_body (world_before_pass i w)) = EEXIST) /\
    pass_code (ShmOpen_gen_body (world_before_pass j w)) <> EEXIST.
Proof.
  induction k as [|k IH]; intros w Hfree.
  - exists O. repeat split; [lia | | exact Hfree]. intros i Hi. lia.
  - destruct (decide (pass_code (ShmOpen_gen_body w) = EEXIST)) as [Hbusy | Hnow].
    + destruct (IH _ Hfree) as (j & Hj & Hbefore & Hat).
      exists (S j). repeat split; [lia | | exact Hat].
      intros [|i] Hi; [exact Hbusy | apply Hbefore; lia].
    + exists O. repeat split; [lia | | exact Hnow]. intros i Hi. lia.
Qed.

(** C5.  Every pass of the loop draws a fresh name ["/ofshm_"] followed by
    [GenAlphaNumericString(8)] and tries to create it; the loop goes round
    again exactly when that pass reports EEXIST and otherwise returns what
    the pass produced, success or error, at once.  If some pass would
    report something other than EEXIST, the loop ends at the first such
    pass. *)
Theorem ShmOpen_gen_retries_only_on_EEXIST (w : W) (k : nat) :
  pass_code (ShmOpen_gen_body (world_before_pass k w)) <> EEXIST ->
  (forall fuel w0,
     ShmOpen_gen (S fuel) w0 =
     if pass_code (ShmOpen_gen_body w0) =? EEXIST
     then ShmOpen_gen fuel (snd (ShmOpen_gen_body w0))
     else Returns (ShmOpen_gen_body w0)) /\
  (forall w0,
     pass_name (ShmOpen_gen_body w0) =
     ("/ofshm_" +:+ fst (GenAlphaNumericString 8 w0))%string /\
     ((forall n w1, String.length (fst (GenAlphaNumericString n w1)) = Z.to_nat n) ->
      String.length (pass_name (ShmOpen_gen_body w0)) = 15%nat)) /\
  exists j, (j <= k)%nat /\
    (forall i, (i < j)%nat ->
       pass_code (ShmOpen_gen_body (world_before_pass i w)) = EEXIST) /\
    pass_code (ShmOpen_gen_body (world_before_pass j w)) <> EEXIST /\
    (forall fuel, (fuel <= j)%nat -> ShmOpen_gen fuel w = NoFuel) /\
    (forall fuel, (j < fuel)%nat ->
       ShmOpen_gen fuel w = Returns (ShmOpen_gen_body (world_before_pass j w))).
Proof.
  intros Hfree. split; [apply ShmOpen_gen_step|]. split.
  - intros w0. split; [apply ShmOpen_gen_name|].
    intros Hlen. rewrite ShmOpen_gen_name. unfold kNameLength.
    specialize (Hlen 8 w0).
    destruct (GenAlphaNumericString 8 w0) as [suffix w1]; simpl in *.
    change (String.length ("" +:+ suffix)) with (String.length suffix).
    by rewrite Hlen.
  - destruct (first_settling_pass k w Hfree) as (j & Hj & Hbefore & Hat).
    exists j. repeat split; try assumption.
    + intros fuel Hfuel. by apply (ShmOpen_gen_pending j).
    + intros fuel Hfuel. by apply ShmOpen_gen_settles.
Qed.

(** A result of the loop is the result of one call of
    [ShmOpen(name, true, fd)]. *)
Lemma ShmOpen_gen_returns (fuel : nat) : forall (w : W) err name fd w',
  ShmOpen_gen fuel w = Returns (err, name, fd, w') ->
  exists w0, ShmOpen name true w0 = (err, fd, w').
Proof.
  induction fuel as [|fuel IH]; intros w err name fd w' H; [discriminate H|].
  simpl in H. unfold ShmOpen_gen_body in H.
  destruct (GenAlphaNumericString kNameLength w) as [suffix w1].
  destruct (ShmOpen _ true w1) as [[err1 fd1] w2] eqn:E.
  destruct (err1 =? EEXIST); simpl in H.
  - by apply (IH w2).
  - injection H as -> <- -> ->. by exists w1.
Qed.

Lemma Open_success (fuel : nat) (o : option string) (shm_size : Z) (w : W) self w' :
  Open fuel o shm_size w = Returns (Ok self, w') ->
  exists w0 shm_name fd w1,
    ShmOpen shm_name true w0 = (0, fd, w1) /\
    Open_created shm_name fd shm_size w1 = Returns (Ok self, w').
Proof.
  unfold Open. intros H.
  assert (exists w0 err shm_name fd w1,
            ShmOpen shm_name true w0 = (err, fd, w1) /\
            PCHECK_OR_RETURN err id Returns
              (Open_created shm_name fd shm_size) w1 = Returns (Ok self, w'))
    as (w0 & err & shm_name & fd & w1 & E & H').
  { destruct o as [shm_name|].
    - destruct (ShmOpen shm_name true w) as [[err fd] w1] eqn:E.
      exists w, err, shm_name, fd, w1. split; [exact E|]. revert H.
      unfold PCHECK_OR_RETURN, Open_created.
      destruct (err =? 0); [|done].
      destruct (posix_fallocate fd 0 (to_off_t shm_size) w1) as [err2 w2].
      destruct (err2 =? 0); [|done].
      destruct (ShmMap fd shm_size w2) as [[err3 ptr] w3].
      by destruct (err3 =? 0).
    - destruct (ShmOpen_gen fuel w) as [[[[err shm_name] fd] w1]| |] eqn:E;
        [|discriminate H|discriminate H].
      destruct (ShmOpen_gen_returns _ _ _ _ _ _ E) as [w0 E0].
      exists w0, err, shm_name, fd, w1. split; [exact E0|]. revert H.
      unfold PCHECK_OR_RETURN, Open_created.
      destruct (err =? 0); [|done].
      destruct (posix_fallocate fd 0 (to_off_t shm_size) w1) as [err2 w2].
      destruct (err2 =? 0); [|done].
      destruct (ShmMap fd shm_size w2) as [[err3 ptr] w3].
      by destruct (err3 =? 0). }
  unfold PCHECK_OR_RETURN in H'. destruct (err =? 0) eqn:Eerr; [|discriminate H'].
  apply Z.eqb_eq in Eerr as ->. by exists w0, shm_name, fd, w1.
Qed.

End AnyPlatform.
End ipc_facts.

(** ** Shared memory on Linux *)

Module linux_facts.
Import ipc linux ipc_facts.

Lemma lowest_free_ge fds n : forall fd, fd <= lowest_free fds fd n.
Proof.
  induction n as [|n IH]; intros fd; simpl; [lia|].
  destruct (fds !! fd); [|lia]. specialize (IH (fd + 1)). lia.
Qed.

Lemma round_up_ge n : n <= round_up n.
Proof.
  unfold round_up, PAGE_SIZE.
  pose proof (Z.div_mod (n + 4096 - 1) 4096 ltac:(lia)).
  pose proof (Z.mod_pos_bound (n + 4096 - 1) 4096 ltac:(lia)). lia.
Qed.

Lemma round_up_aligned n : round_up n `mod` PAGE_SIZE = 0.
Proof. unfold round_up, PAGE_SIZE. apply Z.mod_mul. lia. Qed.

Lemma unmapped_area_above vs v : v ∈ vs -> vm_end v <= unmapped_area vs.
Proof.
  unfold unmapped_area. intros Hin.
  etransitivity; [|apply round_up_ge].
  induction vs as [|u vs IH]; [by apply elem_of_nil in Hin|].
  apply elem_of_cons in Hin as [-> | Hin]; simpl; [lia|].
  specialize (IH Hin). lia.
Qed.

Lemma unmapped_area_not_failed vs : unmapped_area vs <> MAP_FAILED.
Proof.
  unfold unmapped_area. intros E.
  pose proof (round_up_aligned (foldr (fun v top => vm_end v `max` top) mmap_min_addr vs)) as H.
  rewrite E in H. discriminate H.
Qed.

Lemma find_app_last {A} (f : A -> bool) (l : list A) (x : A) :
  (forall y, y ∈ l -> f y = false) -> f x = true ->
  List.find f (l ++ [x]) = Some x.
Proof.
  intros Hl Hx. induction l as [|y l IH]; simpl; [by rewrite Hx|].
  rewrite (Hl y) by set_solver. apply IH. intros; apply Hl; set_solver.
Qed.

(** The newest mapping, placed above all others, is the one its own
    addresses fall in. *)
Lemma vma_of_newest vs v a :
  vm_start v = unmapped_area vs ->
  vm_start v <= a < vm_end v ->
  List.find (covers a) (vs ++ [v]) = Some v.
Proof.
  intros Hstart Ha. apply find_app_last.
  - intros u Hu%unmapped_area_above. unfold covers.
    apply andb_false_iff. right. apply Z.ltb_ge. lia.
  - unfold covers. apply andb_true_iff. split; [apply Z.leb_le | apply Z.ltb_lt]; lia.
Qed.

Lemma create_flags :
  Z.lor (Z.lor O_CREAT O_EXCL) O_RDWR = 194 /\
  has_flag 194 O_CREAT = true /\ has_flag 194 O_EXCL = true /\
  Z.lor (Z.lor 0 O_EXCL) O_RDWR = 130 /\ has_flag 130 O_CREAT = false /\
  Z.lor PROT_READ PROT_WRITE = 3 /\
  has_flag 3 PROT_READ = true /\ has_flag 3 PROT_WRITE = true.
Proof. by vm_compute. Qed.

(** A successful [ShmOpen(name, true, fd)] made a new, empty object
    under a name that was free. *)
Lemma ShmOpen_create_success name os fd os1 :
  ShmOpen name true os = (0, fd, os1) ->
  os_names os !! name = None /\
  os_fds os1 !! fd = Some (length (os_objects os)) /\
  os_objects os1 = os_objects os ++ [{| o_size := 0; o_byte := fun _ => 0 |}] /\
  os_vmas os1 = os_vmas os.
Proof.
  destruct create_flags as (F1 & F2 & F3 & _).
  unfold ShmOpen. cbn [shm_open errno platform]. rewrite F1.
  unfold sys_shm_open. cbn [enter os_names os_objects].
  destruct (os_names os !! name) as [id|].
  - rewrite F2, F3. simpl. intros H. discriminate H.
  - rewrite F2. unfold new_fd. cbn [set_names set_objects os_fds os_names os_objects].
    set (fd0 := lowest_free _ _ _).
    assert ((fd0 =? -1) = false) as ->.
    { apply Z.eqb_neq. subst fd0.
      match goal with
      | |- lowest_free ?f ?z ?n <> _ => pose proof (lowest_free_ge f n z)
      end. lia. }
    intros H. injection H as <- <-. simpl.
    split; [done|]. split; [apply lookup_insert_eq | done].
Qed.

Ltac os_simpl :=
  cbn [enter fail set_errno set_names set_objects set_fds set_vmas set_seed
       os_errno os_names os_objects os_fds os_vmas os_trace os_seed fst snd].

(** [Open] after the segment was created: what a successful return
    leaves behind. *)
Lemma Open_created_success name fd size os1 id self os' :
  os_fds os1 !! fd = Some id ->
  (id < length (os_objects os1))%nat ->
  Open_created name fd size os1 = Returns (Ok self, os') ->
  let ptr := unmapped_area (os_vmas os1) in
  self = {| buf_ := ptr; name_ := name; size_ := size |} /\
  0 < size /\
  os_vmas os' =
    os_vmas os1 ++ [{| vm_start := ptr; vm_end := ptr + round_up size;
                       vm_obj := id; vm_off := 0; vm_prot := 3 |}] /\
  (forall i, 0 <= i < size -> read_byte os' (ptr + i) = Some 0).
Proof.
  intros Hfd Hid. destruct create_flags as (_ & _ & _ & _ & _ & P1 & P2 & P3).
  unfold Open_created, ShmMap, close_fd.
  cbn [posix_fallocate mmap close memset errno platform].
  unfold sys_posix_fallocate. os_simpl. rewrite Hfd.
  destruct ((0 <? 0) || (to_off_t size <=? 0)); [intros H; discriminate H|].
  cbn [Z.eqb]. unfold sys_mmap. os_simpl. rewrite Hfd, P1.
  destruct (size <=? 0) eqn:Hsize.
  { simpl. intros H. discriminate H. }
  apply Z.leb_gt in Hsize.
  change (negb (0 `mod` PAGE_SIZE =? 0)) with false.
  change (false || (0 <? 0) || false) with false.
  cbv beta iota.
  set (ptr := unmapped_area (os_vmas os1)).
  assert ((ptr =? MAP_FAILED) = false) as ->
    by (apply Z.eqb_neq, unmapped_area_not_failed).
  cbn [Z.eqb]. unfold sys_close. os_simpl. rewrite Hfd.
  os_simpl. unfold libc_memset.
  replace (size <=? 0) with false by (symmetry; apply Z.leb_gt; lia).
  unfold vma_of. os_simpl.
  set (v := {| vm_start := ptr; vm_end := ptr + round_up size;
               vm_obj := id; vm_off := 0; vm_prot := 3 |}).
  pose proof (round_up_ge size) as Hround.
  rewrite (vma_of_newest (os_vmas os1) v ptr) by (simpl; lia).
  cbn [vm_prot vm_end vm_start vm_obj vm_off v]. rewrite P3.
  replace (ptr + size <=? ptr + round_up size) with true
    by (symmetry; apply Z.leb_le; lia).
  cbn [andb]. intros H. injection H as <- <-.
  split; [reflexivity|]. split; [lia|]. split; [reflexivity|].
  intros i Hi. unfold read_byte, vma_of. os_simpl.
  rewrite (vma_of_newest (os_vmas os1) v (ptr + i)) by (simpl; lia).
  cbn [vm_prot vm_end vm_start vm_obj vm_off v]. rewrite P2.
  destruct (lookup_lt_is_Some_2 (os_objects os1) id Hid) as [o Ho].
  rewrite !list_lookup_alter_eq, Ho. cbn [fmap option_fmap option_map o_byte].
  replace (0 + (ptr - ptr) <=? 0 + (ptr + i - ptr)) with true
    by (symmetry; apply Z.leb_le; lia).
  replace (0 + (ptr + i - ptr) <? 0 + (ptr - ptr) + size) with true
    by (symmetry; apply Z.ltb_lt; lia).
  reflexivity.
Qed.

(** C4.  When the create form of [Open] succeeds, named or anonymous, the
    object it returns records the size asked for, every byte of its
    buffer reads zero, and the buffer is one mapping with read and write
    protection. *)
Theorem created_segment_is_zeroed
    (fuel : nat) (opt_shm_name : option string) (shm_size : Z) (os : OS)
    (self : SharedMemory) (os' : OS) :
  Open fuel opt_shm_name shm_size os = Returns (Ok self, os') ->
  size_ self = shm_size /\
  (forall i, 0 <= i < shm_size -> read_byte os' (buf_ self + i) = Some 0) /\
  (exists v, vma_of os' (buf_ self) = Some v /\
             vm_start v = buf_ self /\ buf_ self + shm_size <= vm_end v /\
             vm_prot v = Z.lor PROT_READ PROT_WRITE).
Proof.
  intros H. apply Open_success in H as (w0 & name & fd & w1 & Hopen & Hrest).
  apply ShmOpen_create_success in Hopen as (_ & Hfd & Hobjs & _).
  apply (Open_created_success _ _ _ _ _ _ _ Hfd) in Hrest
    as (-> & Hpos & Hvmas & Hzero).
  2: { rewrite Hobjs, length_app. simpl. lia. }
  cbn [buf_ size_]. split; [reflexivity|]. split; [exact Hzero|].
  pose proof (round_up_ge shm_size).
  eexists. unfold vma_of. rewrite Hvmas.
  split; [apply vma_of_newest; simpl; lia|]. simpl. repeat split. lia.
Qed.

Lemma created_segment_is_zeroed_witness :
  exists self os',
    Open 1 (Some "/a"%string) 100 (boot 1) = Returns (Ok self, os') /\
    size_ self = 100 /\ read_byte os' (buf_ self + 99) = Some 0.
Proof.
  eexists _, _. split; [vm_compute; reflexivity|].
  match goal with
  | |- size_ ?self = _ /\ read_byte ?os' _ = _ =>
      destruct (created_segment_is_zeroed 1 (Some "/a"%string) 100 (boot 1) self os')
        as (Hsize & Hzero & _)
  end.
  - vm_compute; reflexivity.
  - split; [exact Hsize | apply Hzero; lia].
Defined.

(** C7.  For every shared-memory name (a slash and then a file name,
    [shm_name_ok]) and whatever the state: after [UnlinkByName(name)]
    (and so after [Unlink()] on an object of that name) the name is not
    in the name space and the attach form [Open(name)] fails with
    ENOENT, while the mappings, the objects behind them and what every
    address reads are what they were before the unlink. *)
Theorem open_after_unlink_not_found (name : string) (os : OS) :
  shm_name_ok name = true ->
  let os1 := snd (UnlinkByName name os) in
  fst (Open_name name os1) = Error ENOENT /\
  os_names os1 !! name = None /\
  os_vmas os1 = os_vmas os /\
  os_objects os1 = os_objects os /\
  (forall a, read_byte os1 a = read_byte os a) /\
  (forall self, name_ self = name -> Unlink self os = UnlinkByName name os).
Proof.
  intros _.
  destruct create_flags as (_ & _ & _ & F4 & F5 & _).
  assert (forall os1 : OS, os_names os1 !! name = None ->
            fst (Open_name name os1) = Error ENOENT) as Hattach.
  { intros os1 Hgone. unfold Open_name, ShmOpen.
    cbn [shm_open errno platform]. rewrite F4. unfold sys_shm_open. os_simpl.
    rewrite Hgone, F5. reflexivity. }
  intros os1. subst os1.
  split; [|split; [|split; [|split; [|split]]]]; try (by intros self <-);
    revert Hattach;
    unfold UnlinkByName; cbn [shm_unlink platform]; unfold sys_shm_unlink;
    os_simpl; destruct (os_names os !! name) as [oid|] eqn:E;
    unfold PCHECK_OR_RETURN; cbn [Z.eqb id]; os_simpl; intros Hattach;
    try reflexivity; try (apply Hattach; os_simpl);
    try apply lookup_delete_eq; try exact E.
Qed.

Lemma find_flat_map_none {A} (f : A -> bool) (g : A -> list A) (l : list A) :
  (forall x y, x ∈ l -> y ∈ g x -> f y = false) ->
  List.find f (flat_map g l) = None.
Proof.
  intros H. destruct (List.find f (flat_map g l)) as [y|] eqn:E; [|done].
  apply find_some in E as [(x & Hx & Hy)%in_flat_map Hf].
  rewrite (H x y) in Hf by (by apply list_elem_of_In). discriminate Hf.
Qed.

Lemma vma_cut_clears a b v u x : u ∈ vma_cut a b v -> a <= x < b -> covers x u = false.
Proof.
  unfold vma_cut, covers. intros Hu Hx.
  apply elem_of_app in Hu as [Hu | Hu].
  - destruct (vm_start v <? Z.min a (vm_end v)); [|by apply elem_of_nil in Hu].
    apply list_elem_of_singleton in Hu as ->. simpl.
    apply andb_false_iff. right. apply Z.ltb_ge. lia.
  - destruct (Z.max b (vm_start v) <? vm_end v); [|by apply elem_of_nil in Hu].
    apply list_elem_of_singleton in Hu as ->. simpl.
    apply andb_false_iff. left. apply Z.leb_gt. lia.
Qed.

(** [munmap] of a page-aligned address and a positive length. *)
Lemma sys_munmap_success addr len os :
  addr `mod` PAGE_SIZE = 0 -> 0 < len ->
  exists os',
    sys_munmap addr len os = (0, os') /\
    os_trace os' = os_trace os ++ [SysMunmap addr len] /\
    os_names os' = os_names os /\
    os_objects os' = os_objects os /\
    (forall a, addr <= a < addr + len -> vma_of os' a = None).
Proof.
  intros Haligned Hlen. unfold sys_munmap. rewrite Haligned.
  replace (len <=? 0) with false by (symmetry; apply Z.leb_gt; lia).
  eexists. split; [reflexivity|]. os_simpl. repeat split.
  intros a Ha. unfold vma_of. os_simpl. apply find_flat_map_none.
  intros v u _ Hu. apply (vma_cut_clears _ _ _ _ _ Hu).
  pose proof (round_up_ge len). lia.
Qed.

Lemma sys_munmap_failure addr len os :
  ~ (addr `mod` PAGE_SIZE = 0 /\ 0 < len) ->
  sys_munmap addr len os = fail EINVAL (enter (SysMunmap addr len) os).
Proof.
  intros Hbad. unfold sys_munmap.
  destruct (Z.eqb_spec (addr `mod` PAGE_SIZE) 0) as [E|E]; [|reflexivity].
  destruct (Z.leb_spec len 0); [reflexivity|]. exfalso. apply Hbad. by split.
Qed.

(** [Close()] of an object whose buffer is page-aligned and whose size is
    positive. *)
Lemma Close_success self os :
  buf_ self `mod` PAGE_SIZE = 0 -> 0 < size_ self ->
  exists os',
    Close self os =
      (Ok tt, {| buf_ := nullptr; name_ := name_ self; size_ := size_ self |}, os') /\
    os_trace os' = os_trace os ++ [SysMunmap (buf_ self) (size_ self)] /\
    os_names os' = os_names os /\
    os_objects os' = os_objects os /\
    (forall a, buf_ self <= a < buf_ self + size_ self -> vma_of os' a = None).
Proof.
  intros Haligned Hsize.
  destruct (sys_munmap_success (buf_ self) (size_ self) os Haligned Hsize)
    as (os' & E & Hrest).
  exists os'. split; [|exact Hrest].
  unfold Close. cbn [munmap platform]. by rewrite E.
Qed.

Lemma Close_failure self os :
  ~ (buf_ self `mod` PAGE_SIZE = 0 /\ 0 < size_ self) ->
  Close self os =
    (Error (-1), self, set_errno EINVAL (enter (SysMunmap (buf_ self) (size_ self)) os)).
Proof.
  intros Hbad. unfold Close. cbn [munmap platform].
  by rewrite sys_munmap_failure.
Qed.

Lemma Close_Ok_inv self os r self' os' :
  Close self os = (Ok r, self', os') ->
  buf_ self `mod` PAGE_SIZE = 0 /\ 0 < size_ self.
Proof.
  intros E.
  destruct (decide (buf_ self `mod` PAGE_SIZE = 0 /\ 0 < size_ self)) as [H|H];
    [exact H|].
  rewrite Close_failure in E by exact H. discriminate E.
Qed.

Lemma unmapped_area_positive vs : mmap_min_addr <= unmapped_area vs.
Proof.
  unfold unmapped_area. etransitivity; [|apply round_up_ge].
  induction vs as [|v vs IH]; simpl; lia.
Qed.

Lemma Open_mapped_handle fuel o shm_size os self os' :
  Open fuel o shm_size os = Returns (Ok self, os') -> mapped_handle self.
Proof.
  intros H. apply Open_success in H as (w0 & name & fd & w1 & Hopen & Hrest).
  apply ShmOpen_create_success in Hopen as (_ & Hfd & Hobjs & _).
  apply (Open_created_success _ _ _ _ _ _ _ Hfd) in Hrest as (-> & Hpos & _).
  2: { rewrite Hobjs, length_app. simpl. lia. }
  pose proof (unmapped_area_positive (os_vmas w1)) as Hmin.
  unfold mapped_handle, nullptr, mmap_min_addr in *. cbn [buf_ size_].
  split; [lia|]. split; [apply round_up_aligned | exact Hpos].
Qed.

Lemma Open_name_mapped_handle shm_name os self os' :
  Open_name shm_name os = (Ok self, os') -> mapped_handle self.
Proof.
  destruct create_flags as (_ & _ & _ & F4 & F5 & P1 & _).
  unfold Open_name, ShmOpen. cbn [shm_open fstat errno platform]. rewrite F4.
  unfold sys_shm_open. os_simpl. rewrite F5. cbn [andb].
  destruct (os_names os !! shm_name) as [oid|]; [|intros H; discriminate H].
  unfold new_fd. os_simpl. set (fd0 := lowest_free _ _ _).
  assert ((fd0 =? -1) = false) as ->.
  { apply Z.eqb_neq. subst fd0.
    match goal with
    | |- lowest_free ?f ?z ?n <> _ => pose proof (lowest_free_ge f n z)
    end. lia. }
  unfold PCHECK_OR_RETURN at 1. cbn [Z.eqb].
  unfold sys_fstat. os_simpl. rewrite lookup_insert_eq.
  unfold PCHECK_OR_RETURN at 1. cbn [Z.eqb].
  unfold ShmMap. cbn [mmap errno platform]. unfold sys_mmap. os_simpl.
  rewrite lookup_insert_eq, P1.
  change (negb (0 `mod` PAGE_SIZE =? 0)) with false.
  set (len := wrap64 _).
  destruct (len <=? 0) eqn:Hlen.
  { intros H. discriminate H. }
  apply Z.leb_gt in Hlen.
  change (false || (0 <? 0) || false) with false. cbv beta iota.
  set (ptr := unmapped_area (os_vmas os)).
  assert ((ptr =? MAP_FAILED) = false) as ->
    by (apply Z.eqb_neq, unmapped_area_not_failed).
  unfold PCHECK_OR_RETURN. cbn [Z.eqb]. intros H. injection H as <- _.
  pose proof (unmapped_area_positive (os_vmas os)) as Hmin.
  unfold mapped_handle, nullptr, mmap_min_addr in *. cbn [buf_ size_].
  split; [subst ptr; lia|]. split; [apply round_up_aligned | exact Hlen].
Qed.

(** C8.  Destroying an object whose buffer pointer is not null calls
    [Close()]: exactly one [munmap] of the buffer is issued, after which
    no address of the buffer is mapped, and the name space is what it was
    (the process ends instead if that [munmap] is refused, which does not
    happen for an object [Open] returned).  Destroying an object whose
    buffer pointer is null, as [Close()] leaves it, does nothing at all. *)
Theorem destructor_unmaps_and_keeps_name (self : SharedMemory) (os : OS) :
  (buf_ self <> nullptr ->
   match SharedMemory_destroy self os with
   | Returns os' =>
       os_trace os' = os_trace os ++ [SysMunmap (buf_ self) (size_ self)] /\
       (forall a, buf_ self <= a < buf_ self + size_ self -> vma_of os' a = None) /\
       os_names os' = os_names os
   | Aborts => ~ (buf_ self `mod` PAGE_SIZE = 0 /\ 0 < size_ self)
   | NoFuel => False
   end) /\
  (mapped_handle self -> exists os', SharedMemory_destroy self os = Returns os') /\
  (buf_ self = nullptr -> SharedMemory_destroy self os = Returns os) /\
  (forall fuel o shm_size os0 os1,
     Open fuel o shm_size os0 = Returns (Ok self, os1) -> mapped_handle self) /\
  (forall shm_name os0 os1,
     Open_name shm_name os0 = (Ok self, os1) -> mapped_handle self).
Proof.
  split; [|split; [|split; [|split]]].
  - intros Hmapped. unfold SharedMemory_destroy.
    apply Z.eqb_neq in Hmapped. rewrite Hmapped. cbn [negb].
    destruct (decide (buf_ self `mod` PAGE_SIZE = 0 /\ 0 < size_ self)) as [[Ha Hs]|Hbad].
    + destruct (Close_success self os Ha Hs) as (os' & -> & Htrace & Hnames & _ & Hgone).
      by repeat split.
    + by rewrite Close_failure.
  - intros (Hmapped & Ha & Hs). unfold SharedMemory_destroy.
    apply Z.eqb_neq in Hmapped. rewrite Hmapped. cbn [negb].
    destruct (Close_success self os Ha Hs) as (os' & -> & _). by exists os'.
  - intros Hnull. unfold SharedMemory_destroy. by rewrite Hnull.
  - intros fuel o shm_size os0 os1. apply Open_mapped_handle.
  - intros shm_name os0 os1. apply Open_name_mapped_handle.
Qed.

(** C3 (as amended).  A successful [Close()] issues one [munmap] of the
    buffer, after which none of its addresses is mapped, and sets the
    buffer pointer to null.  The null check is the destructor's: destroying
    the closed object issues no system call and changes nothing.
    [Close()] itself has no such check; called again it issues
    [munmap(nullptr, size_)]. *)
Theorem close_nulls_buffer_for_destructor
    (self : SharedMemory) (os : OS) (self' : SharedMemory) (os' : OS) :
  Close self os = (Ok tt, self', os') ->
  self' = {| buf_ := nullptr; name_ := name_ self; size_ := size_ self |} /\
  os_trace os' = os_trace os ++ [SysMunmap (buf_ self) (size_ self)] /\
  (forall a, buf_ self <= a < buf_ self + size_ self -> vma_of os' a = None) /\
  SharedMemory_destroy self' os' = Returns os' /\
  os_trace (snd (Close self' os')) =
    os_trace os' ++ [SysMunmap nullptr (size_ self)].
Proof.
  intros E. destruct (Close_Ok_inv _ _ _ _ _ E) as [Ha Hs].
  destruct (Close_success self os Ha Hs) as (os1 & E1 & Htrace & _ & _ & Hgone).
  rewrite E in E1. injection E1 as -> ->.
  split; [reflexivity|]. split; [exact Htrace|]. split; [exact Hgone|].
  split; [reflexivity|].
  destruct (Close_success {| buf_ := nullptr; name_ := name_ self; size_ := size_ self |}
              os1 eq_refl Hs) as (os2 & -> & Htrace2 & _).
  exact Htrace2.
Qed.

Lemma gen_chars_length n : forall seed, String.length (fst (gen_chars n seed)) = n.
Proof.
  induction n as [|n IH]; intros seed; simpl; [reflexivity|].
  specialize (IH ((seed * 1103515245 + 12345) `mod` 2 ^ 31)).
  destruct (gen_chars n _) as [s seed']. simpl in *. by rewrite IH.
Qed.

Lemma gen_alpha_numeric_length n os :
  String.length (fst (GenAlphaNumericString n os)) = Z.to_nat n.
Proof.
  cbn [GenAlphaNumericString platform]. unfold gen_alpha_numeric.
  pose proof (gen_chars_length (Z.to_nat n) (os_seed os)) as H.
  by destruct (gen_chars _ _) as [s seed].
Qed.

Lemma ShmOpen_gen_retries_only_on_EEXIST_witness :
  pass_code (ShmOpen_gen_body crowded) = EEXIST /\
  ShmOpen_gen 1 crowded = NoFuel /\
  ShmOpen_gen 2 crowded = Returns (ShmOpen_gen_body (world_before_pass 1 crowded)) /\
  String.length (pass_name (ShmOpen_gen_body (world_before_pass 1 crowded))) = 15%nat.
Proof.
  assert (pass_code (ShmOpen_gen_body crowded) = EEXIST) as Hbusy
    by (vm_compute; reflexivity).
  destruct (ShmOpen_gen_retries_only_on_EEXIST crowded 1)
    as (_ & Hname & j & Hj & Hbefore & Hat & Hpending & Hsettles).
  - vm_compute. intros H. discriminate H.
  - assert (j = 1%nat) as ->.
    { destruct j as [|[|j]]; [|reflexivity|lia]. by destruct Hat. }
    split; [exact Hbusy|]. split; [apply Hpending; lia|].
    split; [apply Hsettles; lia|].
    apply Hname. intros n w1. apply gen_alpha_numeric_length.
Defined.

Lemma destructor_unmaps_and_keeps_name_witness :
  exists self os1 os2,
    Open 1 (Some "/a"%string) 100 (boot 1) = Returns (Ok self, os1) /\
    SharedMemory_destroy self os1 = Returns os2.
Proof.
  destruct (Open 1 (Some "/a"%string) 100 (boot 1)) as [[[self|code] os1]| |] eqn:E;
    try (vm_compute in E; discriminate E).
  destruct (destructor_unmaps_and_keeps_name self os1) as (_ & Hdestroy & _ & Hopen & _).
  destruct (Hdestroy (Hopen _ _ _ _ _ E)) as [os2 E2].
  by exists self, os1, os2.
Defined.

Lemma close_nulls_buffer_for_destructor_witness :
  exists self os1 self' os2,
    Open 1 (Some "/a"%string) 100 (boot 1) = Returns (Ok self, os1) /\
    Close self os1 = (Ok tt, self', os2) /\
    buf_ self' = nullptr /\
    SharedMemory_destroy self' os2 = Returns os2.
Proof.
  destruct (Open 1 (Some "/a"%string) 100 (boot 1)) as [[[self|code] os1]| |] eqn:E;
    try (vm_compute in E; discriminate E).
  destruct (Open_mapped_handle _ _ _ _ _ _ E) as (_ & Ha & Hs).
  destruct (Close_success self os1 Ha Hs) as (os2 & EC & _).
  destruct (close_nulls_buffer_for_destructor self os1 _ os2 EC)
    as (_ & _ & _ & Hdestroy & _).
  eexists self, os1, _, os2. split; [reflexivity|]. split; [exact EC|].
  split; [reflexivity | exact Hdestroy].
Defined.

Lemma open_after_unlink_not_found_witness :
  exists a os1,
    Open 1 (Some "/a"%string) 100 (boot 1) = Returns (Ok a, os1) /\
    fst (UnlinkByName "/a" os1) = Ok tt /\
    fst (Open_name "/a" (snd (UnlinkByName "/a" os1))) = Error ENOENT /\
    read_byte (snd (UnlinkByName "/a" os1)) (buf_ a) = Some 0.
Proof.
  destruct (Open 1 (Some "/a"%string) 100 (boot 1)) as [[[a|code] os1]| |] eqn:E;
    try (vm_compute in E; discriminate E).
  pose proof (open_after_unlink_not_found "/a" os1 eq_refl) as H. cbv zeta in H.
  destruct H as (Hopen & _ & _ & _ & Hread & _).
  exists a, os1. split; [reflexivity|].
  split; [vm_compute in E; injection E as <- <-; reflexivity|].
  split; [exact Hopen|]. rewrite Hread.
  vm_compute in E. injection E as <- <-. reflexivity.
Defined.

(** C3 as stated fails: closing a segment twice makes the second
    [Close()] issue [munmap(nullptr, size_)], an unmap, which
    succeeds.  (A segment mapped earlier is still read after the first
    [Close()].) *)
Lemma second_close_unmaps_again :
  match Open 1 (Some "/a"%string) 4096 (boot 1) with
  | Returns (Ok a, os1) =>
      match Open 1 (Some "/b"%string) 131072 os1 with
      | Returns (Ok b, os2) =>
          match Close b os2 with
          | (Ok _, b', os3) =>
              read_byte os3 (buf_ a) = Some 0 /\
              fst (fst (Close b' os3)) = Ok tt /\
              os_trace (snd (Close b' os3)) = os_trace os3 ++ [SysMunmap 0 131072]
          | _ => False
          end
      | _ => False
      end
  | _ => False
  end.
Proof. vm_compute. repeat split. Qed.

End linux_facts.

(* ================================================================= *)
(** ** Shared memory on Linux: what [Open] leaves untouched *)

Module shm_frame.
Import ipc linux ipc_facts linux_facts linux_frame.

Lemma lowest_free_ext n : forall (f1 f2 : gmap Z nat) fd,
  (forall k, fd <= k -> f1 !! k = f2 !! k) ->
  lowest_free f1 fd n = lowest_free f2 fd n.
Proof.
  induction n as [|n IH]; intros f1 f2 fd H; simpl; [reflexivity|].
  rewrite <- (H fd) by lia. destruct (f1 !! fd); [|reflexivity].
  apply IH. intros k Hk. apply H. lia.
Qed.

(** The descriptor [shm_open] hands out is not in use. *)
Lemma lowest_free_fresh n : forall (fds : gmap Z nat) fd,
  (size fds <= n)%nat -> fds !! lowest_free fds fd n = None.
Proof.
  induction n as [|n IH]; intros fds fd Hsize; simpl.
  - assert (fds = ∅) as -> by (apply map_size_empty_iff; lia). apply lookup_empty.
  - destruct (fds !! fd) as [x|] eqn:E; [|exact E].
    rewrite (lowest_free_ext n fds (delete fd fds) (fd + 1))
      by (intros k Hk; rewrite lookup_delete_ne by lia; reflexivity).
    pose proof (lowest_free_ge (delete fd fds) n (fd + 1)) as Hge.
    rewrite <- (lookup_delete_ne fds fd) by lia.
    apply IH. rewrite map_size_delete_Some by eauto. lia.
Qed.


Lemma same_resources_refl os : same_resources os os.
Proof. by repeat split. Qed.

(** [ShmOpen(name, true, fd)] in full. *)
Lemma ShmOpen_create_cases name os :
  (exists id, os_names os !! name = Some id /\
     ShmOpen name true os =
       (EEXIST, -1, set_errno EEXIST (enter (SysShmOpen name 194 384) os))) \/
  (os_names os !! name = None /\
   exists fd os1, ShmOpen name true os = (0, fd, os1) /\
     os_fds os !! fd = None /\
     os_fds os1 = <[fd := length (os_objects os)]> (os_fds os) /\
     os_names os1 = <[name := length (os_objects os)]> (os_names os) /\
     os_objects os1 = os_objects os ++ [{| o_size := 0; o_byte := fun _ => 0 |}] /\
     os_vmas os1 = os_vmas os).
Proof.
  destruct create_flags as (F1 & F2 & F3 & _).
  unfold ShmOpen. cbn [shm_open errno platform]. rewrite F1.
  change (Z.lor S_IRUSR S_IWUSR) with 384.
  unfold sys_shm_open. os_simpl.
  destruct (os_names os !! name) as [id|]; [left | right].
  - exists id. split; [reflexivity|]. rewrite F2, F3. reflexivity.
  - split; [reflexivity|]. rewrite F2. unfold new_fd. os_simpl.
    set (fd0 := lowest_free _ _ _).
    assert ((fd0 =? -1) = false) as ->.
    { apply Z.eqb_neq. subst fd0.
      match goal with
      | |- lowest_free ?f ?z ?n <> _ => pose proof (lowest_free_ge f n z)
      end. lia. }
    eexists _, _. split; [reflexivity|]. os_simpl.
    split; [apply lowest_free_fresh; lia|]. by repeat split.
Qed.

(** Everything [Open] can do once the segment is created. *)
Lemma Open_created_cases name fd size os1 id :
  os_fds os1 !! fd = Some id ->
  exists r os',
    Open_created name fd size os1 = Returns (r, os') /\
    os_fds os' = delete fd (os_fds os1) /\
    os_names os' = os_names os1 /\
    length (os_objects os') = length (os_objects os1) /\
    (forall j, j <> id -> os_objects os' !! j = os_objects os1 !! j) /\
    ((r = Error EINVAL /\ os_vmas os' = os_vmas os1 /\
      (to_off_t size <= 0 \/ size <= 0)) \/
     (r = Ok {| buf_ := unmapped_area (os_vmas os1); name_ := name; size_ := size |} /\
      0 < to_off_t size /\ 0 < size /\
      os_vmas os' =
        os_vmas os1 ++
        [{| vm_start := unmapped_area (os_vmas os1);
            vm_end := unmapped_area (os_vmas os1) + round_up size;
            vm_obj := id; vm_off := 0; vm_prot := 3 |}] /\
      (forall o0, os_objects os1 !! id = Some o0 ->
         exists o', os_objects os' !! id = Some o' /\
           o_size o' = Z.max (o_size o0) (to_off_t size) /\
           (forall i, o_byte o' i =
                      if (0 <=? i) && (i <? size) then 0 else o_byte o0 i)))).
Proof.
  intros Hfd. destruct create_flags as (_ & _ & _ & _ & _ & P1 & P2 & P3).
  unfold Open_created, ShmMap, close_fd.
  cbn [posix_fallocate mmap close memset errno platform].
  unfold sys_posix_fallocate. os_simpl. rewrite Hfd.
  change (0 <? 0) with false. cbn [orb].
  destruct (to_off_t size <=? 0) eqn:Hoff.
  { apply Z.leb_le in Hoff. change (EINVAL =? 0) with false. cbv iota.
    unfold sys_close. os_simpl. rewrite Hfd. os_simpl.
    eexists _, _. split; [reflexivity|]. os_simpl.
    repeat split; try reflexivity. left. repeat split. by left. }
  apply Z.leb_gt in Hoff.
  cbn [Z.eqb]. unfold sys_mmap. os_simpl. rewrite Hfd, P1.
  change (negb (0 `mod` PAGE_SIZE =? 0)) with false.
  destruct (size <=? 0) eqn:Hsize.
  { apply Z.leb_le in Hsize. cbn [orb]. unfold fail. cbv beta iota zeta.
    change (MAP_FAILED =? MAP_FAILED) with true. os_simpl.
    change (EINVAL =? 0) with false. cbv iota.
    unfold sys_close. os_simpl. rewrite Hfd. os_simpl.
    eexists _, _. split; [reflexivity|]. os_simpl.
    repeat split; try reflexivity.
    - by rewrite length_alter.
    - intros j Hj. by rewrite list_lookup_alter_ne.
    - left. repeat split. by right. }
  apply Z.leb_gt in Hsize.
  change (false || (0 <? 0) || false) with false. cbv beta iota.
  set (ptr := unmapped_area (os_vmas os1)).
  assert ((ptr =? MAP_FAILED) = false) as ->
    by (apply Z.eqb_neq, unmapped_area_not_failed).
  cbn [Z.eqb]. unfold sys_close. os_simpl. rewrite Hfd.
  os_simpl. unfold libc_memset.
  replace (size <=? 0) with false by (symmetry; apply Z.leb_gt; lia).
  unfold vma_of. os_simpl.
  set (v := {| vm_start := ptr; vm_end := ptr + round_up size;
               vm_obj := id; vm_off := 0; vm_prot := 3 |}).
  pose proof (round_up_ge size) as Hround.
  rewrite (vma_of_newest (os_vmas os1) v ptr) by (simpl; lia).
  cbn [vm_prot vm_end vm_start vm_obj vm_off v]. rewrite P3.
  replace (ptr + size <=? ptr + round_up size) with true
    by (symmetry; apply Z.leb_le; lia).
  cbn [andb]. eexists _, _. split; [reflexivity|]. os_simpl.
  repeat split; try reflexivity.
  - by rewrite !length_alter.
  - intros j Hj. by rewrite !list_lookup_alter_ne.
  - right. split; [reflexivity|]. split; [exact Hoff|]. split; [exact Hsize|].
    split; [reflexivity|].
    intros o0 Ho0. rewrite !list_lookup_alter_eq, Ho0. cbn [fmap option_fmap option_map].
    eexists. split; [reflexivity|]. cbn [o_size o_byte]. split; [reflexivity|].
    intros i. replace (0 + (ptr - ptr)) with 0 by lia. reflexivity.
Qed.

Lemma Open_unfold {W : Type} `{!Platform W}
    (fuel : nat) (o : option string) (size : Z) (w : W) :
  Open fuel o size w =
  match (match o with
         | Some shm_name =>
             let '(err, fd, w1) := ShmOpen shm_name true w in
             Returns (err, shm_name, fd, w1)
         | None => ShmOpen_gen fuel w
         end) with
  | Returns (err, shm_name, fd, w1) =>
      if err =? 0 then Open_created shm_name fd size w1
      else Returns (Error err, w1)
  | Aborts => Aborts
  | NoFuel => NoFuel
  end.
Proof.
  unfold Open.
  destruct (match o with
            | Some shm_name =>
                let '(err, fd, w1) := ShmOpen shm_name true w in
                Returns (err, shm_name, fd, w1)
            | None => ShmOpen_gen fuel w
            end) as [[[[err shm_name] fd] w1]| |]; reflexivity.
Qed.

(** The passes of the retry loop that report EEXIST leave names, objects,
    descriptors and mappings alone. *)
Lemma ShmOpen_gen_linux fuel : forall os err name fd os1,
  ShmOpen_gen fuel os = Returns (err, name, fd, os1) ->
  exists os0,
    same_resources os os0 /\ ShmOpen name true os0 = (err, fd, os1) /\
    err <> EEXIST.
Proof.
  induction fuel as [|fuel IH]; intros os err name fd os1 H; [discriminate H|].
  simpl in H. unfold ShmOpen_gen_body in H.
  cbn [GenAlphaNumericString platform] in H. unfold gen_alpha_numeric in H.
  destruct (gen_chars (Z.to_nat kNameLength) (os_seed os)) as [suffix seed].
  set (os_a := set_seed seed os) in H.
  destruct (ShmOpen ("/ofshm_" +:+ suffix) true os_a) as [[err1 fd1] os2] eqn:E.
  destruct (err1 =? EEXIST) eqn:Eerr; simpl in H.
  - apply Z.eqb_eq in Eerr as ->.
    destruct (IH _ _ _ _ _ H) as (os0 & Hsame & Hopen & Hne).
    exists os0. split; [|by split].
    destruct (ShmOpen_create_cases ("/ofshm_" +:+ suffix) os_a)
      as [(id & _ & E')|(_ & fd' & os' & E' & _)];
      rewrite E in E'; [|discriminate E'].
    injection E' as -> ->.
    destruct Hsame as (H1 & H2 & H3 & H4). unfold same_resources.
    rewrite H1, H2, H3, H4. by repeat split.
  - injection H as -> <- -> ->. exists os_a.
    split; [by repeat split|]. split; [exact E|]. by apply Z.eqb_neq.
Qed.

Lemma ShmOpen_gen_name_form fuel : forall os err name fd os1,
  ShmOpen_gen fuel os = Returns (err, name, fd, os1) ->
  exists suffix, name = ("/ofshm_" +:+ suffix)%string /\ String.length suffix = 8%nat.
Proof.
  induction fuel as [|fuel IH]; intros os err name fd os1 H; [discriminate H|].
  rewrite ShmOpen_gen_step in H.
  destruct (pass_code (ShmOpen_gen_body os) =? EEXIST); [by eapply IH|].
  injection H as H. pose proof (ShmOpen_gen_name os) as Hname. rewrite H in Hname.
  unfold pass_name in Hname. cbn [fst snd] in Hname. eexists. split; [exact Hname|].
  apply (gen_alpha_numeric_length 8 os).
Qed.

(** How [Open] in its create form comes out on Linux. *)
Lemma Open_linux_cases fuel o size os :
  Open fuel o size os = NoFuel \/
  exists os0 name,
    same_resources os os0 /\
    match o with
    | Some n => name = n
    | None => exists suffix,
        name = ("/ofshm_" +:+ suffix)%string /\ String.length suffix = 8%nat
    end /\
    ((exists id, os_names os0 !! name = Some id /\ o = Some name /\
        Open fuel o size os =
          Returns (Error EEXIST,
                   set_errno EEXIST (enter (SysShmOpen name 194 384) os0))) \/
     (os_names os0 !! name = None /\
      exists fd os1,
        os_fds os0 !! fd = None /\
        os_fds os1 = <[fd := length (os_objects os0)]> (os_fds os0) /\
        os_names os1 = <[name := length (os_objects os0)]> (os_names os0) /\
        os_objects os1 = os_objects os0 ++ [{| o_size := 0; o_byte := fun _ => 0 |}] /\
        os_vmas os1 = os_vmas os0 /\
        Open fuel o size os = Open_created name fd size os1)).
Proof.
  rewrite Open_unfold. destruct o as [name|].
  - right. exists os, name. split; [apply same_resources_refl|]. split; [done|].
    destruct (ShmOpen_create_cases name os)
      as [(id & Hid & ->)|(Hnone & fd & os1 & -> & Hrest)].
    + left. exists id. by repeat split.
    + right. split; [exact Hnone|]. exists fd, os1.
      destruct Hrest as (? & ? & ? & ? & ?). by repeat split.
  - destruct (ShmOpen_gen fuel os) as [[[[err name] fd] os1]| |] eqn:E.
    + right. destruct (ShmOpen_gen_linux _ _ _ _ _ _ E) as (os0 & Hsame & Hopen & Hne).
      exists os0, name. split; [exact Hsame|].
      split; [exact (ShmOpen_gen_name_form _ _ _ _ _ _ E)|].
      destruct (ShmOpen_create_cases name os0)
        as [(id & Hid & E')|(Hnone & fd' & os' & E' & Hrest)];
        rewrite Hopen in E'.
      * injection E' as -> _ _. done.
      * injection E' as -> -> ->. right. split; [exact Hnone|].
        exists fd', os'. destruct Hrest as (? & ? & ? & ? & ?). by repeat split.
    + exfalso. clear -E. revert os E. induction fuel as [|fuel IH]; intros os E;
        [discriminate E|].
      rewrite ShmOpen_gen_step in E.
      destruct (pass_code (ShmOpen_gen_body os) =? EEXIST); [by eapply IH | discriminate E].
    + by left.
Qed.

Lemma new_fd_then_close (fds : gmap Z nat) fd id :
  fds !! fd = None -> delete fd (<[fd := id]> fds) = fds.
Proof. intros H. by apply delete_insert_id. Qed.

(** How the attach form [Open(name)] comes out on Linux. *)
Lemma Open_name_cases name os :
  (os_names os !! name = None /\
   Open_name name os =
     (Error ENOENT, set_errno ENOENT (enter (SysShmOpen name 130 384) os))) \/
  (exists id r os',
     os_names os !! name = Some id /\
     Open_name name os = (r, os') /\
     os_names os' = os_names os /\ os_objects os' = os_objects os /\
     os_fds os' = os_fds os /\
     let size := wrap64 (from_option o_size 0 (os_objects os !! id)) in
     ((size <= 0 /\ r = Error EINVAL /\ os_vmas os' = os_vmas os) \/
      (0 < size /\
       r = Ok {| buf_ := unmapped_area (os_vmas os); name_ := name; size_ := size |} /\
       os_vmas os' =
         os_vmas os ++
         [{| vm_start := unmapped_area (os_vmas os);
             vm_end := unmapped_area (os_vmas os) + round_up size;
             vm_obj := id; vm_off := 0; vm_prot := 3 |}]))).
Proof.
  destruct create_flags as (_ & _ & _ & F4 & F5 & P1 & _).
  unfold Open_name, ShmOpen. cbn [shm_open fstat errno platform]. rewrite F4.
  change (Z.lor S_IRUSR S_IWUSR) with 384.
  unfold sys_shm_open. os_simpl. rewrite F5. cbn [andb].
  destruct (os_names os !! name) as [id|]; [right | left; by split].
  unfold new_fd. os_simpl. set (fd0 := lowest_free _ _ _).
  assert (os_fds os !! fd0 = None) as Hfresh by (apply lowest_free_fresh; lia).
  assert ((fd0 =? -1) = false) as ->.
  { apply Z.eqb_neq. subst fd0.
    match goal with
    | |- lowest_free ?f ?z ?n <> _ => pose proof (lowest_free_ge f n z)
    end. lia. }
  unfold PCHECK_OR_RETURN at 1. cbn [Z.eqb].
  unfold sys_fstat. os_simpl. rewrite lookup_insert_eq.
  unfold PCHECK_OR_RETURN at 1. cbn [Z.eqb st_size].
  unfold ShmMap. cbn [mmap errno platform]. unfold sys_mmap. os_simpl.
  rewrite lookup_insert_eq, P1.
  change (negb (0 `mod` PAGE_SIZE =? 0)) with false.
  set (size := wrap64 _).
  destruct (size <=? 0) eqn:Hsize.
  - apply Z.leb_le in Hsize. cbn [orb]. unfold fail. cbv beta iota zeta.
    change (MAP_FAILED =? MAP_FAILED) with true. os_simpl.
    unfold PCHECK_OR_RETURN. change (EINVAL =? 0) with false. cbv iota.
    unfold close_fd. cbn [close platform]. unfold sys_close. os_simpl.
    rewrite lookup_insert_eq. os_simpl.
    exists id. eexists _, _. split; [reflexivity|]. split; [reflexivity|]. os_simpl.
    rewrite new_fd_then_close by exact Hfresh.
    repeat split. left. by repeat split.
  - apply Z.leb_gt in Hsize.
    change (false || (0 <? 0) || false) with false. cbv beta iota.
    set (ptr := unmapped_area (os_vmas os)).
    assert ((ptr =? MAP_FAILED) = false) as ->
      by (apply Z.eqb_neq, unmapped_area_not_failed).
    unfold PCHECK_OR_RETURN. cbn [Z.eqb].
    unfold close_fd. cbn [close platform]. unfold sys_close. os_simpl.
    rewrite lookup_insert_eq. os_simpl.
    exists id. eexists _, _. split; [reflexivity|]. split; [reflexivity|]. os_simpl.
    rewrite new_fd_then_close by exact Hfresh.
    repeat split. right. by repeat split.
Qed.

(** X1.  Neither form of [Open] leaves a descriptor open: whatever it
    returns, success or error, the descriptor table is the one it
    found. *)
Theorem Open_closes_its_descriptor
    (fuel : nat) (o : option string) (size : Z) (name : string) (os : OS) :
  (forall r os', Open fuel o size os = Returns (r, os') -> os_fds os' = os_fds os) /\
  (forall r os', Open_name name os = (r, os') -> os_fds os' = os_fds os).
Proof.
  split.
  - intros r os' H.
    destruct (Open_linux_cases fuel o size os)
      as [E | (os0 & nm & (_ & _ & Hfds & _) & _ & [(id & _ & _ & E) | (_ & fd & os1 & Hfree & Hfd1 & _ & _ & _ & E)])];
      rewrite E in H; [discriminate H | |].
    + injection H as _ <-. exact Hfds.
    + destruct (Open_created_cases nm fd size os1 (length (os_objects os0)))
        as (r' & os'' & E' & Hfds' & _).
      { rewrite Hfd1. apply lookup_insert_eq. }
      rewrite E' in H. injection H as _ <-.
      by rewrite Hfds', Hfd1, new_fd_then_close.
  - intros r os' H.
    destruct (Open_name_cases name os) as [[_ E] | (id & r' & os'' & _ & E & _ & _ & Hfds & _)];
      rewrite E in H; injection H as _ <-; [reflexivity | exact Hfds].
Qed.

(** X2.  The create form of [Open] does not disturb what exists: every
    name keeps the object it named, every object that existed keeps its
    size and bytes, and the mappings that existed are all still there, at
    most one new mapping after them. *)
Theorem Open_leaves_existing_segments
    (fuel : nat) (o : option string) (size : Z) (os : OS)
    (r : Maybe SharedMemory) (os' : OS) :
  Open fuel o size os = Returns (r, os') ->
  (forall n id, os_names os !! n = Some id -> os_names os' !! n = Some id) /\
  (forall j, (j < length (os_objects os))%nat ->
     os_objects os' !! j = os_objects os !! j) /\
  (exists vs, os_vmas os' = os_vmas os ++ vs /\ (length vs <= 1)%nat).
Proof.
  intros H.
  destruct (Open_linux_cases fuel o size os)
    as [E | (os0 & nm & (Hn & Ho & _ & Hv) & _ & [(id & _ & _ & E) | (Hfree & fd & os1 & _ & Hfd1 & Hn1 & Ho1 & Hv1 & E)])];
    rewrite E in H; [discriminate H | |].
  - injection H as _ <-. os_simpl. rewrite Hn, Ho, Hv.
    split; [done|]. split; [done|]. exists []. rewrite app_nil_r. split; [reflexivity | simpl; lia].
  - destruct (Open_created_cases nm fd size os1 (length (os_objects os0)))
      as (r' & os'' & E' & _ & Hn' & _ & Ho' & Hcase).
    { rewrite Hfd1. apply lookup_insert_eq. }
    rewrite E' in H. injection H as _ <-.
    split; [|split].
    + intros n id Hid. rewrite Hn', Hn1. rewrite <- Hn in Hid.
      rewrite lookup_insert_ne; [exact Hid|]. intros ->. congruence.
    + intros j Hj. rewrite <- Ho in *. rewrite Ho' by lia.
      rewrite Ho1. by apply lookup_app_l.
    + destruct Hcase as [(_ & -> & _) | (_ & _ & _ & -> & _)]; rewrite Hv1, Hv.
      * exists []. rewrite app_nil_r. split; [reflexivity | simpl; lia].
      * eexists. split; [reflexivity|]. simpl. lia.
Qed.

Lemma Open_leaves_existing_segments_witness :
  exists a os1 b os2,
    Open 1 (Some "/a"%string) 100 (boot 1) = Returns (Ok a, os1) /\
    Open 1 (Some "/b"%string) 200 os1 = Returns (Ok b, os2) /\
    os_names os2 !! "/a"%string = Some 0%nat /\
    os_objects os2 !! 0%nat = os_objects os1 !! 0%nat.
Proof.
  destruct (Open 1 (Some "/a"%string) 100 (boot 1)) as [[[a|] os1]| |] eqn:Ea;
    try (vm_compute in Ea; discriminate Ea).
  destruct (Open 1 (Some "/b"%string) 200 os1) as [[[b|] os2]| |] eqn:Eb;
    try (vm_compute in Ea; injection Ea as <- <-; vm_compute in Eb; discriminate Eb).
  destruct (Open_leaves_existing_segments _ _ _ _ _ _ Eb) as (Hn & Ho & _).
  exists a, os1, b, os2. split; [reflexivity|]. split; [exact Eb|].
  vm_compute in Ea. injection Ea as <- <-.
  split; [apply Hn; reflexivity | apply Ho; simpl; lia].
Defined.

Lemma Open_on_taken_name
    (fuel : nat) (name : string) (size : Z) (os : OS) (id : nat) :
  os_names os !! name = Some id ->
  exists os',
    Open fuel (Some name) size os = Returns (Error EEXIST, os') /\
    os_names os' = os_names os /\ os_objects os' = os_objects os /\
    os_fds os' = os_fds os /\ os_vmas os' = os_vmas os.
Proof.
  intros Hid. rewrite Open_unfold.
  destruct (ShmOpen_create_cases name os) as [(i & _ & ->)|(Hn & _)]; [|congruence].
  eexists. split; [reflexivity|]. by repeat split.
Qed.

(** X3.  The create form refuses a name that is taken: it returns the
    error of code EEXIST and leaves names, objects, descriptors and
    mappings as they were. *)
Theorem Open_existing_name_fails
    (fuel : nat) (name : string) (size : Z) (os : OS) (id : nat) :
  os_names os !! name = Some id ->
  exists os',
    Open fuel (Some name) size os = Returns (Error EEXIST, os') /\
    os_names os' = os_names os /\ os_objects os' = os_objects os /\
    os_fds os' = os_fds os /\ os_vmas os' = os_vmas os.
Proof. apply Open_on_taken_name. Qed.

Lemma Open_existing_name_fails_witness :
  exists a os os',
    Open 1 (Some "/a"%string) 64 (boot 1) = Returns (Ok a, os) /\
    Open 1 (Some "/a"%string) 64 os = Returns (Error EEXIST, os') /\
    os_vmas os' = os_vmas os.
Proof.
  destruct (Open 1 (Some "/a"%string) 64 (boot 1)) as [[[a|] os]| |] eqn:Ea;
    try (vm_compute in Ea; discriminate Ea).
  destruct (Open_existing_name_fails 1 "/a" 64 os 0) as (os' & E & _ & _ & _ & Hv).
  - vm_compute in Ea. injection Ea as <- <-. vm_compute. reflexivity.
  - exists a, os, os'. split; [reflexivity|]. by split.
Defined.

(** The state a successful create leaves. *)
Lemma Open_success_state fuel o size os a os1 :
  Open fuel o size os = Returns (Ok a, os1) ->
  exists id o1 vs,
    buf_ a = unmapped_area vs /\ size_ a = size /\
    from_option (eq (name_ a)) True o /\
    os_names os1 !! name_ a = Some id /\
    os_objects os1 !! id = Some o1 /\
    o_size o1 = to_off_t size /\ 0 < to_off_t size /\ 0 < size /\
    (forall i, 0 <= i < size -> o_byte o1 i = 0) /\
    os_vmas os1 =
      vs ++ [{| vm_start := unmapped_area vs;
                vm_end := unmapped_area vs + round_up size;
                vm_obj := id; vm_off := 0; vm_prot := 3 |}].
Proof.
  intros H.
  destruct (Open_linux_cases fuel o size os)
    as [E | (os0 & nm & _ & Hname & [(id & _ & _ & E) | (Hfree & fd & os1' & _ & Hfd1 & Hn1 & Ho1 & Hv1 & E)])];
    rewrite E in H; try discriminate H.
  destruct (Open_created_cases nm fd size os1' (length (os_objects os0)))
    as (r' & os'' & E' & _ & Hn' & _ & _ & Hcase).
  { rewrite Hfd1. apply lookup_insert_eq. }
  rewrite E' in H. injection H as -> ->.
  destruct Hcase as [(? & _) | (Ha & Hoff & Hsize & Hv & Hobj)]; [discriminate|].
  injection Ha as ->.
  destruct (Hobj {| o_size := 0; o_byte := fun _ => 0 |}) as (o' & Ho' & Hsz & Hbytes).
  { rewrite Ho1. rewrite lookup_app_r by lia. by rewrite Nat.sub_diag. }
  exists (length (os_objects os0)), o', (os_vmas os1'). cbn [name_ buf_ size_].
  split; [reflexivity|]. split; [reflexivity|].
  split; [destruct o; simpl; [exact Hname | exact I]|].
  split; [rewrite Hn', Hn1; apply lookup_insert_eq|].
  split; [exact Ho'|]. split; [rewrite Hsz; simpl; lia|].
  split; [exact Hoff|]. split; [exact Hsize|]. split; [|exact Hv].
  intros i Hi. rewrite Hbytes.
  replace (0 <=? i) with true by (symmetry; apply Z.leb_le; lia).
  by replace (i <? size) with true by (symmetry; apply Z.ltb_lt; lia).
Qed.

Lemma find_app_l {A} (f : A -> bool) (l1 l2 : list A) (x : A) :
  List.find f l1 = Some x -> List.find f (l1 ++ l2) = Some x.
Proof.
  induction l1 as [|y l1 IH]; simpl; [discriminate|].
  destruct (f y); [done | exact IH].
Qed.

Lemma read_byte_via os a v o :
  vma_of os a = Some v -> has_flag (vm_prot v) PROT_READ = true ->
  os_objects os !! vm_obj v = Some o ->
  read_byte os a = Some (o_byte o (vm_off v + (a - vm_start v))).
Proof. intros Hv Hp Ho. unfold read_byte. by rewrite Hv, Hp, Ho. Qed.

Lemma to_off_t_positive size :
  0 <= size < 2 ^ 64 -> 0 < to_off_t size -> to_off_t size = size /\ wrap64 size = size.
Proof.
  intros Hrange. unfold to_off_t, wrap64. rewrite Z.mod_small by lia.
  destruct (size <? 2 ^ 63) eqn:E; [lia|]. apply Z.ltb_ge in E. lia.
Qed.

(** [memset] through a mapping of an object, as seen through any mapping
    of the same object. *)
Lemma memset_through os v ptr c n :
  vma_of os ptr = Some v -> has_flag (vm_prot v) PROT_WRITE = true ->
  0 < n -> ptr + n <= vm_end v ->
  libc_memset ptr c n os =
    Some (set_objects
            (alter (fun o => {| o_size := o_size o;
                                o_byte := fun i =>
                                  if (vm_off v + (ptr - vm_start v) <=? i)
                                     && (i <? vm_off v + (ptr - vm_start v) + n)
                                  then c `mod` 256 else o_byte o i |})
                   (vm_obj v) (os_objects os)) os).
Proof.
  intros Hv Hp Hn Hend. unfold libc_memset.
  replace (n <=? 0) with false by (symmetry; apply Z.leb_gt; lia).
  rewrite Hv, Hp.
  by replace (ptr + n <=? vm_end v) with true by (symmetry; apply Z.leb_le; lia).
Qed.

(** X4.  A segment made by the create form of [Open] can be attached by
    its name: the second object records the same size at a different
    address, both read the same zeroed bytes, and a [memset] through the
    first buffer is read back through the second. *)
Theorem attach_shares_contents
    (fuel : nat) (o : option string) (size : Z) (os : OS)
    (a : SharedMemory) (os1 : OS) :
  0 <= size < 2 ^ 64 ->
  Open fuel o size os = Returns (Ok a, os1) ->
  exists b os2,
    Open_name (name_ a) os1 = (Ok b, os2) /\
    size_ b = size_ a /\ buf_ b <> buf_ a /\
    (forall i, 0 <= i < size ->
       read_byte os2 (buf_ a + i) = Some 0 /\ read_byte os2 (buf_ b + i) = Some 0) /\
    (forall c, exists os3,
       libc_memset (buf_ a) c size os2 = Some os3 /\
       forall i, 0 <= i < size ->
         read_byte os3 (buf_ a + i) = Some (c `mod` 256) /\
         read_byte os3 (buf_ b + i) = Some (c `mod` 256)).
Proof.
  intros Hrange H.
  destruct (Open_success_state _ _ _ _ _ _ H)
    as (id & o1 & vs & Hbuf & Hsize_a & _ & Hname & Hobj & Hsz & Hoff & Hsize & Hzero & Hvmas).
  rewrite Hbuf, Hsize_a.
  destruct (to_off_t_positive size Hrange Hoff) as [Hoff_eq Hwrap].
  set (P := unmapped_area vs) in *.
  set (va := {| vm_start := P; vm_end := P + round_up size;
                vm_obj := id; vm_off := 0; vm_prot := 3 |}) in *.
  pose proof (round_up_ge size) as Hround.
  destruct create_flags as (_ & _ & _ & _ & _ & _ & P2 & P3).
  destruct (Open_name_cases (name_ a) os1)
    as [[Hnone _] | (id' & r & os2 & Hid' & E & _ & Hobjs2 & _ & Hcase)];
    [congruence|].
  rewrite Hname in Hid'. injection Hid' as <-.
  rewrite Hobj in Hcase. cbn [from_option] in Hcase.
  rewrite Hsz, Hoff_eq, Hwrap in Hcase.
  destruct Hcase as [(? & _) | (_ & -> & Hvmas2)]; [lia|].
  set (Q := unmapped_area (os_vmas os1)) in *.
  set (vb := {| vm_start := Q; vm_end := Q + round_up size;
                vm_obj := id; vm_off := 0; vm_prot := 3 |}) in *.
  assert (P + round_up size <= Q) as HQ.
  { subst Q. apply (unmapped_area_above (os_vmas os1) va).
    rewrite Hvmas. apply elem_of_app. right. apply list_elem_of_here. }
  assert (forall i, 0 <= i < size -> vma_of os2 (P + i) = Some va) as Hva.
  { intros i Hi. unfold vma_of. rewrite Hvmas2, Hvmas.
    apply find_app_l, vma_of_newest; simpl; [reflexivity | lia]. }
  assert (forall i, 0 <= i < size -> vma_of os2 (Q + i) = Some vb) as Hvb.
  { intros i Hi. unfold vma_of. rewrite Hvmas2.
    apply vma_of_newest; simpl; [reflexivity | lia]. }
  exists {| buf_ := Q; name_ := name_ a; size_ := size |}, os2.
  cbn [buf_ size_]. split; [exact E|]. split; [reflexivity|].
  split; [lia|]. split.
  - intros i Hi. split.
    + rewrite (read_byte_via os2 _ va o1) by (simpl; rewrite ?Hobjs2; auto).
      simpl. replace (0 + (P + i - P)) with i by lia. by rewrite Hzero.
    + rewrite (read_byte_via os2 _ vb o1) by (simpl; rewrite ?Hobjs2; auto).
      simpl. replace (0 + (Q + i - Q)) with i by lia. by rewrite Hzero.
  - intros c. eexists. split.
    + apply (memset_through os2 va); [| exact P3 | lia | simpl; lia].
      replace P with (P + 0) by lia. apply Hva. lia.
    + intros i Hi.
      split.
      * erewrite (read_byte_via _ _ va).
        2: { unfold vma_of. os_simpl. apply (Hva i Hi). }
        2: exact P2.
        2: { os_simpl. simpl. rewrite list_lookup_alter_eq, Hobjs2, Hobj. reflexivity. }
        simpl. replace (0 + (P - P) <=? 0 + (P + i - P)) with true
          by (symmetry; apply Z.leb_le; lia).
        by replace (0 + (P + i - P) <? 0 + (P - P) + size) with true
          by (symmetry; apply Z.ltb_lt; lia).
      * erewrite (read_byte_via _ _ vb).
        2: { unfold vma_of. os_simpl. apply (Hvb i Hi). }
        2: exact P2.
        2: { os_simpl. simpl. rewrite list_lookup_alter_eq, Hobjs2, Hobj. reflexivity. }
        simpl. replace (0 + (P - P) <=? 0 + (Q + i - Q)) with true
          by (symmetry; apply Z.leb_le; lia).
        by replace (0 + (Q + i - Q) <? 0 + (P - P) + size) with true
          by (symmetry; apply Z.ltb_lt; lia).
Qed.

Lemma attach_shares_contents_witness :
  exists a os1 b os2,
    Open 1 None 4096 (boot 7) = Returns (Ok a, os1) /\
    Open_name (name_ a) os1 = (Ok b, os2) /\
    size_ b = 4096 /\ read_byte os2 (buf_ b + 4095) = Some 0.
Proof.
  destruct (Open 1 None 4096 (boot 7)) as [[[a|] os1]| |] eqn:Ea;
    try (vm_compute in Ea; discriminate Ea).
  destruct (attach_shares_contents 1 None 4096 (boot 7) a os1 ltac:(lia) Ea)
    as (b & os2 & E & Hsize & _ & Hread & _).
  exists a, os1, b, os2. split; [reflexivity|]. split; [exact E|].
  split; [|apply Hread; lia].
  rewrite Hsize. vm_compute in Ea. by injection Ea as <- _.
Defined.

(** X5.  What is written to a segment outlives the mapping: after a
    [memset] through the buffer and a successful [Close()], attaching by
    name maps the same bytes again. *)
Theorem contents_survive_close
    (fuel : nat) (o : option string) (size c : Z) (os : OS)
    (a : SharedMemory) (os1 os2 : OS) (a' : SharedMemory) (os3 : OS) :
  0 <= size < 2 ^ 64 ->
  Open fuel o size os = Returns (Ok a, os1) ->
  libc_memset (buf_ a) c size os1 = Some os2 ->
  Close a os2 = (Ok tt, a', os3) ->
  exists b os4,
    Open_name (name_ a) os3 = (Ok b, os4) /\
    size_ b = size /\
    forall i, 0 <= i < size -> read_byte os4 (buf_ b + i) = Some (c `mod` 256).
Proof.
  intros Hrange H Hset Hclose.
  destruct (Open_success_state _ _ _ _ _ _ H)
    as (id & o1 & vs & Hbuf & Hsize_a & _ & Hname & Hobj & Hsz & Hoff & Hsize & Hzero & Hvmas).
  destruct (to_off_t_positive size Hrange Hoff) as [Hoff_eq Hwrap].
  destruct create_flags as (_ & _ & _ & _ & _ & _ & P2 & P3).
  pose proof (round_up_ge size) as Hround.
  rewrite Hbuf in Hset.
  set (P := unmapped_area vs) in *.
  set (va := {| vm_start := P; vm_end := P + round_up size;
                vm_obj := id; vm_off := 0; vm_prot := 3 |}) in *.
  rewrite (memset_through os1 va) in Hset;
    [| unfold vma_of; rewrite Hvmas; apply vma_of_newest; simpl; [reflexivity | lia]
     | exact P3 | lia | simpl; lia].
  injection Hset as <-.
  destruct (Close_Ok_inv _ _ _ _ _ Hclose) as [Ha Hs].
  match type of Hclose with
  | Close _ ?w = _ =>
      destruct (Close_success a w Ha Hs) as (os3' & E3 & _ & Hn3 & Ho3 & _)
  end.
  rewrite Hclose in E3. injection E3 as _ <-.
  simpl in Hn3, Ho3.
  destruct (Open_name_cases (name_ a) os3)
    as [[Hnone _] | (id' & r & os4 & Hid' & E & _ & Hobjs4 & _ & Hcase)];
    [congruence|].
  rewrite Hn3, Hname in Hid'. injection Hid' as <-.
  rewrite Ho3, list_lookup_alter_eq, Hobj in Hcase.
  cbn [fmap option_fmap option_map from_option o_size] in Hcase.
  rewrite Hsz, Hoff_eq, Hwrap in Hcase.
  destruct Hcase as [(? & _) | (_ & -> & Hvmas4)]; [lia|].
  eexists _, os4. split; [exact E|]. cbn [buf_ size_]. split; [reflexivity|].
  intros i Hi.
  set (Q := unmapped_area (os_vmas os3)) in *.
  set (vb := {| vm_start := Q; vm_end := Q + round_up size;
                vm_obj := id; vm_off := 0; vm_prot := 3 |}) in *.
  erewrite (read_byte_via os4 _ vb).
  2: { unfold vma_of. rewrite Hvmas4. apply vma_of_newest; simpl; [reflexivity | lia]. }
  2: exact P2.
  2: { simpl. rewrite Hobjs4, Ho3, list_lookup_alter_eq, Hobj. reflexivity. }
  simpl. replace (0 + (P - P) <=? 0 + (Q + i - Q)) with true
    by (symmetry; apply Z.leb_le; lia).
  by replace (0 + (Q + i - Q) <? 0 + (P - P) + size) with true
    by (symmetry; apply Z.ltb_lt; lia).
Qed.

Lemma contents_survive_close_witness :
  exists a os1 os2 a' os3 b os4,
    Open 1 (Some "/a"%string) 100 (boot 1) = Returns (Ok a, os1) /\
    libc_memset (buf_ a) 255 100 os1 = Some os2 /\
    Close a os2 = (Ok tt, a', os3) /\
    Open_name "/a" os3 = (Ok b, os4) /\
    read_byte os4 (buf_ b + 99) = Some 255.
Proof.
  destruct (Open 1 (Some "/a"%string) 100 (boot 1)) as [[[a|] os1]| |] eqn:Ea;
    try (vm_compute in Ea; discriminate Ea).
  destruct (libc_memset (buf_ a) 255 100 os1) as [os2|] eqn:Es;
    [|vm_compute in Ea; injection Ea as <- <-; vm_compute in Es; discriminate Es].
  destruct (Close a os2) as [[[[]|] a'] os3] eqn:Ec;
    [|vm_compute in Ea; injection Ea as <- <-; vm_compute in Es;
      injection Es as <-; vm_compute in Ec; discriminate Ec].
  destruct (contents_survive_close 1 (Some "/a"%string) 100 255 (boot 1)
              a os1 os2 a' os3 ltac:(lia) Ea Es Ec) as (b & os4 & E & _ & Hread).
  assert (name_ a = "/a"%string) as Hname
    by (vm_compute in Ea; by injection Ea as <- _).
  rewrite Hname in E.
  exists a, os1, os2, a', os3, b, os4.
  split; [reflexivity|]. split; [exact Es|]. split; [exact Ec|]. split; [exact E|].
  apply (Hread 99). lia.
Defined.

(** X6.  A create that fails after [shm_open] does not take the name
    back: asked, under a shared-memory name that is new, for a size of
    zero or one beyond [off_t], [Open] returns the error of code EINVAL
    with nothing mapped and no descriptor left open, but the name now
    exists, so that every later create of that name fails with
    EEXIST. *)
Theorem failed_create_keeps_name
    (fuel : nat) (name : string) (size : Z) (os : OS) :
  shm_name_ok name = true ->
  names_ok os ->
  os_names os !! name = None ->
  0 <= size < 2 ^ 64 ->
  size = 0 \/ 2 ^ 63 <= size ->
  exists os',
    Open fuel (Some name) size os = Returns (Error EINVAL, os') /\
    os_names os' !! name = Some (length (os_objects os)) /\
    os_fds os' = os_fds os /\ os_vmas os' = os_vmas os /\
    forall fuel' size', exists os'',
      Open fuel' (Some name) size' os' = Returns (Error EEXIST, os'').
Proof.
  intros _ _ Hfree Hrange Hbad.
  assert (to_off_t size <= 0) as Hoff.
  { unfold to_off_t, wrap64. rewrite Z.mod_small by lia.
    destruct (Z.ltb_spec size (2 ^ 63)); lia. }
  destruct (Open_linux_cases fuel (Some name) size os)
    as [E | (os0 & nm & (Hn & Ho & Hf & Hv) & Hnm & [(id & Hid & _ & E) | (_ & fd & os1 & Hfd & Hfd1 & Hn1 & Ho1 & Hv1 & E)])].
  - rewrite Open_unfold in E. destruct (ShmOpen name true os) as [[err fd] w1].
    destruct (err =? 0); [|discriminate E].
    destruct (Open_created name fd size w1) eqn:E'; try discriminate E.
    exfalso. revert E'. unfold Open_created.
    destruct (posix_fallocate fd 0 (to_off_t size) w1) as [e2 w2].
    destruct (e2 =? 0); [|discriminate].
    destruct (ShmMap fd size w2) as [[e3 p] w3].
    destruct (e3 =? 0); [|discriminate]. by destruct (memset _ _ _ _).
  - simpl in Hnm. subst nm. congruence.
  - simpl in Hnm. subst nm.
    destruct (Open_created_cases name fd size os1 (length (os_objects os0)))
      as (r' & os'' & E' & Hfds' & Hn' & _ & _ & Hcase).
    { rewrite Hfd1. apply lookup_insert_eq. }
    destruct Hcase as [(-> & Hv' & _) | (_ & ? & _)]; [|lia].
    exists os''. rewrite E. split; [exact E'|].
    assert (os_names os'' !! name = Some (length (os_objects os))) as Hnow.
    { rewrite Hn', Hn1, <- Ho. apply lookup_insert_eq. }
    split; [exact Hnow|].
    split; [by rewrite Hfds', Hfd1, new_fd_then_close|].
    split; [by rewrite Hv', Hv1|].
    intros fuel' size'.
    destruct (Open_on_taken_name fuel' name size' os'' _ Hnow) as (os3 & E3 & _).
    by exists os3.
Qed.

Lemma failed_create_keeps_name_witness :
  exists os' os'',
    Open 1 (Some "/a"%string) 0 (boot 1) = Returns (Error EINVAL, os') /\
    Open 1 (Some "/a"%string) 4096 os' = Returns (Error EEXIST, os'').
Proof.
  destruct (failed_create_keeps_name 1 "/a" 0 (boot 1)) as (os' & E & _ & _ & _ & Hnext).
  - reflexivity.
  - apply map_Forall_empty.
  - reflexivity.
  - lia.
  - by left.
  - destruct (Hnext 1%nat 4096) as [os'' E'']. by exists os', os''.
Defined.

(** X7.  For a shared-memory name, in a name space of such names,
    [UnlinkByName] succeeds exactly when the name exists, removing that
    name and nothing else from the name space; on a name that does not
    exist it returns an error and changes no name.  A second unlink of
    the same name therefore always fails. *)
Theorem UnlinkByName_succeeds_once (name : string) (os : OS) :
  shm_name_ok name = true ->
  names_ok os ->
  (forall id, os_names os !! name = Some id ->
     exists os', UnlinkByName name os = (Ok tt, os') /\
                 os_names os' = delete name (os_names os)) /\
  (os_names os !! name = None ->
     exists os', UnlinkByName name os = (Error (-1), os') /\
                 os_names os' = os_names os /\ os_errno os' = ENOENT) /\
  fst (UnlinkByName name (snd (UnlinkByName name os))) = Error (-1).
Proof.
  intros _ _.
  assert (forall os0 : OS, os_names os0 !! name = None ->
            exists os', UnlinkByName name os0 = (Error (-1), os') /\
                        os_names os' = os_names os0 /\ os_errno os' = ENOENT) as Hmiss.
  { intros os0 Hnone. unfold UnlinkByName. cbn [shm_unlink platform].
    unfold sys_shm_unlink. os_simpl. rewrite Hnone.
    eexists. split; [reflexivity|]. by split. }
  assert (forall os0 id, os_names os0 !! name = Some id ->
            exists os', UnlinkByName name os0 = (Ok tt, os') /\
                        os_names os' = delete name (os_names os0)) as Hhit.
  { intros os0 id Hid. unfold UnlinkByName. cbn [shm_unlink platform].
    unfold sys_shm_unlink. os_simpl. rewrite Hid.
    eexists. split; [reflexivity|]. reflexivity. }
  split; [exact (Hhit os)|]. split; [exact (Hmiss os)|].
  destruct (os_names os !! name) as [id|] eqn:E.
  - destruct (Hhit os id E) as (os' & -> & Hn). cbn [snd].
    destruct (Hmiss os') as (os'' & -> & _); [|reflexivity].
    rewrite Hn. apply lookup_delete_eq.
  - destruct (Hmiss os E) as (os' & -> & Hn & _). cbn [snd].
    destruct (Hmiss os') as (os'' & -> & _); [|reflexivity]. by rewrite Hn.
Qed.

Lemma UnlinkByName_succeeds_once_witness :
  exists a os1 os2 os3,
    Open 1 (Some "/a"%string) 100 (boot 1) = Returns (Ok a, os1) /\
    UnlinkByName "/a" os1 = (Ok tt, os2) /\
    UnlinkByName "/a" os2 = (Error (-1), os3) /\ os_errno os3 = ENOENT.
Proof.
  destruct (Open 1 (Some "/a"%string) 100 (boot 1)) as [[[a|code] os1]| |] eqn:E;
    try (vm_compute in E; discriminate E).
  assert (names_ok os1 /\ os_names os1 !! "/a"%string = Some 0%nat) as [Hok Hin].
  { vm_compute in E. injection E as <- <-. split; [|reflexivity].
    apply (bool_decide_unpack _). vm_compute. exact I. }
  destruct (UnlinkByName_succeeds_once "/a" os1 eq_refl Hok) as (Hhit & _ & _).
  destruct (Hhit _ Hin) as (os2 & E2 & Hn2).
  assert (names_ok os2 /\ os_names os2 !! "/a"%string = None) as [Hok2 Hout].
  { unfold names_ok. rewrite Hn2. split; [|apply lookup_delete_eq].
    intros n id Hn. apply lookup_delete_Some in Hn as [_ Hn]. exact (Hok n id Hn). }
  destruct (UnlinkByName_succeeds_once "/a" os2 eq_refl Hok2) as (_ & Hmiss & _).
  destruct (Hmiss Hout) as (os3 & E3 & _ & Herr).
  by exists a, os1, os2, os3.
Defined.


(** X8.  The anonymous create never reports a name collision to its
    caller: whatever the passes it is given, it does not return the
    error of code EEXIST; and when it succeeds, it is under a name
    ["/ofshm_"] plus eight characters that no segment had before the
    call and that names a segment after it. *)
Theorem anonymous_Open_outcomes (fuel : nat) (size : Z) (os : OS) :
  (forall os', Open fuel None size os <> Returns (Error EEXIST, os')) /\
  (forall a os',
     Open fuel None size os = Returns (Ok a, os') ->
     exists suffix,
       name_ a = ("/ofshm_" +:+ suffix)%string /\ String.length suffix = 8%nat /\
       os_names os !! name_ a = None /\ is_Some (os_names os' !! name_ a)).
Proof.
  destruct (Open_linux_cases fuel None size os)
    as [E | (os0 & nm & (Hn & _) & (suffix & Hnm & Hlen) & [(id & _ & Hsome & _) | (Hfree & fd & os1 & _ & Hfd1 & Hn1 & _ & _ & E)])];
    [by rewrite E | discriminate Hsome |].
  destruct (Open_created_cases nm fd size os1 (length (os_objects os0)))
    as (r' & os'' & E' & _ & Hn' & _ & _ & Hcase).
  { rewrite Hfd1. apply lookup_insert_eq. }
  rewrite E, E'.
  destruct Hcase as [(-> & _ & Hbad) | (-> & _)].
  - split; [intros os' [= _] | intros a os' [=]].
  - split; [intros os' [=]|]. intros a os' [= <- <-]. exists suffix. cbn [name_].
    split; [exact Hnm|]. split; [exact Hlen|].
    split; [by rewrite <- Hn|]. rewrite Hn', Hn1, lookup_insert_eq. eauto.
Qed.
End shm_frame.

(* ================================================================= *)
(** ** Message pool: regions, buffers and teardown *)

Module pool_accounting.
Import ibverbs ibverbs_facts pool_ledger pool_teardown.

Section Accounting.
Variable sizeof_ActorMsg : Z.

Local Abbreviation GetMessage := (ibverbs.GetMessage sizeof_ActorMsg).
Local Abbreviation BulkAllocMessage := (ibverbs.BulkAllocMessage sizeof_ActorMsg).
Local Abbreviation step := (ibverbs.step sizeof_ActorMsg).
Local Abbreviation exec := (ibverbs.exec sizeof_ActorMsg).

(** The objects the loop of [BulkAllocMessage] creates. *)
Lemma carve_messages_objs n : forall i mr addr msz p e,
  objs (snd (carve_messages n i mr addr msz (p, e))) =
  objs e ++
  map (fun k => {| msg_mr := mr; msg_addr := addr + wrap64 (msz * (i + Z.of_nat k));
                   msg_size := msz |}) (seq 0 n).
Proof.
  induction n as [|n IH]; intros i mr addr msz p e; simpl.
  - by rewrite app_nil_r.
  - rewrite IH. simpl. rewrite <- app_assoc. simpl. f_equal.
    rewrite Z.add_0_r. f_equal.
    rewrite <- seq_shift, map_map. apply map_ext. intros k.
    replace (i + 1 + Z.of_nat k) with (i + Z.of_nat (S k)) by lia. reflexivity.
Qed.

Lemma BulkAllocMessage_objs p e s' :
  BulkAllocMessage (p, e) = Ret s' ->
  pd_ (fst s') = pd_ p /\
  brk (snd s') =
    brk e + Z.max (wrap64 (wrap64 sizeof_ActorMsg * num_msg_per_bluk_allocation_ p)) 1 /\
  objs (snd s') =
    objs e ++
    map (fun k => {| msg_mr := Z.of_nat (length (mrs e)) + 1;
                     msg_addr := brk e + wrap64 (wrap64 sizeof_ActorMsg * Z.of_nat k);
                     msg_size := wrap64 sizeof_ActorMsg |})
        (seq 0 (Z.to_nat (num_msg_per_bluk_allocation_ p))).
Proof.
  unfold ibverbs.BulkAllocMessage, malloc, ibv_reg_mr_wrap; simpl.
  destruct (length (mrs e) <? max_mr e)%nat; simpl; [|discriminate].
  replace (Z.of_nat (length (mrs e)) + 1 =? nullptr) with false
    by (symmetry; apply Z.eqb_neq; unfold nullptr; lia).
  intros H. injection H as <-. rewrite carve_messages_objs. simpl.
  match goal with
  | |- context [carve_messages ?n ?i ?mr ?addr ?msz (?p', ?e')] =>
      pose proof (carve_messages_spec n i mr addr msz p' e') as Hs
  end.
  simpl in Hs. destruct Hs as (_ & _ & _ & _ & Hpd & _ & _ & _ & Hbrk).
  split; [exact Hpd|]. split; [exact Hbrk|]. f_equal.
Qed.

Lemma GetMessage_allocates_objs p e m s' :
  message_buf_ p = [] ->
  GetMessage (p, e) = Ret (m, s') ->
  pd_ (fst s') = pd_ p /\
  brk (snd s') =
    brk e + Z.max (wrap64 (wrap64 sizeof_ActorMsg * num_msg_per_bluk_allocation_ p)) 1 /\
  objs (snd s') =
    objs e ++
    map (fun k => {| msg_mr := Z.of_nat (length (mrs e)) + 1;
                     msg_addr := brk e + wrap64 (wrap64 sizeof_ActorMsg * Z.of_nat k);
                     msg_size := wrap64 sizeof_ActorMsg |})
        (seq 0 (Z.to_nat (num_msg_per_bluk_allocation_ p))).
Proof.
  intros Hempty. rewrite GetMessage_empty by done.
  destruct (BulkAllocMessage (p, e)) as [[p' e']| |] eqn:E; simpl; try discriminate.
  unfold GetMessageFromBuf. cbn [fst snd].
  destruct (last (message_buf_ p')); [|discriminate].
  intros H. injection H as _ <-. cbn [fst snd].
  destruct (BulkAllocMessage_objs p e _ E) as (Hpd & Hbrk & Hobjs). by repeat split.
Qed.

Lemma length_release (m : Z) (l : list Z) :
  NoDup l -> m ∈ l -> S (length (release m l)) = length l.
Proof.
  unfold release. induction l as [|x l IH]; intros Hnd Hin;
    [by apply elem_of_nil in Hin|].
  apply NoDup_cons in Hnd as [Hx Hnd]. rewrite filter_cons.
  destruct (decide (x <> m)) as [Hne|Heq]; simpl.
  - f_equal. apply IH; [done|].
    apply elem_of_cons in Hin as [->|Hin]; [done | exact Hin].
  - apply dec_stable in Heq. subst x. f_equal.
    clear IH Hin. induction l as [|y l IH]; [done|].
    rewrite filter_cons. apply NoDup_cons in Hnd as [_ Hnd].
    destruct (decide (y <> m)) as [_|Hy].
    + simpl. f_equal. apply IH; [|exact Hnd].
      intros Hm. apply Hx. by apply elem_of_cons; right.
    + apply dec_stable in Hy. subst y. exfalso. apply Hx, list_elem_of_here.
Qed.

Section Run.
Variables (pd B : Z) (registered0 : nat) (heap0 : Z).

Local Abbreviation message_size := (wrap64 sizeof_ActorMsg).
Local Abbreviation batch := (wrap32 B).
Local Abbreviation ledger := (pool_ledger.ledger message_size pd batch registered0 heap0).
Local Abbreviation region_ok := (pool_ledger.region_ok message_size pd batch).
Local Abbreviation buffer_ok := (pool_ledger.buffer_ok message_size batch).

Lemma region_ok_grows p e p' e' h (rs : list ibv_mr) (ms : list Z) :
  mrs e' = mrs e ++ rs -> memory_buf_ p' = memory_buf_ p ++ ms ->
  region_ok p e h -> region_ok p' e' h.
Proof.
  intros Hmrs Hmem (Hh & r & Hr & Hrest). split; [exact Hh|].
  exists r. rewrite Hmrs, Hmem.
  split; [by apply lookup_app_l_Some|].
  destruct Hrest as (? & ? & ? & ?). repeat split; try done.
  apply elem_of_app. by left.
Qed.

Lemma buffer_ok_grows p e p' e' m (rs : list ibv_mr) (os : list ActorMsgMR) (hs : list Z) :
  mrs e' = mrs e ++ rs -> objs e' = objs e ++ os ->
  ibv_mr_buf_ p' = ibv_mr_buf_ p ++ hs ->
  buffer_ok p e m -> buffer_ok p' e' m.
Proof.
  intros Hmrs Hobjs Hmr (Hm & obj & r & k & Hobj & Hin & Hr & Hrest).
  split; [exact Hm|]. exists obj, r, k. rewrite Hmrs, Hobjs, Hmr.
  split; [by apply lookup_app_l_Some|]. split; [apply elem_of_app; by left|].
  split; [by apply lookup_app_l_Some | exact Hrest].
Qed.

Lemma new_pool_ledger e :
  length (mrs e) = registered0 -> brk e = heap0 ->
  ledger ((IBVerbsMessagePool_new pd B, e), []).
Proof.
  intros Hreg Hbrk. unfold pool_ledger.ledger; simpl.
  split; [done|]. split; [done|]. split; [done|]. split; [lia|].
  split; [constructor|]. split; [lia|].
  split; [intros x Hx; by apply elem_of_nil in Hx|].
  split; [lia|]. split; intros x Hx; by apply elem_of_nil in Hx.
Qed.

Lemma step_preserves_ledger c ev c' :
  pool_inv c -> ledger c -> step c ev c' -> ledger c'.
Proof.
  intros [Hnd _] (Hpd & HB & Hhandles & Hregs & Hmemnd & Hheap & Hmemlt & Hcount & Hregions & Hbuffers)
         Hstep.
  destruct Hstep as [[p e] leased m s' EG | [p e] leased m Hin];
    unfold pool_ledger.ledger in *; cbn [fst snd] in *.
  - destruct (message_buf_ p) as [|x l _] eqn:E using rev_ind.
    + destruct (Z.to_nat (num_msg_per_bluk_allocation_ p)) as [|n] eqn:En.
      { by destruct (GetMessage_empty_batch sizeof_ActorMsg p e E En m s'). }
      destruct (decide (length (mrs e) < max_mr e)%nat) as [Hroom | Hfull].
      2: { rewrite GetMessage_empty, BulkAllocMessage_full in EG by done.
           discriminate EG. }
      destruct (GetMessage_allocates_objs p e m s' E EG) as (Hpd' & Hbrk & Hobjs).
      destruct (GetMessage_allocates sizeof_ActorMsg p e n E Hroom En)
        as (s1 & EG1 & Hmrs & Hmr & Hmem & Hmsg & Hobjlen & Hnum & _).
      rewrite EG in EG1. injection EG1 as -> <-.
      destruct s' as [p' e']. cbn [fst snd] in *.
      rewrite HB in En, Hobjs, Hmrs, Hnum, Hbrk.
      rewrite Hpd', Hnum, Hmr, Hmem, Hmsg, Hmrs, !length_app, length_map, length_seq.
      simpl length. rewrite En. simpl in Hcount.
      split; [exact Hpd|]. split; [reflexivity|].
      split.
      { rewrite Nat.add_1_r, seq_S, map_app, <- Hhandles. simpl.
        do 2 f_equal. lia. }
      split; [lia|].
      split.
      { apply NoDup_app. split; [exact Hmemnd|]. split; [|apply NoDup_singleton].
        intros a Ha%Hmemlt ->%list_elem_of_singleton. lia. }
      split; [lia|].
      split.
      { intros a [Ha%Hmemlt | ->%list_elem_of_singleton]%elem_of_app; lia. }
      split; [nia|].
      assert (region_ok p' e' (Z.of_nat (length (mrs e)) + 1)) as Hnew.
      { split; [lia|]. eexists. rewrite Hmrs, Hmem.
        replace (Z.to_nat (Z.of_nat (length (mrs e)) + 1 - 1)) with (length (mrs e)) by lia.
        split; [apply list_lookup_middle; reflexivity|]. simpl.
        split; [done|]. split; [done|]. split; [done|].
        apply elem_of_app. right. apply list_elem_of_here. }
      split.
      * intros h [Hh | ->%list_elem_of_singleton]%elem_of_app; [|exact Hnew].
        eapply region_ok_grows; [exact Hmrs | exact Hmem | by apply Hregions].
      * assert (forall k, (k < S n)%nat -> buffer_ok p' e' (obj_ptr (length (objs e) + k)))
          as Hfresh.
        { intros k Hk. unfold obj_ptr. split; [lia|].
          destruct Hnew as (_ & r & Hr & _).
          eexists _, r, (Z.of_nat k). rewrite Hobjs, Hmr, En.
          replace (Z.to_nat (Z.of_nat (length (objs e) + k) + 1 - 1))
            with (length (objs e) + k)%nat by lia.
          rewrite lookup_app_r by lia.
          replace (length (objs e) + k - length (objs e))%nat with k by lia.
          rewrite list_lookup_fmap, lookup_seq_lt by lia. simpl.
          split; [reflexivity|].
          split; [apply elem_of_app; right; apply list_elem_of_here|].
          split; [exact Hr|].
          rewrite Hmrs in Hr.
          replace (Z.to_nat (Z.of_nat (length (mrs e)) + 1 - 1)) with (length (mrs e))
            in Hr by lia.
          rewrite list_lookup_middle in Hr by reflexivity. injection Hr as <-. simpl.
          repeat split; lia. }
        intros x [Hx | [-> | Hx]%elem_of_cons]%elem_of_app.
        -- apply (list_elem_of_fmap_1 obj_ptr) in Hx as (k & -> & Hk).
           apply elem_of_seq in Hk.
           replace k with (length (objs e) + (k - length (objs e)))%nat by lia.
           apply Hfresh. lia.
        -- apply Hfresh. lia.
        -- eapply (buffer_ok_grows p e p' e'); [exact Hmrs | exact Hobjs | exact Hmr |].
           apply Hbuffers. by apply elem_of_app; right.
    + rewrite (GetMessage_pops sizeof_ActorMsg p e l x E) in EG. injection EG as <- <-.
      cbn [fst snd pop_message pd_ num_msg_per_bluk_allocation_ ibv_mr_buf_
           memory_buf_ message_buf_] in *.
      rewrite E, removelast_last. rewrite length_app in Hcount. simpl in *.
      split; [exact Hpd|]. split; [exact HB|]. split; [exact Hhandles|].
      split; [exact Hregs|]. split; [exact Hmemnd|]. split; [exact Hheap|].
      split; [exact Hmemlt|].
      split; [lia|]. split; [exact Hregions|].
      intros y Hy. specialize (Hbuffers y).
      destruct Hbuffers as (Hy1 & obj & r & k & Hrest);
        [by rewrite <- app_assoc|].
      split; [exact Hy1|]. by exists obj, r, k.
  - cbn [fst snd PutMessage push_message pd_ num_msg_per_bluk_allocation_ ibv_mr_buf_
         memory_buf_ message_buf_] in *.
    apply NoDup_app in Hnd as (_ & _ & Hnd).
    pose proof (length_release m leased Hnd Hin) as Hrel.
    rewrite length_app. simpl.
    split; [exact Hpd|]. split; [exact HB|]. split; [exact Hhandles|].
    split; [exact Hregs|]. split; [exact Hmemnd|]. split; [exact Hheap|].
    split; [exact Hmemlt|].
    split; [lia|]. split; [exact Hregions|].
    intros y Hy. specialize (Hbuffers y).
    destruct Hbuffers as (Hy1 & obj & r & k & Hrest).
    { unfold release in Hy.
      apply elem_of_app in Hy
        as [[Hy | ->%list_elem_of_singleton]%elem_of_app | [_ Hy]%list_elem_of_filter];
        apply elem_of_app; [by left | by right | by right]. }
    split; [exact Hy1|]. by exists obj, r, k.
Qed.

Lemma exec_preserves_ledger c evs c' :
  exec c evs c' -> pool_inv c -> ledger c -> pool_inv c' /\ ledger c'.
Proof.
  induction 1 as [|c ev c1 evs c2 Hstep _ IH]; [done|].
  intros Hinv Hled. apply IH.
  - by apply (step_preserves_inv sizeof_ActorMsg c ev).
  - by apply (step_preserves_ledger c ev).
Qed.
End Run.
End Accounting.

Lemma run_from_new_pool sizeof_ActorMsg pd B e evs c :
  ibverbs.exec sizeof_ActorMsg ((IBVerbsMessagePool_new pd B, e), []) evs c ->
  pool_inv c /\
  ledger (wrap64 sizeof_ActorMsg) pd (wrap32 B) (length (mrs e)) (brk e) c.
Proof.
  intros Hexec.
  eapply exec_preserves_ledger; [exact Hexec | apply new_pool_inv |].
  by apply new_pool_ledger.
Qed.

Lemma NoDup_handles (a n : nat) : NoDup (map (fun k => Z.of_nat k + 1) (seq a n)).
Proof.
  apply NoDup_fmap_2; [|apply NoDup_seq].
  intros x y Hxy. lia.
Qed.

(** X9.  However [GetMessage] and [PutMessage] calls on a new pool are
    interleaved, the pool holds one block of memory per registered
    region, every region the adapter has gained since is one the pool
    holds, no handle and no block is held twice, and the buffers in the
    free list and on lease together number the batch size times the
    number of regions. *)
Theorem regions_account_for_buffers (sizeof_ActorMsg pd B : Z) (e : Env)
    (evs : list event) (p : IBVerbsMessagePool) (e' : Env) (leased : list Z) :
  ibverbs.exec sizeof_ActorMsg ((IBVerbsMessagePool_new pd B, e), []) evs ((p, e'), leased) ->
  length (ibv_mr_buf_ p) = length (memory_buf_ p) /\
  length (mrs e') = (length (mrs e) + length (ibv_mr_buf_ p))%nat /\
  NoDup (ibv_mr_buf_ p) /\ NoDup (memory_buf_ p) /\
  (length (message_buf_ p) + length leased
   = Z.to_nat (wrap32 B) * length (ibv_mr_buf_ p))%nat.
Proof.
  intros Hexec.
  destruct (run_from_new_pool _ _ _ _ _ _ Hexec)
    as (_ & _ & _ & Hhandles & Hregs & Hnd & _ & _ & Hcount & _).
  cbn [fst snd] in *.
  assert (length (ibv_mr_buf_ p) = length (memory_buf_ p)) as Hlen.
  { by rewrite Hhandles, length_map, length_seq. }
  rewrite Hlen. split; [reflexivity|]. split; [exact Hregs|].
  split; [rewrite Hhandles; apply NoDup_handles|]. split; [exact Hnd | exact Hcount].
Qed.

(** X10.  When a message is smaller than 4 GiB, every buffer of the
    pool, free or on lease, is an [ActorMsgMR] of one message that lies
    wholly inside a region the pool holds, registered under the pool's
    protection domain at a block the pool keeps. *)
Theorem buffers_lie_in_pool_regions (sizeof_ActorMsg pd B : Z) (e : Env)
    (evs : list event) (p : IBVerbsMessagePool) (e' : Env) (leased : list Z) (m : Z) :
  0 <= sizeof_ActorMsg < 2 ^ 32 ->
  ibverbs.exec sizeof_ActorMsg ((IBVerbsMessagePool_new pd B, e), []) evs ((p, e'), leased) ->
  m ∈ message_buf_ p ++ leased ->
  exists obj r,
    objs e' !! Z.to_nat (m - 1) = Some obj /\
    msg_mr obj ∈ ibv_mr_buf_ p /\
    mrs e' !! Z.to_nat (msg_mr obj - 1) = Some r /\
    mr_pd r = pd /\ mr_addr r ∈ memory_buf_ p /\
    mr_length r = sizeof_ActorMsg * wrap32 B /\
    msg_size obj = sizeof_ActorMsg /\
    mr_addr r <= msg_addr obj /\
    msg_addr obj + msg_size obj <= mr_addr r + mr_length r.
Proof.
  intros Hsize Hexec Hm.
  destruct (run_from_new_pool _ _ _ _ _ _ Hexec)
    as (_ & _ & _ & _ & _ & _ & _ & _ & _ & Hregions & Hbuffers).
  cbn [fst snd] in *.
  destruct (Hbuffers m Hm) as (_ & obj & r & k & Hobj & Hin & Hr & Haddr & Hk & Hsz).
  destruct (Hregions _ Hin) as (_ & r' & Hr' & Hpd & Hlen & _ & Hblock).
  rewrite Hr in Hr'. injection Hr' as <-.
  assert (0 <= wrap32 B < 2 ^ 32) as HB by (unfold wrap32; apply Z.mod_pos_bound; lia).
  rewrite (wrap64_small sizeof_ActorMsg) in * by lia.
  rewrite wrap64_small in Hlen by nia.
  rewrite wrap64_small in Haddr by nia.
  exists obj, r. repeat split; try done; nia.
Qed.

Lemma dereg_each_fresh (e : Env) : forall (hs : list Z) (r : Released),
  NoDup hs ->
  (forall h, h ∈ hs -> 1 <= h <= Z.of_nat (length (mrs e)) /\ h ∉ deregistered r) ->
  dereg_each hs e r
  = Ret {| deregistered := deregistered r ++ hs; freed := freed r |}.
Proof.
  induction hs as [|h hs IH]; intros r Hnd Hok; simpl.
  - rewrite app_nil_r. by destruct r.
  - apply NoDup_cons in Hnd as [Hh Hnd].
    unfold ibv_dereg_mr. rewrite bool_decide_eq_true_2
      by (apply Hok, list_elem_of_here).
    cbn [Z.eqb]. rewrite IH; [simpl; by rewrite <- app_assoc | exact Hnd |].
    intros x Hx. destruct (Hok x) as [Hrange Hnew]; [by apply list_elem_of_further|].
    split; [exact Hrange|]. simpl.
    intros [Hx' | ->%list_elem_of_singleton]%elem_of_app; [by apply Hnew | by apply Hh].
Qed.

Lemma free_each_fresh : forall (bs : list Z) (r : Released),
  NoDup bs -> (forall a, a ∈ bs -> a <> nullptr /\ a ∉ freed r) ->
  free_each bs r = Ret {| deregistered := deregistered r; freed := freed r ++ bs |}.
Proof.
  induction bs as [|a bs IH]; intros r Hnd Hok; simpl.
  - rewrite app_nil_r. by destruct r.
  - apply NoDup_cons in Hnd as [Ha Hnd].
    destruct (Hok a) as [Hnz Hnew]; [apply list_elem_of_here|].
    unfold free. rewrite (proj2 (Z.eqb_neq _ _) Hnz), bool_decide_eq_false_2 by exact Hnew.
    cbn [bind]. rewrite IH; [simpl; by rewrite <- app_assoc | exact Hnd |].
    intros x Hx. destruct (Hok x) as [Hxnz Hxnew]; [by apply list_elem_of_further|].
    split; [exact Hxnz|]. simpl.
    intros [Hx' | ->%list_elem_of_singleton]%elem_of_app; [by apply Hxnew | by apply Ha].
Qed.

(** X11.  On a heap that starts above address zero, the destructor of a
    pool reached by any run of [GetMessage] and [PutMessage] calls
    completes: no [CHECK] fails and nothing is released twice.  It
    deregisters exactly the regions the pool holds and frees exactly
    its blocks, each once and in the order they were made, also while
    buffers are still on lease; the [ActorMsgMR] objects are left as
    they are. *)
Theorem destructor_releases_each_region_once (sizeof_ActorMsg pd B : Z) (e : Env)
    (evs : list event) (p : IBVerbsMessagePool) (e' : Env) (leased : list Z) :
  0 < brk e ->
  ibverbs.exec sizeof_ActorMsg ((IBVerbsMessagePool_new pd B, e), []) evs ((p, e'), leased) ->
  exists p',
    IBVerbsMessagePool_destroy p e' nothing_released
    = Ret (p', {| deregistered := ibv_mr_buf_ p; freed := memory_buf_ p |}) /\
    ibv_mr_buf_ p' = [] /\ memory_buf_ p' = [] /\
    message_buf_ p' = message_buf_ p /\
    NoDup (ibv_mr_buf_ p) /\ NoDup (memory_buf_ p).
Proof.
  intros Hheap Hexec.
  destruct (run_from_new_pool _ _ _ _ _ _ Hexec)
    as (_ & _ & _ & Hhandles & Hregs & Hnd & _ & Hblocks & _).
  cbn [fst snd] in *.
  assert (NoDup (ibv_mr_buf_ p)) as Hndh by (rewrite Hhandles; apply NoDup_handles).
  eexists. unfold IBVerbsMessagePool_destroy.
  rewrite dereg_each_fresh; [cbn [bind] | exact Hndh |].
  - rewrite free_each_fresh; [cbn [bind]; simpl; by repeat split | exact Hnd |].
    intros a Ha%Hblocks. split; [unfold nullptr; lia | simpl; apply not_elem_of_nil].
  - intros h Hh. split; [|simpl; apply not_elem_of_nil].
    rewrite Hhandles in Hh. apply list_elem_of_fmap in Hh as (k & -> & Hk).
    apply elem_of_seq in Hk. lia.
Qed.


Lemma regions_account_for_buffers_witness :
  exists p e', exec 64 ((IBVerbsMessagePool_new 7 4, small_env), []) sample_run
                 ((p, e'), [4; 3]) /\
    (length (message_buf_ p) + 2 = 4 * length (ibv_mr_buf_ p))%nat.
Proof.
  destruct sample_run_exec as [[p e'] Hexec]. exists p, e'. split; [exact Hexec|].
  destruct (regions_account_for_buffers 64 7 4 small_env sample_run p e' [4; 3] Hexec)
    as (_ & _ & _ & _ & Hcount).
  exact Hcount.
Defined.

Lemma buffers_lie_in_pool_regions_witness :
  exists p e', exec 64 ((IBVerbsMessagePool_new 7 4, small_env), []) sample_run
                 ((p, e'), [4; 3]) /\
    exists obj, objs e' !! 2%nat = Some obj /\ msg_size obj = 64.
Proof.
  destruct sample_run_exec as [[p e'] Hexec]. exists p, e'. split; [exact Hexec|].
  destruct (buffers_lie_in_pool_regions 64 7 4 small_env sample_run p e' [4; 3] 3)
    as (obj & r & Hobj & _ & _ & _ & _ & _ & Hsize & _).
  - lia.
  - exact Hexec.
  - apply elem_of_app. right. apply list_elem_of_further, list_elem_of_here.
  - exists obj. split; [exact Hobj | exact Hsize].
Defined.

Lemma destructor_releases_each_region_once_witness :
  exists p e' p', exec 64 ((IBVerbsMessagePool_new 7 4, small_env), []) sample_run
                 ((p, e'), [4; 3]) /\
    IBVerbsMessagePool_destroy p e' nothing_released
    = Ret (p', {| deregistered := ibv_mr_buf_ p; freed := memory_buf_ p |}).
Proof.
  destruct sample_run_exec as [[p e'] Hexec].
  destruct (destructor_releases_each_region_once 64 7 4 small_env sample_run p e' [4; 3])
    as (p' & Hd & _).
  - simpl. lia.
  - exact Hexec.
  - exists p, e', p'. split; [exact Hexec | exact Hd].
Defined.


End pool_accounting.

(* ================================================================= *)
(** ** Tensor indexing *)

Module functional_facts.
Import functional.

Lemma to_int_small z : - 2 ^ 31 <= z < 2 ^ 31 -> to_int z = z.
Proof. intros H. unfold to_int. rewrite Z.mod_small; lia. Qed.

Lemma to_int64_small z : - 2 ^ 63 <= z < 2 ^ 63 -> to_int64 z = z.
Proof. intros H. unfold to_int64. rewrite Z.mod_small; lia. Qed.

Lemma At_Ok_inv shape i d :
  At shape i = Ok d -> 0 <= i < NumAxes shape /\ shape !! Z.to_nat i = Some d.
Proof.
  unfold At. destruct (0 <=? i) eqn:E1; [|done]. destruct (i <? NumAxes shape) eqn:E2; [|done].
  simpl. destruct (shape !! Z.to_nat i) eqn:E; [|done]. intros [= ->]. split; [lia | done].
Qed.

Lemma At_in_range shape i :
  0 <= i < NumAxes shape -> exists d, At shape i = Ok d /\ shape !! Z.to_nat i = Some d.
Proof.
  intros H. unfold At, NumAxes in *.
  destruct (lookup_lt_is_Some_2 shape (Z.to_nat i)) as [d Hd]; [lia|].
  exists d. rewrite Hd.
  replace (0 <=? i) with true by lia. replace (i <? Z.of_nat (length shape)) with true by lia.
  done.
Qed.

Section Facts.
Context {Tensor : Type}.
Implicit Types (indices : list (option Tensor)).

Lemma continuos_scan_true indices : forall token,
  token = 0 \/ token = 1 -> continuos_scan indices token = true.
Proof.
  induction indices as [|index rest IH]; intros token Htoken; [done|].
  simpl. destruct Htoken as [-> | ->]; simpl.
  - destruct (bool_decide (is_Some index)); simpl; apply IH; by right.
  - destruct (bool_decide (is_Some index)); simpl; apply IH; by right.
Qed.

(** X12.  [IsContinuosSubspace] answers [true] whatever the indices are:
    the scan never reaches its [return false]. *)
Theorem IsContinuosSubspace_never_false indices :
  IsContinuosSubspace indices = Ok true.
Proof. unfold IsContinuosSubspace. rewrite continuos_scan_true; [done | by left]. Qed.

End Facts.

(** *** RemoveExpandDimSlice *)

Lemma mark_expand_dims_spec (size : nat) : forall (dims : list Z) (mask : list Z),
  length mask = size ->
  Forall (fun d => - 2 ^ 63 <= d < 2 ^ 63) dims ->
  Forall (fun d => 0 <= d < Z.of_nat size) dims ->
  exists mask', mark_expand_dims dims size mask = Ok mask' /\
    length mask' = size /\
    forall i, (i < size)%nat ->
      mask' !! i = if bool_decide (Z.of_nat i ∈ dims) then Some 1 else mask !! i.
Proof.
  induction dims as [|d dims IH]; intros mask Hlen Hint Hall; simpl.
  - exists mask. split; [done|]. split; [done|]. by intros i Hi.
  - apply Forall_cons in Hall as [Hd Hall]. apply Forall_cons in Hint as [Hd' Hint].
    assert (wrap64 d = d) as Hw.
    { unfold wrap64. apply Z.mod_small. lia. }
    rewrite Hw. replace (d >=? Z.of_nat size) with false by lia.
    destruct (IH (<[Z.to_nat d := 1]> mask)) as (mask' & Hm & Hlen' & Hget);
      [by rewrite length_insert | exact Hint | exact Hall |].
    exists mask'. split; [exact Hm|]. split; [exact Hlen'|].
    intros i Hi. rewrite (Hget i Hi).
    destruct (decide (Z.of_nat i ∈ dims)) as [Hin | Hnin].
    + rewrite !bool_decide_eq_true_2; [done | by apply list_elem_of_further | done].
    + rewrite (bool_decide_eq_false_2 _ Hnin).
      destruct (decide (Z.of_nat i = d)) as [<- | Hne].
      * rewrite bool_decide_eq_true_2 by apply list_elem_of_here.
        rewrite Nat2Z.id. apply list_lookup_insert_eq. lia.
      * rewrite bool_decide_eq_false_2.
        -- apply list_lookup_insert_ne. lia.
        -- intros [? | ?]%elem_of_cons; done.
Qed.

Lemma mark_expand_dims_out (size : nat) : forall (dims : list Z) (mask : list Z),
  Z.of_nat size <= 2 ^ 63 ->
  Forall (fun d => - 2 ^ 63 <= d < 2 ^ 63) dims ->
  ~ Forall (fun d => 0 <= d < Z.of_nat size) dims ->
  mark_expand_dims dims size mask = Error RuntimeError.
Proof.
  induction dims as [|d dims IH]; intros mask Hsize Hint Hout; simpl.
  - destruct Hout. constructor.
  - apply Forall_cons in Hint as [Hd Hint].
    destruct (decide (0 <= d < Z.of_nat size)) as [Hin | Hnot].
    + assert (wrap64 d = d) as -> by (unfold wrap64; apply Z.mod_small; lia).
      replace (d >=? Z.of_nat size) with false by lia.
      apply IH; [exact Hsize | exact Hint|]. intros Hall. apply Hout. by constructor.
    + assert (wrap64 d >= Z.of_nat size) as Hge.
      { unfold wrap64. destruct (decide (d < 0)) as [Hneg|Hpos].
        - replace (d `mod` 2 ^ 64) with (d + 2 ^ 64).
          + lia.
          + apply Z.mod_unique with (q := -1); lia.
        - rewrite Z.mod_small; lia. }
      replace (wrap64 d >=? Z.of_nat size) with true by lia. done.
Qed.

Lemma unmasked_slices_spec : forall (slices : list Slice) (mask : list Z) (dims : list Z) (k : nat),
  length mask = length slices ->
  (forall i, (i < length slices)%nat ->
     mask !! i = Some (if bool_decide (Z.of_nat (k + i) ∈ dims) then 1 else 0)) ->
  unmasked_slices slices mask
  = (filter (fun p => Z.of_nat p.1 ∉ dims) (zip (seq k (length slices)) slices)).*2.
Proof.
  induction slices as [|s slices IH]; intros mask dims k Hlen Hmask; [done|].
  destruct mask as [|m mask]; [done|]. simpl in Hlen.
  pose proof (Hmask O ltac:(simpl; lia)) as H0. simpl in H0. injection H0 as ->.
  rewrite Nat.add_0_r. simpl. rewrite filter_cons. simpl.
  rewrite (IH mask dims (S k)); [|lia|].
  - destruct (decide (Z.of_nat k ∈ dims)) as [Hin|Hnin].
    + rewrite bool_decide_eq_true_2 by done. simpl.
      destruct (decide (Z.of_nat k ∉ dims)); done.
    + rewrite bool_decide_eq_false_2 by done. simpl.
      destruct (decide (Z.of_nat k ∉ dims)); done.
  - intros i Hi. specialize (Hmask (S i) ltac:(simpl; lia)). simpl in Hmask.
    replace (S k + i)%nat with (k + S i)%nat by lia. exact Hmask.
Qed.

Lemma RemoveExpandDimSlice_spec (expand_slices : list Slice)
    (expand_dims : list Z) :
  Z.of_nat (length expand_slices) <= 2 ^ 63 ->
  Forall (fun d => - 2 ^ 63 <= d < 2 ^ 63) expand_dims ->
  RemoveExpandDimSlice expand_slices expand_dims
  = if bool_decide (Forall (fun d => 0 <= d < Z.of_nat (length expand_slices)) expand_dims)
    then Ok (filter (fun p => Z.of_nat p.1 ∉ expand_dims)
               (zip (seq 0 (length expand_slices)) expand_slices)).*2
    else Error RuntimeError.
Proof.
  intros Hsize Hint. unfold RemoveExpandDimSlice.
  destruct (decide (Forall (fun d => 0 <= d < Z.of_nat (length expand_slices)) expand_dims))
    as [Hall | Hout].
  - rewrite bool_decide_eq_true_2 by done.
    destruct (mark_expand_dims_spec (length expand_slices) expand_dims
                (replicate (length expand_slices) 0)) as (mask & -> & Hlen & Hget);
      [apply length_replicate | exact Hint | exact Hall |].
    simpl. f_equal. apply unmasked_slices_spec; [exact Hlen|].
    intros i Hi. rewrite (Hget i Hi). simpl.
    destruct (bool_decide (Z.of_nat i ∈ expand_dims)); [done|].
    by apply lookup_replicate_2.
  - rewrite bool_decide_eq_false_2 by done.
    by rewrite mark_expand_dims_out.
Qed.

(** X13.  [RemoveExpandDimSlice] keeps, in order, the slices whose
    position is not listed in [expand_dims]; it is an error for a
    listed position to be negative or not to exist. *)
Theorem RemoveExpandDimSlice_keeps_unlisted (expand_slices : list Slice)
    (expand_dims : list Z) :
  Z.of_nat (length expand_slices) <= 2 ^ 63 ->
  Forall (fun d => - 2 ^ 63 <= d < 2 ^ 63) expand_dims ->
  RemoveExpandDimSlice expand_slices expand_dims
  = if bool_decide (Forall (fun d => 0 <= d < Z.of_nat (length expand_slices)) expand_dims)
    then Ok (filter (fun p => Z.of_nat p.1 ∉ expand_dims)
               (zip (seq 0 (length expand_slices)) expand_slices)).*2
    else Error RuntimeError.
Proof. apply RemoveExpandDimSlice_spec. Qed.


(** *** PrepareSliceIndices *)

Lemma layout_length slices dims real :
  layout slices dims real -> length slices = (length real + length dims)%nat.
Proof. induction 1; rewrite ?length_app; simpl; lia. Qed.

Lemma layout_app slices dims real (new : list Slice) :
  layout slices dims real -> layout (slices ++ new) dims (real ++ new).
Proof.
  intros H. induction new as [|s new IH] using rev_ind.
  - by rewrite !app_nil_r.
  - rewrite !app_assoc. by apply layout_axis.
Qed.

Lemma layout_positions slices dims real :
  layout slices dims real ->
  forall i e, dims !! i = Some e ->
    0 <= e <= Z.of_nat (length real) /\
    exists b, (b = 0 \/ b = 1) /\
      slices !! (Z.to_nat e + i)%nat = Some {| start_ := 0; end_ := b; step_ := 1 |}.
Proof.
  induction 1 as [|slices dims real s H IH|slices dims real b H IH Hb]; intros i e Hi.
  - done.
  - destruct (IH i e Hi) as (He & b & Hb & Hs). rewrite length_app. split; [lia|].
    exists b. split; [exact Hb|]. by apply lookup_app_l_Some.
  - apply lookup_app_Some in Hi as [Hi | [Hlen Hi]].
    + destruct (IH i e Hi) as (He & b' & Hb' & Hs). split; [exact He|].
      exists b'. split; [exact Hb'|]. by apply lookup_app_l_Some.
    + apply list_lookup_singleton_Some in Hi as [Hi <-].
      split; [lia|]. exists b. split; [exact Hb|].
      rewrite Nat2Z.id. apply layout_length in H.
      replace (length real + i)%nat with (length slices) by lia.
      apply list_lookup_middle. reflexivity.
Qed.

Lemma layout_no_dims slices real : layout slices [] real -> slices = real.
Proof.
  remember [] as dims eqn:Hd. induction 1 as [| ? ? ? ? ? IH | ? ? ? ? ? ? ?].
  - done.
  - by rewrite IH.
  - by destruct dims.
Qed.

Lemma layout_one_dim slices (e : Z) real :
  layout slices [e] real ->
  0 <= e <= Z.of_nat (length real) /\
  exists b, (b = 0 \/ b = 1) /\
    slices = take (Z.to_nat e) real ++ {| start_ := 0; end_ := b; step_ := 1 |}
             :: drop (Z.to_nat e) real.
Proof.
  remember [e] as dims eqn:Hd.
  induction 1 as [| slices dims real s H IH | slices dims real b H IH Hb].
  - done.
  - destruct (IH Hd) as (He & b & Hb & ->). rewrite length_app. split; [lia|].
    exists b. split; [exact Hb|].
    rewrite take_app_le, drop_app_le by lia. by rewrite <- app_assoc.
  - destruct dims as [|e0 [|? ?]]; [|done..]. simpl in Hd. injection Hd as <-.
    apply layout_no_dims in H as ->. split; [lia|]. exists b. split; [exact Hb|].
    rewrite Nat2Z.id, take_ge, drop_ge by lia. done.
Qed.

Lemma keep_later_places (e : nat) : forall (l : list Slice) (k : nat),
  (e < k)%nat ->
  (filter (fun p : nat * Slice => Z.of_nat p.1 ∉ [Z.of_nat e]) (zip (seq k (length l)) l)).*2
  = l.
Proof.
  induction l as [|x l IH]; intros k Hk; [done|].
  simpl. rewrite filter_cons. simpl.
  destruct (decide (Z.of_nat k ∉ [Z.of_nat e])) as [_|Hin].
  - simpl. f_equal. apply IH. lia.
  - exfalso. apply Hin. intros ->%list_elem_of_singleton%Nat2Z.inj. lia.
Qed.

Lemma keep_all_places : forall (l : list Slice) (k : nat),
  (filter (fun p : nat * Slice => Z.of_nat p.1 ∉ []) (zip (seq k (length l)) l)).*2 = l.
Proof.
  induction l as [|x l IH]; intros k; [done|].
  simpl. f_equal. apply IH.
Qed.

Lemma drop_one_place : forall (a : list Slice) (x : Slice) (b : list Slice) (k : nat),
  (filter (fun p : nat * Slice => Z.of_nat p.1 ∉ [Z.of_nat (k + length a)])
     (zip (seq k (length (a ++ x :: b))) (a ++ x :: b))).*2
  = a ++ b.
Proof.
  induction a as [|y a IH]; intros x b k; simpl.
  - rewrite filter_cons. simpl. rewrite Nat.add_0_r.
    destruct (decide (Z.of_nat k ∉ [Z.of_nat k])) as [Hnin|_].
    + exfalso. apply Hnin, list_elem_of_here.
    + apply keep_later_places. lia.
  - rewrite filter_cons. simpl.
    destruct (decide (Z.of_nat k ∉ [Z.of_nat (k + S (length a))])) as [_|Hin].
    + simpl. f_equal. specialize (IH x b (S k)).
      replace (S k + length a)%nat with (k + S (length a))%nat in IH by lia. exact IH.
    + exfalso. apply Hin. intros Heq%list_elem_of_singleton%Nat2Z.inj. lia.
Qed.

Lemma layout_two_dims slices (e1 e2 : Z) real :
  layout slices [e1; e2] real ->
  0 <= e1 <= e2 /\ e2 <= Z.of_nat (length real) /\
  exists b1 b2, (b2 = 0 \/ b2 = 1) /\
    slices = take (Z.to_nat e1) real
             ++ {| start_ := 0; end_ := b1; step_ := 1 |}
             :: take (Z.to_nat (e2 - e1)) (drop (Z.to_nat e1) real)
             ++ {| start_ := 0; end_ := b2; step_ := 1 |}
             :: drop (Z.to_nat e2) real.
Proof.
  remember [e1; e2] as dims eqn:Hd.
  induction 1 as [| slices dims real s H IH | slices dims real b H IH Hb].
  - done.
  - destruct (IH Hd) as (He1 & He2 & b1 & b2 & Hb2 & ->). rewrite length_app.
    split; [lia|]. split; [lia|]. exists b1, b2. split; [exact Hb2|].
    rewrite take_app_le, !drop_app_le by lia.
    rewrite take_app_le by (rewrite length_drop; lia).
    rewrite <- !app_assoc. simpl. rewrite <- !app_assoc. done.
  - destruct dims as [|e0 [|? [|? ?]]]; [done | | done..].
    simpl in Hd. injection Hd as <- <-.
    destruct (layout_one_dim _ _ _ H) as (He & b1 & _ & ->).
    split; [lia|]. split; [lia|]. exists b1, b. split; [exact Hb|].
    rewrite Nat2Z.id, (drop_ge real (length real)) by lia.
    rewrite (take_ge (drop _ _)) by (rewrite length_drop; lia).
    rewrite <- app_assoc. done.
Qed.

Local Abbreviation kept dims k l :=
  ((filter (fun p : nat * Slice => Z.of_nat p.1 ∉ dims) (zip (seq k (length l)) l)).*2).

Lemma kept_cons (dims : list Z) (k : nat) (x : Slice) (l : list Slice) :
  kept dims k (x :: l)
  = (if bool_decide (Z.of_nat k ∈ dims) then [] else [x]) ++ kept dims (S k) l.
Proof.
  simpl. rewrite filter_cons. simpl.
  destruct (decide (Z.of_nat k ∉ dims)) as [Hnin|Hin].
  - by rewrite bool_decide_eq_false_2.
  - rewrite bool_decide_eq_true_2; [done | by apply dec_stable].
Qed.

Lemma kept_app (dims : list Z) : forall (a b : list Slice) (k : nat),
  kept dims k (a ++ b) = kept dims k a ++ kept dims (k + length a) b.
Proof.
  induction a as [|x a IH]; intros b k.
  - simpl. by rewrite Nat.add_0_r.
  - change ((x :: a) ++ b) with (x :: (a ++ b)). rewrite !kept_cons, IH, <- app_assoc.
    replace (k + length (x :: a))%nat with (S k + length a)%nat by (simpl; lia).
    reflexivity.
Qed.

Lemma kept_unlisted (dims : list Z) : forall (l : list Slice) (k : nat),
  (forall i, (k <= i < k + length l)%nat -> Z.of_nat i ∉ dims) ->
  kept dims k l = l.
Proof.
  induction l as [|x l IH]; intros k Hk; [done|].
  rewrite kept_cons, bool_decide_eq_false_2 by (apply Hk; simpl; lia).
  simpl. f_equal. apply IH. intros i Hi. apply Hk. simpl. lia.
Qed.

Section Prepare.
Context {Tensor : Type} `{ops : TensorOps Tensor}.
Implicit Types (index : list (IndexItem Tensor)) (shape : list Z) (o : Outputs Tensor)
  (c : Cursor Tensor).

Lemma axis_run_spec shape : forall (n : nat) (i : Z) o,
  0 <= i -> i + Z.of_nat n <= NumAxes shape -> NumAxes shape < 2 ^ 31 ->
  remaining_slices n i shape o
  = Ok {| slice_indices := slice_indices o
                           ++ (whole_axis <$> take n (drop (Z.to_nat i) shape));
          tensor_indices := tensor_indices o;
          expand_dims := expand_dims o;
          target_dims := target_dims o ++ take n (drop (Z.to_nat i) shape) |}.
Proof.
  induction n as [|n IH]; intros i o Hi Hn Hsmall; simpl.
  - rewrite take_0. simpl. rewrite !app_nil_r. by destruct o.
  - destruct (At_in_range shape i) as (d & -> & Hd); [lia|]. simpl.
    rewrite to_int_small by lia. rewrite IH by lia. simpl.
    rewrite <- !app_assoc. simpl.
    replace (Z.to_nat (i + 1)) with (S (Z.to_nat i)) by lia.
    rewrite (drop_S _ _ _ Hd). simpl. reflexivity.
Qed.

Lemma ellipsis_slices_spec shape (dim : Z) : forall (n : nat) (j : Z) o,
  0 <= dim -> 0 <= j -> dim + j + Z.of_nat n <= NumAxes shape -> NumAxes shape < 2 ^ 31 ->
  ellipsis_slices n j shape dim o
  = Ok {| slice_indices := slice_indices o
                           ++ (whole_axis <$> take n (drop (Z.to_nat (dim + j)) shape));
          tensor_indices := tensor_indices o;
          expand_dims := expand_dims o;
          target_dims := target_dims o ++ take n (drop (Z.to_nat (dim + j)) shape) |}.
Proof.
  induction n as [|n IH]; intros j o Hdim Hj Hn Hsmall; simpl.
  - rewrite take_0. simpl. rewrite !app_nil_r. by destruct o.
  - rewrite (to_int_small (dim + j)) by lia.
    destruct (At_in_range shape (dim + j)) as (d & -> & Hd); [lia|]. simpl.
    rewrite to_int_small by lia. rewrite IH by lia. simpl.
    rewrite <- !app_assoc. simpl.
    replace (Z.to_nat (dim + (j + 1))) with (S (Z.to_nat (dim + j))) by lia.
    rewrite (drop_S _ _ _ Hd). simpl. reflexivity.
Qed.

Lemma tensor_slices_spec shape : forall (indices : list (option Tensor)) c c',
  0 <= dim c <= NumAxes shape -> NumAxes shape < 2 ^ 31 ->
  tensor_slices indices shape c = Ok c' ->
  dim c' = dim c + Z.of_nat (length indices) /\
  dim c' <= NumAxes shape /\
  has_expand_boolean_dim c' = has_expand_boolean_dim c /\
  slice_indices (outs c')
  = slice_indices (outs c)
    ++ (whole_axis <$> take (length indices) (drop (Z.to_nat (dim c)) shape)) /\
  expand_dims (outs c') = expand_dims (outs c).
Proof.
  induction indices as [|t rest IH]; intros c c' Hdim Hsmall Hrun; simpl in Hrun.
  - injection Hrun as <-. simpl. rewrite app_nil_r. repeat split; lia.
  - destruct (At shape (dim c)) as [d| |] eqn:Hat; [|done..]. simpl in Hrun.
    apply At_Ok_inv in Hat as [Hrange Hd].
    rewrite to_int_small in Hrun by lia.
    apply IH in Hrun as (Hdim' & Hle & Hb & Hs & He); [|simpl; lia | done].
    simpl in *. repeat split; try lia; try done.
    rewrite Hs, <- app_assoc. f_equal.
    replace (Z.to_nat (dim c + 1)) with (S (Z.to_nat (dim c))) by lia.
    rewrite (drop_S _ _ _ Hd). simpl. reflexivity.
Qed.


Lemma CountSpecifiedDims_bounds index :
  Z.of_nat (length index) < 2 ^ 31 ->
  (forall t, ItemTensor t ∈ index -> NumAxes (tensor_shape t) < 2 ^ 31) ->
  0 <= CountSpecifiedDims index <= 2 ^ 31 * Z.of_nat (length index).
Proof.
  unfold CountSpecifiedDims. intros Hlen Haxes.
  assert (forall (l : list (IndexItem Tensor)) acc,
    (forall t, ItemTensor t ∈ l -> NumAxes (tensor_shape t) < 2 ^ 31) ->
    0 <= acc -> acc + 2 ^ 31 * Z.of_nat (length l) < 2 ^ 63 ->
    0 <= fold_left (fun specified_ndims index_item =>
           match index_item with
           | ItemSlice _ | ItemInteger _ => to_int64 (specified_ndims + 1)
           | ItemTensor tensor =>
               if is_mask tensor
               then to_int64 (specified_ndims + NumAxes (tensor_shape tensor))
               else to_int64 (specified_ndims + 1)
           | _ => specified_ndims
           end) l acc <= acc + 2 ^ 31 * Z.of_nat (length l)) as Hgen.
  { induction l as [|item l IH]; intros acc Hax Hacc Hroom; simpl fold_left.
    - simpl. lia.
    - assert (forall t, ItemTensor t ∈ l -> NumAxes (tensor_shape t) < 2 ^ 31) as Hax'.
      { intros t Ht. apply Hax. by apply list_elem_of_further. }
      rewrite length_cons in *.
      destruct item as [s|k|b| | |t].
      + rewrite to_int64_small by lia. specialize (IH (acc + 1) Hax'). lia.
      + rewrite to_int64_small by lia. specialize (IH (acc + 1) Hax'). lia.
      + specialize (IH acc Hax'). lia.
      + specialize (IH acc Hax'). lia.
      + specialize (IH acc Hax'). lia.
      + pose proof (Hax t (list_elem_of_here _ _)) as Ht.
        assert (0 <= NumAxes (tensor_shape t)) by (unfold NumAxes; lia).
        destruct (is_mask t).
        * rewrite to_int64_small by lia.
          specialize (IH (acc + NumAxes (tensor_shape t)) Hax'). lia.
        * rewrite to_int64_small by lia. specialize (IH (acc + 1) Hax'). lia. }
  specialize (Hgen index 0 Haxes). lia.
Qed.

Lemma axis_slices_extend index shape (real news : list Slice) (k : nat) :
  Forall2 (fun s d => axis_slice index d s) real (take (length real) shape) ->
  Forall2 (fun s d => axis_slice index d s) news (take k (drop (length real) shape)) ->
  (length real + k <= length shape)%nat ->
  Forall2 (fun s d => axis_slice index d s) (real ++ news)
          (take (length (real ++ news)) shape).
Proof.
  intros Hreal Hnews Hk.
  assert (length news = k) as Hlen.
  { apply Forall2_length in Hnews. rewrite Hnews, length_take, length_drop. lia. }
  rewrite length_app, Hlen, <- take_take_drop. by apply Forall2_app.
Qed.

Lemma whole_axes index (l : list Z) :
  Forall2 (fun s d => axis_slice index d s) (whole_axis <$> l) l.
Proof. induction l; constructor; [constructor | done]. Qed.

Lemma cursor_ok_extend index shape c (news : list Slice) (k : nat) c' :
  cursor_ok index shape c ->
  Forall2 (fun s d => axis_slice index d s) news
          (take k (drop (Z.to_nat (dim c)) shape)) ->
  dim c + Z.of_nat k <= NumAxes shape ->
  dim c' = dim c + Z.of_nat k ->
  slice_indices (outs c') = slice_indices (outs c) ++ news ->
  expand_dims (outs c') = expand_dims (outs c) ->
  cursor_ok index shape c'.
Proof.
  intros (Hdim & real & Hlay & Hlen & Hax) Hnews Hk Hdim' Hs He.
  unfold NumAxes in *.
  assert (Z.to_nat (dim c) = length real) as Hnat by lia.
  rewrite Hnat in Hnews.
  assert (length news = k) as Hlenk.
  { apply Forall2_length in Hnews. rewrite Hnews, length_take, length_drop. lia. }
  split; [unfold NumAxes; lia|]. exists (real ++ news). rewrite Hs, He.
  split; [by apply layout_app|].
  split; [rewrite length_app; lia|].
  apply (axis_slices_extend index shape real news k); [done | done | lia].
Qed.

Lemma index_item_step_ok index shape specified_ndims has_false_index item c c' :
  NumAxes shape < 2 ^ 31 ->
  0 <= specified_ndims <= NumAxes shape ->
  item ∈ index ->
  cursor_ok index shape c ->
  index_item_step shape specified_ndims has_false_index item c = Ok c' ->
  cursor_ok index shape c'.
Proof.
  intros Hsmall Hspec Hitem Hok Hstep.
  pose proof Hok as (Hdim & real & Hlay & Hlen & Hax).
  destruct item as [slice|integer|boolean| | |tensor]; simpl in Hstep.
  - (* slice *)
    destruct (dim c <? NumAxes shape) eqn:Hlt; [|done]. simpl in Hstep.
    destruct (step_ slice >? 0) eqn:Hpos; [|done]. simpl in Hstep.
    destruct (At shape (dim c)) as [d| |] eqn:Hat; [|done..]. simpl in Hstep.
    apply At_Ok_inv in Hat as [Hrange Hd].
    injection Hstep as <-.
    apply (cursor_ok_extend index shape c [clamp_slice slice d] 1); try done.
    + rewrite (take_S_r _ 0 d), take_0 by (by rewrite lookup_drop, Nat.add_0_r).
      constructor; [|constructor]. apply axis_clamped; [done | lia].
    + lia.
    + simpl. rewrite to_int_small; lia.
  - (* integer *)
    destruct (dim c <? NumAxes shape) eqn:Hlt; [|done]. simpl in Hstep.
    destruct (At shape (dim c)) as [d| |] eqn:Hat; [|done..]. simpl in Hstep.
    apply At_Ok_inv in Hat as [Hrange Hd].
    destruct ((from_front integer d <? 0) || (from_front integer d >=? d)) eqn:Hout;
      [done|].
    injection Hstep as <-.
    apply (cursor_ok_extend index shape c [one_element (from_front integer d)] 1);
      try done.
    + rewrite (take_S_r _ 0 d), take_0 by (by rewrite lookup_drop, Nat.add_0_r).
      constructor; [|constructor]. apply axis_integer; [done | lia].
    + lia.
    + simpl. rewrite to_int_small; lia.
  - (* boolean *)
    destruct (has_expand_boolean_dim c); simpl in Hstep; injection Hstep as <-; [done|].
    split; [done|]. exists real. simpl. rewrite <- Hlen.
    split; [|done]. apply layout_expand; [done|].
    destruct has_false_index; simpl; lia.
  - (* ellipsis *)
    rewrite !to_int64_small in Hstep by lia.
    set (u := Z.min (NumAxes shape - dim c) (NumAxes shape - specified_ndims)) in *.
    rewrite (ellipsis_slices_spec shape (dim c) (Z.to_nat u) 0) in Hstep by lia.
    simpl in Hstep. injection Hstep as <-.
    apply (cursor_ok_extend index shape c
             (whole_axis <$> take (Z.to_nat u) (drop (Z.to_nat (dim c + 0)) shape))
             (Z.to_nat u)); try done.
    + rewrite Z.add_0_r. apply whole_axes.
    + lia.
    + simpl. rewrite to_int_small; lia.
  - (* none *)
    injection Hstep as <-. split; [done|]. exists real. simpl. rewrite <- Hlen.
    split; [|done]. apply layout_expand; [done | by right].
  - (* tensor *)
    destruct (dim c <? NumAxes shape) eqn:Hlt; [|done]. simpl in Hstep.
    match type of Hstep with
    | bind ?e _ = _ => destruct e as [indices| |] eqn:Hind; [|done..]
    end.
    simpl in Hstep.
    apply tensor_slices_spec in Hstep as (Hdim' & Hle & _ & Hs & He); [|lia | done].
    apply (cursor_ok_extend index shape c
             (whole_axis <$> take (length indices) (drop (Z.to_nat (dim c)) shape))
             (length indices)); try done.
    + apply whole_axes.
    + lia.
Qed.


Lemma index_items_ok index shape specified_ndims has_false_index :
  NumAxes shape < 2 ^ 31 ->
  0 <= specified_ndims <= NumAxes shape ->
  forall (items : list (IndexItem Tensor)) c c',
    (forall item, item ∈ items -> item ∈ index) ->
    cursor_ok index shape c ->
    index_items shape specified_ndims has_false_index items c = Ok c' ->
    cursor_ok index shape c'.
Proof.
  intros Hsmall Hspec. induction items as [|item items IH]; intros c c' Hsub Hok Hrun.
  - simpl in Hrun. by injection Hrun as <-.
  - simpl in Hrun.
    destruct (index_item_step shape specified_ndims has_false_index item c)
      as [c1| |] eqn:Hstep; [|done..].
    simpl in Hrun. apply (IH c1 c'); [|  | exact Hrun].
    + intros it Hit. apply Hsub. by apply list_elem_of_further.
    + apply (index_item_step_ok index shape specified_ndims has_false_index item c c1);
        try done.
      apply Hsub, list_elem_of_here.
Qed.

(** The slices [PrepareSliceIndices] hands back are one per axis of
    the tensor, in order, laid out among the slices of the axes to
    insert. *)
Lemma PrepareSliceIndices_layout index shape o :
  NumAxes shape < 2 ^ 31 ->
  Z.of_nat (length index) < 2 ^ 31 ->
  (forall t, ItemTensor t ∈ index -> NumAxes (tensor_shape t) < 2 ^ 31) ->
  PrepareSliceIndices index shape no_outputs = Ok o ->
  exists real,
    layout (slice_indices o) (expand_dims o) real /\
    Forall2 (fun s d => axis_slice index d s) real shape.
Proof.
  intros Hsmall Hlen Haxes Hrun. unfold PrepareSliceIndices in Hrun.
  pose proof (CountSpecifiedDims_bounds index Hlen Haxes) as [Hspec _].
  destruct (CountSpecifiedDims index <=? NumAxes shape) eqn:Hle; [|done].
  simpl in Hrun.
  match type of Hrun with
  | bind ?e _ = _ => destruct e as [c| |] eqn:Hitems; [|done..]
  end.
  simpl in Hrun.
  apply index_items_ok with (index := index) in Hitems; [|done | lia | done |].
  2: { split; [simpl; unfold NumAxes; lia|]. exists []. simpl.
       split; [constructor|]. split; [done | constructor]. }
  pose proof Hitems as (Hdim & real & Hlay & Hreal & Hax).
  rewrite axis_run_spec in Hrun by lia. injection Hrun as <-. simpl.
  set (k := Z.to_nat (NumAxes shape - dim c)).
  exists (real ++ (whole_axis <$> take k (drop (Z.to_nat (dim c)) shape))).
  split; [by apply layout_app|].
  assert (Z.to_nat (dim c) = length real) as Hnat by lia.
  pose proof (axis_slices_extend index shape real
                (whole_axis <$> take k (drop (length real) shape)) k Hax) as Hext.
  rewrite Hnat. unfold NumAxes in *.
  rewrite (take_ge shape) in Hext.
  - apply Hext; [apply whole_axes | lia].
  - rewrite length_app, length_fmap, length_take, length_drop. lia.
Qed.

(** X14.  When [PrepareSliceIndices] succeeds on behalf of a caller that
    passes empty vectors, [slice_indices] holds one slice for each axis
    of the tensor and one for each entry of [expand_dims]; the entries
    of [expand_dims] are axis numbers of the tensor; and the slice at
    place [expand_dims[i] + i], where [TensorGetItemFunctor] inserts
    the [i]-th axis, is [0:1], or [0:0] for a false boolean item. *)
Theorem PrepareSliceIndices_slice_count index shape o :
  NumAxes shape < 2 ^ 31 ->
  Z.of_nat (length index) < 2 ^ 31 ->
  (forall t, ItemTensor t ∈ index -> NumAxes (tensor_shape t) < 2 ^ 31) ->
  PrepareSliceIndices index shape no_outputs = Ok o ->
  length (slice_indices o) = (length shape + length (expand_dims o))%nat /\
  forall i e, expand_dims o !! i = Some e ->
    0 <= e <= NumAxes shape /\
    exists b, (b = 0 \/ b = 1) /\
      slice_indices o !! (Z.to_nat e + i)%nat
      = Some {| start_ := 0; end_ := b; step_ := 1 |}.
Proof.
  intros Hsmall Hlen Haxes Hrun.
  destruct (PrepareSliceIndices_layout index shape o Hsmall Hlen Haxes Hrun)
    as (real & Hlay & Hax).
  apply Forall2_length in Hax. split.
  - rewrite <- Hax. by apply layout_length.
  - intros i e Hi. unfold NumAxes. rewrite <- Hax.
    by apply (layout_positions _ _ _ Hlay).
Qed.

Lemma axis_slice_within index (d : Z) (s : Slice) :
  0 <= d < 2 ^ 63 ->
  (forall slice, ItemSlice slice ∈ index ->
     - 2 ^ 63 <= start_ slice /\ - 2 ^ 63 <= end_ slice) ->
  axis_slice index d s -> within s d.
Proof.
  intros Hd Hint [|integer Hin Hrange|slice Hin Hstep]; unfold within; simpl.
  - lia.
  - rewrite to_int64_small by lia. lia.
  - destruct (Hint slice Hin) as [Hs He].
    destruct (Z.min (start_ slice) d <? 0) eqn:E1.
    + rewrite (to_int64_small (Z.min (start_ slice) d + d)) by lia.
      destruct (Z.min (start_ slice) d + d <? 0) eqn:E2;
        destruct (Z.min (end_ slice) d <? 0) eqn:E3;
        rewrite ?(to_int64_small (Z.min (end_ slice) d + d)) by lia;
        repeat match goal with
        | |- context [if ?b then _ else _] => destruct b eqn:?
        end; simpl; lia.
    + rewrite E1.
      destruct (Z.min (end_ slice) d <? 0) eqn:E3;
        rewrite ?(to_int64_small (Z.min (end_ slice) d + d)) by lia;
        repeat match goal with
        | |- context [if ?b then _ else _] => destruct b eqn:?
        end; simpl; lia.
Qed.


Lemma PrepareSliceIndices_within index shape o :
  NumAxes shape < 2 ^ 31 ->
  Z.of_nat (length index) < 2 ^ 31 ->
  (forall t, ItemTensor t ∈ index -> NumAxes (tensor_shape t) < 2 ^ 31) ->
  Forall (fun d => 0 <= d < 2 ^ 63) shape ->
  (forall slice, ItemSlice slice ∈ index ->
     - 2 ^ 63 <= start_ slice /\ - 2 ^ 63 <= end_ slice) ->
  PrepareSliceIndices index shape no_outputs = Ok o ->
  exists real,
    layout (slice_indices o) (expand_dims o) real /\
    Forall2 within real shape.
Proof.
  intros Hsmall Hlen Haxes Hshape Hint Hrun.
  destruct (PrepareSliceIndices_layout index shape o Hsmall Hlen Haxes Hrun)
    as (real & Hlay & Hax).
  exists real. split; [exact Hlay|].
  apply Forall2_same_length_lookup. split; [by apply Forall2_length in Hax|].
  intros i s d Hs Hd.
  apply (axis_slice_within index d s); [| exact Hint |].
  - by apply (Forall_lookup_1 _ _ _ _ Hshape Hd).
  - by apply (Forall2_lookup_lr _ _ _ _ _ _ Hax Hs Hd).
Qed.

(** X15.  Given [int64_t] bounds in the slice items and extents that are
    not negative, every slice that [PrepareSliceIndices] makes for an
    axis of the tensor lies within that axis: [0 <= start <= end <=
    extent] and [step >= 1]. *)
Theorem PrepareSliceIndices_slices_within_axes index shape o :
  NumAxes shape < 2 ^ 31 ->
  Z.of_nat (length index) < 2 ^ 31 ->
  (forall t, ItemTensor t ∈ index -> NumAxes (tensor_shape t) < 2 ^ 31) ->
  Forall (fun d => 0 <= d < 2 ^ 63) shape ->
  (forall slice, ItemSlice slice ∈ index ->
     - 2 ^ 63 <= start_ slice /\ - 2 ^ 63 <= end_ slice) ->
  PrepareSliceIndices index shape no_outputs = Ok o ->
  exists real,
    layout (slice_indices o) (expand_dims o) real /\
    Forall2 within real shape.
Proof. apply PrepareSliceIndices_within. Qed.

(** X16.  For the assignment [x[index] = value]: when the index inserts
    at most one axis, [RemoveExpandDimSlice] applied to what
    [PrepareSliceIndices] hands back succeeds and leaves exactly one
    slice for each axis of the tensor, each within its axis. *)
Theorem setitem_slices_with_one_inserted_axis index shape o :
  NumAxes shape < 2 ^ 31 ->
  Z.of_nat (length index) < 2 ^ 31 ->
  (forall t, ItemTensor t ∈ index -> NumAxes (tensor_shape t) < 2 ^ 31) ->
  Forall (fun d => 0 <= d < 2 ^ 63) shape ->
  (forall slice, ItemSlice slice ∈ index ->
     - 2 ^ 63 <= start_ slice /\ - 2 ^ 63 <= end_ slice) ->
  PrepareSliceIndices index shape no_outputs = Ok o ->
  (length (expand_dims o) <= 1)%nat ->
  exists slices,
    RemoveExpandDimSlice (slice_indices o) (expand_dims o) = Ok slices /\
    Forall2 within slices shape.
Proof.
  intros Hsmall Hlen Haxes Hshape Hint Hrun Hone.
  destruct (PrepareSliceIndices_within index shape o
              Hsmall Hlen Haxes Hshape Hint Hrun) as (real & Hlay & Hin).
  exists real. split; [|exact Hin].
  pose proof (Forall2_length _ _ _ Hin) as Hreal.
  pose proof (layout_length _ _ _ Hlay) as Hslices.
  unfold NumAxes in Hsmall.
  destruct (expand_dims o) as [|e [|? ?]] eqn:He; [| |simpl in Hone; lia].
  - apply layout_no_dims in Hlay as ->.
    rewrite RemoveExpandDimSlice_spec; [|lia | constructor].
    rewrite bool_decide_eq_true_2 by constructor. f_equal.
    apply keep_all_places.
  - destruct (layout_one_dim _ _ _ Hlay) as (Hrange & b & Hb & Hs).
    simpl in Hslices.
    rewrite RemoveExpandDimSlice_spec; [|lia | repeat constructor; lia].
    rewrite bool_decide_eq_true_2 by (repeat constructor; lia). f_equal.
    rewrite Hs.
    pose proof (drop_one_place (take (Z.to_nat e) real)
                  {| start_ := 0; end_ := b; step_ := 1 |} (drop (Z.to_nat e) real) 0)
      as Hdrop.
    rewrite length_take_le in Hdrop by lia. simpl in Hdrop.
    rewrite Z2Nat.id in Hdrop by lia. rewrite Hdrop. apply take_drop.
Qed.


(** X17.  When the index inserts two axes, [RemoveExpandDimSlice] does
    not give back the slices of the axes of the tensor.  If both are
    inserted before the same axis it leaves one slice too many, which
    [TensorSetItemFunctor] rejects; otherwise it leaves as many slices
    as the tensor has axes, but in place of the slice of the axis
    before the second inserted one stands the slice [0:1] (or [0:0]) of
    an inserted axis. *)
Theorem setitem_slices_with_two_inserted_axes index shape o (e1 e2 : Z) :
  NumAxes shape < 2 ^ 31 ->
  Z.of_nat (length index) < 2 ^ 31 ->
  (forall t, ItemTensor t ∈ index -> NumAxes (tensor_shape t) < 2 ^ 31) ->
  PrepareSliceIndices index shape no_outputs = Ok o ->
  expand_dims o = [e1; e2] ->
  exists slices,
    RemoveExpandDimSlice (slice_indices o) (expand_dims o) = Ok slices /\
    if decide (e1 = e2) then length slices = S (length shape)
    else length slices = length shape /\
         exists b, (b = 0 \/ b = 1) /\
           slices !! Z.to_nat (e2 - 1) = Some {| start_ := 0; end_ := b; step_ := 1 |}.
Proof.
  intros Hsmall Hlen Haxes Hrun He.
  destruct (PrepareSliceIndices_layout index shape o Hsmall Hlen Haxes Hrun)
    as (real & Hlay & Hax).
  apply Forall2_length in Hax. rewrite <- Hax. unfold NumAxes in Hsmall.
  rewrite He in *. pose proof (layout_length _ _ _ Hlay) as Hslices. simpl in Hslices.
  destruct (layout_two_dims _ _ _ _ Hlay) as (He1 & He2 & b1 & b2 & Hb2 & Hs).
  rewrite RemoveExpandDimSlice_spec; [|lia | repeat constructor; lia].
  rewrite bool_decide_eq_true_2 by (repeat constructor; lia).
  set (A := take (Z.to_nat e1) real) in *.
  set (B := take (Z.to_nat (e2 - e1)) (drop (Z.to_nat e1) real)) in *.
  set (C := drop (Z.to_nat e2) real) in *.
  assert (length A = Z.to_nat e1) as HA by (unfold A; rewrite length_take; lia).
  assert (length B = Z.to_nat (e2 - e1)) as HB
    by (unfold B; rewrite length_take, length_drop; lia).
  assert (length C = (length real - Z.to_nat e2)%nat) as HC
    by (unfold C; rewrite length_drop; lia).
  assert (forall (i : nat) (P : Prop), (P -> Z.of_nat i <> e1 /\ Z.of_nat i <> e2) ->
            P -> Z.of_nat i ∉ [e1; e2]) as Hout.
  { intros i P HP Hi [Hi' | [Hi' | []%elem_of_nil]%elem_of_cons]%elem_of_cons;
      destruct (HP Hi); done. }
  rewrite Hs, kept_app, kept_cons, Nat.add_0_l.
  rewrite (kept_unlisted _ A) by (intros i; apply Hout; lia).
  rewrite bool_decide_eq_true_2
    by (rewrite HA, Z2Nat.id by lia; apply list_elem_of_here).
  rewrite app_nil_l.
  destruct (decide (e1 = e2)) as [<- | Hne].
  - assert (B = []) as -> by (apply nil_length_inv; lia).
    rewrite app_nil_l, kept_unlisted by (intros i; apply Hout; simpl; lia).
    eexists. split; [reflexivity|]. rewrite length_app. simpl. lia.
  - destruct B as [|y B' _] using rev_ind; [simpl in HB; lia|].
    rewrite length_app in HB. simpl in HB.
    rewrite <- app_assoc, kept_app.
    rewrite (kept_unlisted _ B') by (intros i; apply Hout; lia).
    change ([y] ++ ?l) with (y :: l). rewrite kept_cons.
    rewrite bool_decide_eq_true_2.
    2: { apply list_elem_of_further.
         replace (Z.of_nat (S (length A) + length B')) with e2 by lia.
         apply list_elem_of_here. }
    rewrite app_nil_l, kept_unlisted by (intros i; apply Hout; simpl; lia).
    eexists. split; [reflexivity|]. split.
    + rewrite !length_app. simpl. lia.
    + exists b2. split; [exact Hb2|].
      rewrite app_assoc.
      replace (Z.to_nat (e2 - 1)) with (length (A ++ B')) by (rewrite length_app; lia).
      apply list_lookup_middle. reflexivity.
Qed.


Lemma CountSpecifiedDims_integers (integers : list Z) :
  Z.of_nat (length integers) < 2 ^ 31 ->
  CountSpecifiedDims (ItemInteger <$> integers) = Z.of_nat (length integers).
Proof.
  unfold CountSpecifiedDims. intros Hlen.
  assert (forall (l : list Z) acc, 0 <= acc -> acc + Z.of_nat (length l) < 2 ^ 63 ->
    fold_left (fun specified_ndims (index_item : IndexItem Tensor) =>
           match index_item with
           | ItemSlice _ | ItemInteger _ => to_int64 (specified_ndims + 1)
           | ItemTensor tensor =>
               if is_mask tensor
               then to_int64 (specified_ndims + NumAxes (tensor_shape tensor))
               else to_int64 (specified_ndims + 1)
           | _ => specified_ndims
           end) (ItemInteger <$> l) acc = acc + Z.of_nat (length l)) as Hgen.
  { induction l as [|k l IH]; intros acc Hacc Hroom; simpl in *; [lia|].
    rewrite to_int64_small by lia. rewrite IH; lia. }
  rewrite Hgen; lia.
Qed.

Lemma from_front_in_range (k d : Z) :
  0 <= d < 2 ^ 63 -> - 2 ^ 63 <= k ->
  ((from_front k d <? 0) || (from_front k d >=? d) = false <-> - d <= k < d) /\
  (- d <= k < d -> from_front k d = k `mod` d).
Proof.
  intros Hd Hk. unfold from_front. destruct (k <? 0) eqn:Hneg.
  - destruct (decide (k < d)) as [Hlt|Hge].
    + rewrite to_int64_small by lia. split.
      * rewrite orb_false_iff, Z.ltb_ge, Z.geb_leb, Z.leb_gt. lia.
      * intros Hr. apply Z.mod_unique with (q := -1); lia.
    + lia.
  - split.
    + rewrite orb_false_iff, Z.ltb_ge, Z.geb_leb, Z.leb_gt. lia.
    + intros Hr. symmetry. apply Z.mod_small. lia.
Qed.

Lemma integer_items shape specified_ndims has_false_index :
  NumAxes shape < 2 ^ 31 ->
  Forall (fun d => 0 <= d < 2 ^ 63) shape ->
  forall (integers : list Z) c,
    Forall (fun k => - 2 ^ 63 <= k) integers ->
    0 <= dim c -> dim c + Z.of_nat (length integers) <= NumAxes shape ->
    index_items shape specified_ndims has_false_index (ItemInteger <$> integers) c
    = if bool_decide (Forall2 (fun k d => - d <= k < d) integers
                        (take (length integers) (drop (Z.to_nat (dim c)) shape)))
      then Ok {| dim := dim c + Z.of_nat (length integers);
                 has_expand_boolean_dim := has_expand_boolean_dim c;
                 outs := {| slice_indices :=
                              slice_indices (outs c)
                              ++ zip_with (fun k d => {| start_ := k `mod` d;
                                                         end_ := k `mod` d + 1;
                                                         step_ := 1 |})
                                   integers (drop (Z.to_nat (dim c)) shape);
                            tensor_indices := tensor_indices (outs c);
                            expand_dims := expand_dims (outs c);
                            target_dims := target_dims (outs c) |} |}
      else Error IndexError.
Proof.
  intros Hsmall Hshape. induction integers as [|k ks IH]; intros c Hint Hdim Hroom.
  - simpl. change (Z.of_nat 0) with 0.
    rewrite Z.add_0_r, app_nil_r. by destruct c as [? ? []].
  - apply Forall_cons in Hint as [Hk Hint]. simpl in Hroom.
    change (ItemInteger <$> k :: ks) with (ItemInteger (Tensor := Tensor) k :: (ItemInteger <$> ks)).
    cbn [index_items index_item_step].
    replace (dim c <? NumAxes shape) with true by lia. cbn [negb].
    destruct (At_in_range shape (dim c)) as (d & -> & Hd); [lia|]. cbn [bind].
    pose proof (Forall_lookup_1 _ _ _ _ Hshape Hd) as Hdr. cbv beta in Hdr.
    destruct (from_front_in_range k d Hdr Hk) as [Hcheck Hmod].
    rewrite (drop_S _ _ _ Hd). cbn [length take zip_with].
    destruct (decide (- d <= k < d)) as [Hin|Hout].
    + rewrite (proj2 Hcheck Hin). cbn [bind]. rewrite IH; cbn [dim outs has_expand_boolean_dim];
        [| exact Hint | rewrite to_int_small by lia; lia
         | rewrite to_int_small by lia; lia].
      rewrite to_int_small by lia.
      replace (Z.to_nat (dim c + 1)) with (S (Z.to_nat (dim c))) by lia.
      rewrite (bool_decide_ext (Forall2 _ (k :: ks) _) (Forall2 (fun k d => - d <= k < d) ks
                 (take (length ks) (drop (S (Z.to_nat (dim c))) shape)))).
      2: { rewrite Forall2_cons. tauto. }
      destruct (bool_decide _); [|done].
      unfold one_element. rewrite (Hmod Hin).
      rewrite to_int64_small by (pose proof (Z.mod_pos_bound k d); lia).
      cbn [emplace_slice slice_indices tensor_indices expand_dims target_dims].
      rewrite <- app_assoc.
      replace (dim c + 1 + Z.of_nat (length ks)) with (dim c + Z.of_nat (S (length ks)))
        by lia.
      reflexivity.
    + destruct ((from_front k d <? 0) || (from_front k d >=? d)) eqn:E.
      * rewrite bool_decide_eq_false_2; [done|].
        intros [? _]%Forall2_cons. done.
      * destruct Hout. by apply Hcheck.
Qed.

(** X18.  An index made of integers alone, at most one for each axis of
    the tensor, is accepted exactly when each integer [k] lies in
    [-d <= k < d] for the extent [d] of its axis, and is an [IndexError]
    otherwise.  When accepted, each named axis gets the slice of the
    one element [k mod d], every other axis is taken whole, no axis is
    inserted, and [target_dims] is the shape of the axes not named.
    More integers than axes are a failed check. *)
Theorem integer_index_names_one_element_per_axis (integers : list Z) shape :
  NumAxes shape < 2 ^ 31 ->
  Z.of_nat (length integers) < 2 ^ 31 ->
  Forall (fun d => 0 <= d < 2 ^ 63) shape ->
  Forall (fun k => - 2 ^ 63 <= k) integers ->
  PrepareSliceIndices (ItemInteger <$> integers) shape no_outputs
  = if bool_decide (length integers <= length shape)%nat then
      if bool_decide (Forall2 (fun k d => - d <= k < d) integers
                        (take (length integers) shape))
      then Ok {| slice_indices :=
                   zip_with (fun k d => {| start_ := k `mod` d; end_ := k `mod` d + 1;
                                           step_ := 1 |}) integers shape
                   ++ (whole_axis <$> drop (length integers) shape);
                 tensor_indices := [];
                 expand_dims := [];
                 target_dims := drop (length integers) shape |}
      else Error IndexError
    else Error CheckFailedError.
Proof.
  intros Hsmall Hlen Hshape Hint. unfold PrepareSliceIndices.
  rewrite CountSpecifiedDims_integers by done. unfold NumAxes in *.
  destruct (decide (length integers <= length shape)%nat) as [Hle|Hgt].
  2: { rewrite bool_decide_eq_false_2 by done.
       replace (Z.of_nat (length integers) <=? Z.of_nat (length shape)) with false by lia.
       done. }
  rewrite bool_decide_eq_true_2 by done.
  replace (Z.of_nat (length integers) <=? Z.of_nat (length shape)) with true by lia.
  cbn [negb HasFalseIndex bind].
  rewrite integer_items; cbn [dim outs]; [| done | done | done | lia | unfold NumAxes; lia].
  change (Z.to_nat 0) with 0%nat. rewrite drop_0.
  destruct (bool_decide _); [|done]. cbn [bind dim outs].
  rewrite axis_run_spec by (unfold NumAxes; lia).
  cbn [no_outputs slice_indices tensor_indices expand_dims target_dims].
  rewrite !app_nil_l.
  replace (Z.to_nat (0 + Z.of_nat (length integers))) with (length integers) by lia.
  rewrite take_ge; [done|]. rewrite length_drop. lia.
Qed.

End Prepare.


(** *** ExpandMaskIndex *)

Section Mask.
Context {Tensor : Type} `{ops : TensorOps Tensor}.

Lemma mask_columns_spec (res0 : option Tensor) (size : Z) :
  forall (n : nat) (i : Z) (indices indices' : list (option Tensor)),
    mask_columns n i res0 size indices = Ok indices' ->
    exists columns, indices' = indices ++ (Some <$> columns) /\ length columns = n.
Proof.
  induction n as [|n IH]; intros i indices indices' Hrun; simpl in Hrun.
  - injection Hrun as <-. exists []. by rewrite app_nil_r.
  - destruct res0 as [r|]; [|done].
    destruct (Slice_op r _ _ _) as [item| |]; [|done..]. cbn [bind] in Hrun.
    destruct (Reshape item _) as [item'| |]; [|done..]. cbn [bind] in Hrun.
    apply IH in Hrun as (columns & -> & Hlen).
    exists (item' :: columns). rewrite <- app_assoc. split; [done | simpl; lia].
Qed.

(** X19.  When [ExpandMaskIndex] succeeds it returns one index tensor for
    each axis of the mask, none of them null; then [ArgWhere] gave two
    tensors, of which the second is not lazy. *)
Theorem ExpandMaskIndex_one_index_per_axis (index : Tensor)
    (indices : list (option Tensor)) :
  ExpandMaskIndex index = Ok indices ->
  length indices = length (tensor_shape index) /\
  Forall is_Some indices /\
  exists res0 size_tensor,
    ArgWhere index kInt64 = Ok [res0; Some size_tensor] /\ is_eager size_tensor = true.
Proof.
  unfold ExpandMaskIndex. intros Hrun.
  destruct (ArgWhere index kInt64) as [res| |]; [|done..]. cbn [bind] in Hrun.
  destruct (length res =? 2)%nat eqn:Hlen; [|done]. cbn [negb] in Hrun.
  apply Nat.eqb_eq in Hlen.
  destruct res as [|res0 [|res1 [|? ?]]]; try done.
  unfold tuple_at in Hrun. simpl in Hrun.
  destruct res1 as [size_tensor|]; [|done].
  destruct (is_eager size_tensor) eqn:Heager; [|done]. cbn [negb] in Hrun.
  match type of Hrun with
  | bind ?e _ = _ => destruct e as [local| |]; [|done..]
  end.
  cbn [bind] in Hrun.
  destruct (SyncAccessTensorWithTimeOut local) as [size| |]; [|done..].
  cbn [bind] in Hrun.
  apply mask_columns_spec in Hrun as (columns & -> & Hn).
  rewrite app_nil_l, length_fmap. split; [exact Hn|]. split.
  - apply Forall_fmap, Forall_forall. intros t _. by exists t.
  - by exists res0, size_tensor.
Qed.

End Mask.

(** *** ExpandIndices *)

Lemma broadcasts_to_refl (shape : list Z) : broadcasts_to shape shape.
Proof.
  split; [done|]. intros j d Hj. right. by rewrite Nat.sub_diag, Nat.add_0_r.
Qed.

Lemma broadcasts_to_trans (a b c : list Z) :
  broadcasts_to a b -> broadcasts_to b c -> broadcasts_to a c.
Proof.
  intros [Hab Ha] [Hbc Hb]. split; [lia|]. intros j d Hj.
  destruct (Ha j d Hj) as [-> | Hj']; [by left|].
  destruct (Hb _ d Hj') as [-> | Hj'']; [by left|]. right.
  replace (j + (length c - length a))%nat
    with (j + (length b - length a) + (length c - length b))%nat by lia.
  exact Hj''.
Qed.

Local Abbreviation fits_int shape :=
  (NumAxes shape < 2 ^ 31 /\ Forall (fun d => 1 <= d < 2 ^ 31) shape).

Lemma broadcast_size_spec (a b : list Z) (j : nat) (v : Z) :
  fits_int a -> fits_int b ->
  let ndims := Z.max (NumAxes a) (NumAxes b) in
  Z.of_nat j < ndims ->
  broadcast_size a b ndims (Z.of_nat j) = Ok v ->
  1 <= v < 2 ^ 31 /\
  (forall i d, a !! i = Some d -> j = (i + (Z.to_nat ndims - length a))%nat ->
     d = 1 \/ v = d) /\
  (forall i d, b !! i = Some d -> j = (i + (Z.to_nat ndims - length b))%nat ->
     d = 1 \/ v = d).
Proof.
  intros [Ha Hda] [Hb Hdb] ndims Hj. unfold broadcast_size, NumAxes in *. fold ndims.
  assert (ndims = Z.max (Z.of_nat (length a)) (Z.of_nat (length b))) as Hmax by reflexivity.
  clearbody ndims.
  rewrite !to_int_small by lia.
  assert (forall (l : list Z) i d, Forall (fun d => 1 <= d < 2 ^ 31) l ->
            l !! i = Some d -> 1 <= d < 2 ^ 31) as Hget.
  { intros l i d Hl Hi. exact (Forall_lookup_1 _ _ _ _ Hl Hi). }
  destruct (Z.of_nat j - (ndims - Z.of_nat (length a)) <? 0) eqn:E1;
    [apply Z.ltb_lt in E1 | apply Z.ltb_ge in E1].
  - intros [Hr He]%At_Ok_inv. unfold NumAxes in Hr. pose proof (Hget _ _ _ Hdb He).
    split; [done|]. split.
    + intros i d Hi ->. apply lookup_lt_Some in Hi. lia.
    + intros i d Hi ->. right.
      replace (Z.to_nat (Z.of_nat (i + (Z.to_nat ndims - length b))
                         - (ndims - Z.of_nat (length b)))) with i in He by lia.
      congruence.
  - destruct (Z.of_nat j - (ndims - Z.of_nat (length b)) <? 0) eqn:E2;
      [apply Z.ltb_lt in E2 | apply Z.ltb_ge in E2].
    + intros [Hr He]%At_Ok_inv. unfold NumAxes in Hr. pose proof (Hget _ _ _ Hda He).
      split; [done|]. split.
      * intros i d Hi ->. right.
        replace (Z.to_nat (Z.of_nat (i + (Z.to_nat ndims - length a))
                           - (ndims - Z.of_nat (length a)))) with i in He by lia.
        congruence.
      * intros i d Hi ->. apply lookup_lt_Some in Hi. lia.
    + destruct (At a _) as [da| |] eqn:Hata; [|done..]. cbn [bind].
      destruct (At b _) as [db| |] eqn:Hatb; [|done..]. cbn [bind].
      apply At_Ok_inv in Hata as [Hra Hea]. apply At_Ok_inv in Hatb as [Hrb Heb].
      unfold NumAxes in Hra, Hrb.
      pose proof (Hget _ _ _ Hda Hea). pose proof (Hget _ _ _ Hdb Heb).
      rewrite !to_int_small by lia.
      destruct ((da =? db) || (da =? 1) || (db =? 1)) eqn:Hc; [|done].
      cbn [negb]. intros [= <-]. split; [lia|]. split.
      * intros i d Hi ->.
        replace (Z.to_nat (Z.of_nat (i + (Z.to_nat ndims - length a))
                           - (ndims - Z.of_nat (length a)))) with i in Hea by lia.
        assert (d = da) as -> by congruence. lia.
      * intros i d Hi ->.
        replace (Z.to_nat (Z.of_nat (i + (Z.to_nat ndims - length b))
                           - (ndims - Z.of_nat (length b)))) with i in Heb by lia.
        assert (d = db) as -> by congruence. lia.
Qed.

Lemma broadcast_sizes_spec (a b : list Z) (ndims : Z) : forall (n : nat) (sizes sizes' : list Z),
  (n <= length sizes)%nat ->
  broadcast_sizes n a b ndims sizes = Ok sizes' ->
  length sizes' = length sizes /\
  (forall j, (j < n)%nat ->
     exists v, broadcast_size a b ndims (Z.of_nat j) = Ok v /\ sizes' !! j = Some v) /\
  (forall j, (n <= j)%nat -> sizes' !! j = sizes !! j).
Proof.
  induction n as [|n IH]; intros sizes sizes' Hn Hrun; simpl in Hrun.
  - injection Hrun as <-. split; [done|]. split; [lia | done].
  - destruct (broadcast_size a b ndims (Z.of_nat n)) as [v| |] eqn:Hv; [|done..].
    cbn [bind] in Hrun.
    apply IH in Hrun as (Hlen & Hlow & Hhigh); [|rewrite length_insert; lia].
    rewrite length_insert in Hlen. split; [exact Hlen|]. split.
    + intros j Hj. destruct (decide (j = n)) as [-> | Hne].
      * exists v. split; [exact Hv|]. rewrite Hhigh by lia.
        apply list_lookup_insert_eq. lia.
      * apply Hlow. lia.
    + intros j Hj. rewrite Hhigh by lia. apply list_lookup_insert_ne. lia.
Qed.

Lemma broadcast_sizes_common (a b sizes : list Z) :
  fits_int a -> fits_int b ->
  let ndims := Z.max (NumAxes a) (NumAxes b) in
  broadcast_sizes (Z.to_nat ndims) a b ndims (replicate (Z.to_nat ndims) 0) = Ok sizes ->
  fits_int sizes /\ broadcasts_to a sizes /\ broadcasts_to b sizes.
Proof.
  intros Ha Hb ndims Hrun.
  apply broadcast_sizes_spec in Hrun as (Hlen & Hlow & _); [|by rewrite length_replicate].
  rewrite length_replicate in Hlen.
  assert (forall j, (j < length sizes)%nat -> exists v, sizes !! j = Some v /\
            1 <= v < 2 ^ 31 /\
            (forall i d, a !! i = Some d -> j = (i + (Z.to_nat ndims - length a))%nat ->
               d = 1 \/ v = d) /\
            (forall i d, b !! i = Some d -> j = (i + (Z.to_nat ndims - length b))%nat ->
               d = 1 \/ v = d)) as Hall.
  { intros j Hj. destruct (Hlow j) as (v & Hv & Hs); [lia|].
    exists v. split; [exact Hs|].
    apply (broadcast_size_spec a b j v Ha Hb); [fold ndims; lia | exact Hv]. }
  unfold NumAxes in *. split; [split|].
  - destruct Ha, Hb. lia.
  - apply Forall_lookup_2. intros j v Hj.
    destruct (Hall j) as (v' & Hv' & Hr & _); [by apply lookup_lt_Some in Hj|].
    congruence.
  - split.
    + split; [lia|]. intros i d Hi. pose proof (lookup_lt_Some _ _ _ Hi) as Hlt.
      destruct (Hall (i + (length sizes - length a))%nat) as (v & Hv & _ & Hfa & _); [lia|].
      destruct (Hfa i d Hi) as [-> | ->]; [lia | by left | right; exact Hv].
    + split; [lia|]. intros i d Hi. pose proof (lookup_lt_Some _ _ _ Hi) as Hlt.
      destruct (Hall (i + (length sizes - length b))%nat) as (v & Hv & _ & _ & Hfb); [lia|].
      destruct (Hfb i d Hi) as [-> | ->]; [lia | by left | right; exact Hv].
Qed.

Section Expand.
Context {Tensor : Type} `{ops : TensorOps Tensor}.
Implicit Types (indices : list (option Tensor)).

Lemma broadcast_shape_spec : forall indices (expanded : list Z) r,
  (forall t, Some t ∈ indices -> fits_int (tensor_shape t)) ->
  fits_int expanded ->
  broadcast_shape indices (Some expanded) = Ok r ->
  exists common, r = Some common /\ broadcasts_to expanded common /\
    forall t, Some t ∈ indices -> broadcasts_to (tensor_shape t) common.
Proof.
  induction indices as [|[t|] rest IH]; intros expanded r Hfit He Hrun; simpl in Hrun.
  - injection Hrun as <-. exists expanded. split; [done|].
    split; [apply broadcasts_to_refl|]. by intros t Ht%elem_of_nil.
  - assert (fits_int (tensor_shape t)) as Ht by apply Hfit, list_elem_of_here.
    assert (to_int (Z.max (NumAxes (tensor_shape t)) (NumAxes expanded))
            = Z.max (NumAxes (tensor_shape t)) (NumAxes expanded)) as Hnd.
    { unfold NumAxes in *. apply to_int_small. destruct Ht, He. lia. }
    rewrite Hnd in Hrun.
    destruct (broadcast_sizes _ _ _ _ _) as [sizes| |] eqn:Hsizes; [|done..].
    cbn [bind] in Hrun.
    apply broadcast_sizes_common in Hsizes as (Hs & Hts & Hes); [|done..].
    apply IH in Hrun as (common & -> & Hsc & Hrest); [|  | exact Hs].
    2: { intros t' Ht'. apply Hfit. by apply list_elem_of_further. }
    exists common. split; [done|].
    split; [by apply (broadcasts_to_trans _ sizes)|].
    intros t' [[= ->] | Ht']%elem_of_cons.
    + by apply (broadcasts_to_trans _ sizes).
    + by apply Hrest.
  - apply IH in Hrun as (common & -> & Hc & Hrest); [| | exact He].
    2: { intros t' Ht'. apply Hfit. by apply list_elem_of_further. }
    exists common. split; [done|]. split; [exact Hc|].
    intros t' [[=] | Ht']%elem_of_cons. by apply Hrest.
Qed.

Lemma broadcast_shape_first : forall indices r,
  (forall t, Some t ∈ indices -> fits_int (tensor_shape t)) ->
  broadcast_shape indices None = Ok r ->
  (r = None /\ forall t, Some t ∉ indices) \/
  exists common, r = Some common /\
    forall t, Some t ∈ indices -> broadcasts_to (tensor_shape t) common.
Proof.
  induction indices as [|[t|] rest IH]; intros r Hfit Hrun; simpl in Hrun.
  - injection Hrun as <-. left. split; [done|]. intros t. apply not_elem_of_nil.
  - right. apply broadcast_shape_spec in Hrun as (common & -> & Hc & Hrest).
    + exists common. split; [done|].
      intros t' [[= ->] | Ht']%elem_of_cons; [exact Hc | by apply Hrest].
    + intros t' Ht'. apply Hfit. by apply list_elem_of_further.
    + apply Hfit, list_elem_of_here.
  - apply IH in Hrun as [[-> Hnone] | (common & -> & Hrest)].
    + left. split; [done|]. intros t [[=] | Ht]%elem_of_cons. by apply (Hnone t).
    + right. exists common. split; [done|].
      intros t' [[=] | Ht']%elem_of_cons. by apply Hrest.
    + intros t' Ht'. apply Hfit. by apply list_elem_of_further.
Qed.

Lemma expand_each_spec (expanded : option (list Z)) : forall indices r,
  expand_each indices expanded = Ok r ->
  length r = length indices /\
  forall i,
    (indices !! i = Some None -> r !! i = Some None) /\
    (forall t, indices !! i = Some (Some t) ->
       exists common, expanded = Some common /\
         ((tensor_shape t = common /\ r !! i = Some (Some t)) \/
          (tensor_shape t <> common /\
           exists t', Expand t common = Ok t' /\ r !! i = Some (Some t')))).
Proof.
  induction indices as [|[t|] rest IH]; intros r Hrun; simpl in Hrun.
  - injection Hrun as <-. split; [done|]. intros i. split; [done|]. intros t Ht. done.
  - destruct expanded as [common|]; [|done].
    match type of Hrun with
    | bind ?e _ = _ => destruct e as [item| |] eqn:Hitem; [|done..]
    end.
    cbn [bind] in Hrun.
    destruct (expand_each rest (Some common)) as [r'| |] eqn:Hrest; [|done..].
    cbn [bind] in Hrun. injection Hrun as <-.
    destruct (IH r' eq_refl) as [Hlen Hall]. split; [simpl; lia|].
    intros [|i]; simpl.
    + split; [done|]. intros t0 [= <-]. exists common. split; [done|].
      destruct (decide (tensor_shape t <> common)) as [Hne|Heq].
      * right. rewrite bool_decide_eq_true_2 in Hitem by done.
        split; [done|]. by exists item.
      * left. rewrite bool_decide_eq_false_2 in Hitem by done.
        injection Hitem as <-. split; [by apply dec_stable | done].
    + apply Hall.
  - destruct (expand_each rest expanded) as [r'| |] eqn:Hrest; [|done..].
    cbn [bind] in Hrun. injection Hrun as <-.
    destruct (IH r' eq_refl) as [Hlen Hall]. split; [simpl; lia|].
    intros [|i]; simpl; [split; [done|]; intros t0 [=] | apply Hall].
Qed.

(** X20.  When every index tensor has fewer than 2^31 axes and extents
    between 1 and 2^31 - 1, and [ExpandIndices] succeeds, there is one
    shape to which the shape of every index tensor can be broadcast;
    a null index stays null in its place, an index tensor that has that
    shape already is passed on as it is, and every other one is
    replaced by what [Expand] makes of it for that shape. *)
Theorem ExpandIndices_broadcasts_to_one_shape indices expanded_indices :
  (forall t, Some t ∈ indices ->
     NumAxes (tensor_shape t) < 2 ^ 31 /\
     Forall (fun d => 1 <= d < 2 ^ 31) (tensor_shape t)) ->
  ExpandIndices indices = Ok expanded_indices ->
  length expanded_indices = length indices /\
  exists common, forall i,
    (indices !! i = Some None -> expanded_indices !! i = Some None) /\
    (forall t, indices !! i = Some (Some t) ->
       broadcasts_to (tensor_shape t) common /\
       ((tensor_shape t = common /\ expanded_indices !! i = Some (Some t)) \/
        (tensor_shape t <> common /\
         exists t', Expand t common = Ok t' /\ expanded_indices !! i = Some (Some t')))).
Proof.
  intros Hfit Hrun. unfold ExpandIndices in Hrun.
  destruct (broadcast_shape indices None) as [shape| |] eqn:Hshape; [|done..].
  cbn [bind] in Hrun.
  destruct (expand_each_spec shape indices expanded_indices Hrun) as [Hlen Hall].
  split; [exact Hlen|].
  apply broadcast_shape_first in Hshape as [[-> Hnone] | (common & -> & Hb)]; [| |exact Hfit].
  - exists []. intros i. split; [apply Hall|].
    intros t Ht. destruct (Hnone t). by apply (list_elem_of_lookup_2 _ i).
  - exists common. intros i. split; [apply Hall|].
    intros t Ht. split; [by apply Hb, (list_elem_of_lookup_2 _ i)|].
    destruct (proj2 (Hall i) t Ht) as (c & [= <-] & Hcase). exact Hcase.
Qed.

End Expand.


(** *** TransposeFront and AdjustSubspace *)

Lemma need_transpose_false (permute : list Z) :
  need_transpose permute = false -> permute = Z.of_nat <$> seq 0 (length permute).
Proof.
  unfold need_transpose.
  assert (forall (l : list Z) (k : nat),
            existsb (fun '(i, p) => negb (p =? Z.of_nat i)) (imap (pair ∘ Nat.add k) l) = false ->
            l = Z.of_nat <$> seq k (length l)) as Hgen.
  { induction l as [|p l IH]; intros k Hk; [done|].
    simpl in Hk. apply orb_false_iff in Hk as [Hp Hl].
    apply negb_false_iff, Z.eqb_eq in Hp. rewrite Nat.add_0_r in Hp. subst p.
    simpl. f_equal. apply IH. rewrite <- Hl. f_equal.
    apply imap_ext. intros i x _. simpl. f_equal. lia. }
  intros H. apply (Hgen permute 0%nat). rewrite <- H. f_equal.
Qed.

Lemma fmap_seq_ext {A} (f g : nat -> A) (a b n : nat) :
  (forall i, (i < n)%nat -> f (a + i)%nat = g (b + i)%nat) ->
  f <$> seq a n = g <$> seq b n.
Proof.
  intros Hfg. apply list_eq. intros i. rewrite !list_lookup_fmap.
  destruct (decide (i < n)%nat) as [Hi|Hi].
  - rewrite !lookup_seq_lt by done. simpl. f_equal. by apply Hfg.
  - by rewrite !lookup_seq_ge by lia.
Qed.

Section Subspace.
Context {Tensor : Type} `{ops : TensorOps Tensor}.
Implicit Types (indices : list (option Tensor)).

Lemma present_true indices i :
  present indices i = true <-> exists t, indices !! i = Some (Some t).
Proof.
  unfold present. destruct (indices !! i) as [[t|]|]; split; try done.
  - by exists t.
  - by intros [? [=]].
  - by intros [? [=]].
Qed.

(** X21.  [TransposeFront] hands [Transpose] a permutation of the axes of
    the input in which the axes addressed by an index tensor come
    first, and returns those index tensors in the same order; it skips
    the call only when that permutation changes nothing. *)
Theorem TransposeFront_moves_indexed_axes_first (input : Tensor) indices
    (output : Tensor) (valid_indices : list (option Tensor)) :
  TransposeFront input indices [] = Ok (output, valid_indices) ->
  let ndim := length (tensor_shape input) in
  exists permute,
    permute ≡ₚ Z.of_nat <$> seq 0 ndim /\
    (Transpose input permute = Ok output \/
     (output = input /\ permute = Z.of_nat <$> seq 0 ndim)) /\
    (forall j, (j < length valid_indices)%nat ->
       exists i t, permute !! j = Some (Z.of_nat i) /\
         indices !! i = Some (Some t) /\ valid_indices !! j = Some (Some t)) /\
    (forall j i, (length valid_indices <= j)%nat -> permute !! j = Some (Z.of_nat i) ->
       forall t, indices !! i <> Some (Some t)).
Proof.
  intros Hrun ndim. unfold TransposeFront in Hrun. fold ndim in Hrun.
  exists (front_permute ndim indices).
  assert (front_permute ndim indices ≡ₚ Z.of_nat <$> seq 0 ndim) as Hperm.
  { unfold front_permute. rewrite <- fmap_app.
    rewrite (list_filter_iff (fun i => present indices i = false)
               (fun i => ~ present indices i = true)).
    - by rewrite filter_app_complement.
    - intros i. by destruct (present indices i). }
  split; [exact Hperm|].
  assert (valid_indices = front_indices ndim indices /\
          (Transpose input (front_permute ndim indices) = Ok output \/
           (output = input /\ front_permute ndim indices = Z.of_nat <$> seq 0 ndim)))
    as [-> Hout].
  { rewrite app_nil_l in Hrun.
    destruct (need_transpose (front_permute ndim indices)) eqn:Hneed.
    - destruct (Transpose input _) as [t| |] eqn:Ht; [|done..].
      cbn [bind] in Hrun. injection Hrun as <- <-. split; [done | by left].
    - injection Hrun as <- <-. split; [done|]. right. split; [done|].
      apply need_transpose_false in Hneed. rewrite Hneed at 1.
      by rewrite (Permutation_length Hperm), length_fmap, length_seq. }
  split; [exact Hout|]. unfold front_indices, front_permute.
  rewrite length_fmap. split.
  - intros j Hj.
    destruct (lookup_lt_is_Some_2 _ _ Hj) as [i Hi].
    pose proof (list_elem_of_lookup_2 _ _ _ Hi) as [Hp _]%list_elem_of_filter.
    apply present_true in Hp as [t Ht].
    exists i, t. split; [|split; [exact Ht|]].
    + apply lookup_app_l_Some. by rewrite list_lookup_fmap, Hi.
    + rewrite list_lookup_fmap, Hi. simpl. unfold tuple_at. by rewrite Ht.
  - intros j i Hj Hi t Ht.
    rewrite lookup_app_r in Hi by (by rewrite length_fmap).
    apply list_lookup_fmap_Some in Hi as (i' & Heq & Hi').
    apply Nat2Z.inj in Heq as ->.
    apply list_elem_of_lookup_2 in Hi' as [Hp _]%list_elem_of_filter.
    assert (present indices i' = true) as Hq by (apply present_true; by exists t).
    congruence.
Qed.

Lemma index_subspace_pos_spec : forall indices (i0 : Z),
  0 <= i0 -> i0 + Z.of_nat (length indices) < 2 ^ 31 ->
  (index_subspace_pos indices i0 = -1 /\ forall t, Some t ∉ indices) \/
  exists (k : nat) t,
    index_subspace_pos indices i0 = i0 + Z.of_nat k /\
    indices !! k = Some (Some t) /\
    forall k', (k' < k)%nat -> indices !! k' = Some None.
Proof.
  induction indices as [|[t|] rest IH]; intros i0 Hi0 Hlen; simpl in *.
  - left. split; [done|]. intros t. apply not_elem_of_nil.
  - right. exists 0%nat, t. split; [lia|]. split; [done|]. lia.
  - rewrite to_int_small by lia.
    destruct (IH (i0 + 1)) as [[Hp Hnone] | (k & t & Hp & Hk & Hbefore)]; [lia | lia | |].
    + left. split; [exact Hp|]. intros t [[=] | Ht]%elem_of_cons. by apply (Hnone t).
    + right. exists (S k), t. split; [lia|]. split; [done|].
      intros [|k'] Hk'; [done|]. apply Hbefore. lia.
Qed.

Lemma subspace_permute_spec (pos index_ndim ndim : nat) :
  (pos + index_ndim <= ndim)%nat -> Z.of_nat ndim < 2 ^ 31 ->
  subspace_permute (Z.of_nat pos) (Z.of_nat index_ndim) (Z.of_nat ndim)
  = (Z.of_nat <$> seq index_ndim pos) ++ (Z.of_nat <$> seq 0 index_ndim)
    ++ (Z.of_nat <$> seq (pos + index_ndim) (ndim - pos - index_ndim)).
Proof.
  intros Hle Hsmall. unfold subspace_permute.
  rewrite !Nat2Z.id, length_app, !length_fmap, !length_seq.
  rewrite (to_int_small (Z.of_nat (pos + index_ndim))) by lia.
  f_equal; [|f_equal].
  - apply fmap_seq_ext. intros i Hi. rewrite to_int_small by lia. lia.
  - replace (Z.to_nat (Z.of_nat ndim - Z.of_nat (pos + index_ndim)))
      with (ndim - pos - index_ndim)%nat by lia.
    apply fmap_seq_ext. intros i Hi. rewrite to_int_small by lia. lia.
Qed.

(** X22.  [AdjustSubspace] returns its input untouched when there is no
    index tensor or the first index holds one.  Otherwise, with the
    first index tensor at place [pos], it asks [Transpose] for the
    permutation that puts the [index_ndim] leading axes of the input
    after the next [pos] axes and leaves the rest where they are; it is
    an error for the input to have fewer than [pos + index_ndim]
    axes. *)
Theorem AdjustSubspace_moves_index_axes_to_first_index (input : Tensor) indices
    (index_ndim : nat) :
  NumAxes (tensor_shape input) < 2 ^ 31 ->
  Z.of_nat (length indices) < 2 ^ 30 ->
  Z.of_nat index_ndim < 2 ^ 30 ->
  let ndim := length (tensor_shape input) in
  (AdjustSubspace input indices (Z.of_nat index_ndim) = Ok input /\
   ((forall t, Some t ∉ indices) \/ exists t, indices !! 0%nat = Some (Some t))) \/
  exists (pos : nat) t,
    (0 < pos)%nat /\ indices !! pos = Some (Some t) /\
    (forall k, (k < pos)%nat -> indices !! k = Some None) /\
    if bool_decide (pos + index_ndim <= ndim)%nat then
      let permute := (Z.of_nat <$> seq index_ndim pos) ++ (Z.of_nat <$> seq 0 index_ndim)
                     ++ (Z.of_nat <$> seq (pos + index_ndim) (ndim - pos - index_ndim)) in
      AdjustSubspace input indices (Z.of_nat index_ndim) = Transpose input permute /\
      permute ≡ₚ Z.of_nat <$> seq 0 ndim
    else AdjustSubspace input indices (Z.of_nat index_ndim) = Error CheckFailedError.
Proof.
  intros Hsmall Hlen Hm ndim. unfold AdjustSubspace, NumAxes in *. fold ndim in Hsmall |- *.
  clearbody ndim.
  destruct (index_subspace_pos_spec indices 0) as [[Hp Hnone] | (pos & t & Hp & Hk & Hbefore)];
    [lia | lia | |].
  - left. rewrite Hp. cbn. split; [done | by left].
  - rewrite Hp, Z.add_0_l. destruct pos as [|pos].
    + left. cbn. split; [done|]. right. by exists t.
    + right. exists (S pos), t. split; [lia|]. split; [exact Hk|]. split; [exact Hbefore|].
      pose proof (lookup_lt_Some _ _ _ Hk) as Hpos.
      rewrite (proj2 (Z.leb_gt _ _)) by lia.
      rewrite (to_int_small (Z.of_nat ndim)) by lia.
      rewrite (to_int_small (Z.of_nat (S pos) + Z.of_nat index_ndim)) by lia.
      destruct (decide (S pos + index_ndim <= ndim)%nat) as [Hle | Hgt].
      * rewrite bool_decide_eq_true_2 by done.
        rewrite (proj2 (Z.leb_le _ _)) by lia.
        cbn [negb]. rewrite subspace_permute_spec by lia. split; [done|].
        rewrite <- !fmap_app. apply fmap_Permutation.
        replace ndim with (index_ndim + (S pos + (ndim - S pos - index_ndim)))%nat at 2 by lia.
        rewrite !seq_app, Nat.add_0_l.
        replace (index_ndim + S pos)%nat with (S pos + index_ndim)%nat by lia.
        rewrite !app_assoc. f_equiv. apply Permutation_app_comm.
      * rewrite bool_decide_eq_false_2 by done.
        rewrite (proj2 (Z.leb_gt _ _)) by lia.
        done.
Qed.

End Subspace.


(** *** SplitFunctor and SplitWithSizeFunctor *)

Section Split.
Context {Tensor : Type} `{ops : TensorOps Tensor}.

Lemma split_pieces_spec (x : Tensor) (dim s D n : Z) :
  1 <= s -> 1 <= n < 2 ^ 31 -> (n - 1) * s <= D <= n * s -> D + s < 2 ^ 63 ->
  forall (k : nat) (i : nat),
    Z.of_nat i + Z.of_nat k = n ->
    split_pieces k (Z.of_nat i) x dim s n (D - (n - 1) * s)
    = narrow_each x dim
        ((fun j => (Z.of_nat j * s, Z.min s (D - Z.of_nat j * s))) <$> seq i k).
Proof.
  intros Hs Hn HD Hroom. induction k as [|k IH]; intros i Hi; [done|].
  cbn [split_pieces seq fmap list_fmap narrow_each].
  rewrite (to_int64_small (n - 1)) by lia.
  assert (Z.of_nat i * s <= (n - 1) * s) as Hle by nia.
  rewrite (to_int64_small (Z.of_nat i * s)) by nia.
  rewrite (to_int_small (Z.of_nat i + 1)) by lia.
  replace (Z.of_nat i + 1) with (Z.of_nat (S i)) by lia.
  rewrite IH by lia.
  destruct (Z.of_nat i <? n - 1) eqn:E; [apply Z.ltb_lt in E | apply Z.ltb_ge in E].
  - replace (Z.min s (D - Z.of_nat i * s)) with s by nia. reflexivity.
  - replace (Z.of_nat i) with (n - 1) by lia.
    replace (Z.min s (D - (n - 1) * s)) with (D - (n - 1) * s) by nia. reflexivity.
Qed.

Lemma split_lengths_sum (s D n : Z) :
  1 <= s -> 1 <= n -> (n - 1) * s <= D <= n * s ->
  forall (k : nat) (i : nat),
    (1 <= k)%nat -> Z.of_nat i + Z.of_nat k = n ->
    foldr Z.add 0 ((fun j => Z.min s (D - Z.of_nat j * s)) <$> seq i k)
    = D - Z.of_nat i * s.
Proof.
  intros Hs Hn HD k. induction k as [|k IH]; intros i Hk Hi; [lia|].
  cbn [seq fmap list_fmap foldr]. destruct k as [|k].
  - simpl. nia.
  - rewrite IH by lia. nia.
Qed.

(** X23.  [SplitFunctor] with a split size of at least one cuts the axis
    into consecutive pieces that cover it exactly: piece [j] starts at
    [j * split_size] and ends at the smaller of [(j + 1) * split_size]
    and the extent of the axis, there is at least one piece (an axis of
    extent 0 gives one piece of length 0), and the results are those of
    [Narrow] on these pieces in order, up to the first that fails. *)
Theorem SplitFunctor_covers_axis (x : Tensor) (split_size dim dim_size : Z) :
  1 <= split_size ->
  At (tensor_shape x) dim = Ok dim_size ->
  0 <= dim_size ->
  dim_size + split_size < 2 ^ 63 ->
  (dim_size + split_size - 1) `div` split_size < 2 ^ 31 ->
  exists pieces,
    SplitFunctor x split_size dim = narrow_each x dim pieces /\
    pieces = (fun j => (Z.of_nat j * split_size,
                        Z.min split_size (dim_size - Z.of_nat j * split_size)))
             <$> seq 0 (length pieces) /\
    (1 <= length pieces)%nat /\
    foldr Z.add 0 (pieces.*2) = dim_size /\
    Forall (fun p => 0 <= p.2 <= split_size) pieces.
Proof.
  intros Hs Hat HD Hroom Hint. unfold SplitFunctor. rewrite Hat. cbn [bind].
  rewrite (proj2 (Z.geb_le _ _)) by lia. cbn [negb].
  rewrite (proj2 (Z.eqb_neq _ _)) by lia.
  rewrite (to_int64_small (dim_size + split_size - 1)) by lia.
  rewrite Z.quot_div_nonneg by lia.
  set (q := (dim_size + split_size - 1) / split_size).
  assert (q * split_size <= dim_size + split_size - 1 < q * split_size + split_size)
    as Hq.
  { unfold q. pose proof (Z.mul_div_le (dim_size + split_size - 1) split_size).
    pose proof (Z.mul_succ_div_gt (dim_size + split_size - 1) split_size). lia. }
  assert (0 <= q <= dim_size) as Hq0 by nia.
  fold q in Hint.
  set (n := Z.max q 1).
  assert (1 <= n < 2 ^ 31) as Hn by lia.
  assert ((n - 1) * split_size <= dim_size <= n * split_size) as Hcover by nia.
  rewrite (to_int64_small (split_size * n)) by nia.
  rewrite (to_int64_small (split_size * n - dim_size)) by nia.
  rewrite (to_int64_small (split_size - (split_size * n - dim_size))) by nia.
  replace (split_size - (split_size * n - dim_size))
    with (dim_size - (n - 1) * split_size) by lia.
  pose proof (split_pieces_spec x dim split_size dim_size n ltac:(lia) Hn Hcover Hroom
                (Z.to_nat n) 0 ltac:(lia)) as Hrun.
  change (Z.of_nat 0) with 0 in Hrun. rewrite Hrun.
  eexists. split; [reflexivity|].
  rewrite length_fmap, length_seq. split; [reflexivity|]. split; [lia|]. split.
  - rewrite <- list_fmap_compose.
    pose proof (split_lengths_sum split_size dim_size n ltac:(lia) ltac:(lia) Hcover
                  (Z.to_nat n) 0 ltac:(lia) ltac:(lia)) as Hsum.
    simpl in Hsum. rewrite Z.sub_0_r in Hsum. exact Hsum.
  - apply Forall_fmap, Forall_forall. intros j Hj%elem_of_seq. simpl. nia.
Qed.

Lemma split_with_sizes_spec (x : Tensor) (dim : Z) : forall (split_sizes : list Z) (start : Z),
  Forall (fun l => 0 <= l) split_sizes ->
  0 <= start -> start + foldr Z.add 0 split_sizes < 2 ^ 63 ->
  split_with_sizes split_sizes start x dim
  = bind (narrow_each x dim (consecutive_pieces start split_sizes))
         (fun splits => Ok (splits, start + foldr Z.add 0 split_sizes)).
Proof.
  induction split_sizes as [|l rest IH]; intros start Hall Hstart Hroom.
  - simpl. by rewrite Z.add_0_r.
  - apply Forall_cons in Hall as [Hl Hall]. cbn [foldr] in Hroom.
    assert (0 <= foldr Z.add 0 rest) as Hrest.
    { clear -Hall. induction Hall; simpl; lia. }
    cbn [split_with_sizes consecutive_pieces narrow_each foldr].
    rewrite (proj2 (Z.geb_le _ _)) by lia. cbn [negb].
    destruct (Narrow x dim start l) as [piece| |]; [|done..]. cbn [bind].
    rewrite to_int64_small by lia. rewrite IH by (try done; lia).
    destruct (narrow_each x dim _) as [splits| |]; [|done..]. cbn [bind fst snd].
    do 2 f_equal. lia.
Qed.

Lemma split_with_sizes_Ok (x : Tensor) (dim : Z) : forall (split_sizes : list Z) (start : Z) r,
  split_with_sizes split_sizes start x dim = Ok r -> Forall (fun l => 0 <= l) split_sizes.
Proof.
  induction split_sizes as [|l rest IH]; intros start r Hrun; [constructor|].
  cbn [split_with_sizes] in Hrun.
  destruct (l >=? 0) eqn:Hl; [|done]. cbn [negb] in Hrun.
  destruct (Narrow x dim start l) as [piece| |]; [|done..]. cbn [bind] in Hrun.
  destruct (split_with_sizes rest _ x dim) as [r'| |] eqn:Hrest; [|done..].
  constructor; [lia | by eapply IH].
Qed.

(** X24.  [SplitWithSizeFunctor] succeeds only when no size is negative.
    When none is and their sum stays below 2^63, it asks [Narrow] for
    consecutive pieces from 0 of the sizes given, in order, and after
    that fails its check unless the sizes add up to the extent of the
    axis: it does not compare the sizes with the axis before it has
    narrowed every piece. *)
Theorem SplitWithSizeFunctor_takes_consecutive_pieces (x : Tensor)
    (split_sizes : list Z) (dim dim_size : Z) :
  At (tensor_shape x) dim = Ok dim_size ->
  ((exists splits, SplitWithSizeFunctor x split_sizes dim = Ok splits) ->
   Forall (fun l => 0 <= l) split_sizes) /\
  (Forall (fun l => 0 <= l) split_sizes -> foldr Z.add 0 split_sizes < 2 ^ 63 ->
   Z.of_nat (length split_sizes) < 2 ^ 31 ->
   SplitWithSizeFunctor x split_sizes dim
   = bind (narrow_each x dim (consecutive_pieces 0 split_sizes))
          (fun splits => if bool_decide (foldr Z.add 0 split_sizes = dim_size)
                         then Ok splits else Error CheckFailedError)).
Proof.
  intros Hat. unfold SplitWithSizeFunctor. rewrite Hat. cbn [bind]. split.
  - intros [splits Hrun].
    destruct (split_with_sizes split_sizes 0 x dim) as [r| |] eqn:Hr; [|done..].
    by eapply split_with_sizes_Ok.
  - intros Hall Hroom _. rewrite split_with_sizes_spec by (try done; lia).
    destruct (narrow_each x dim _) as [splits| |]; [|done..]. cbn [bind fst snd].
    rewrite Z.add_0_l.
    destruct (decide (foldr Z.add 0 split_sizes = dim_size)) as [Heq|Hne].
    + rewrite bool_decide_eq_true_2 by done. by rewrite (proj2 (Z.eqb_eq _ _)).
    + rewrite bool_decide_eq_false_2 by done. by rewrite (proj2 (Z.eqb_neq _ _)).
Qed.

End Split.


Lemma RemoveExpandDimSlice_keeps_unlisted_witness :
  RemoveExpandDimSlice [whole_axis 3; whole_axis 1; whole_axis 4] [1]
  = Ok [whole_axis 3; whole_axis 4].
Proof.
  rewrite RemoveExpandDimSlice_keeps_unlisted;
    [reflexivity | simpl; lia | repeat constructor; lia].
Defined.

Ltac no_index_tensor :=
  let t := fresh "t" in let Ht := fresh "Ht" in
  intros t Ht;
  repeat (apply elem_of_cons in Ht as [Ht | Ht]; [discriminate Ht|]);
  by apply elem_of_nil in Ht.

Ltac slice_items_in_range :=
  let s := fresh "s" in let Hs := fresh "Hs" in
  intros s Hs;
  repeat (apply elem_of_cons in Hs as [Hs | Hs];
          [first [discriminate Hs | injection Hs as ->; simpl; lia]|]);
  by apply elem_of_nil in Hs.

Lemma PrepareSliceIndices_slice_count_witness :
  exists o, PrepareSliceIndices (ops := shape_ops) sample_index [3; 4] no_outputs = Ok o /\
    length (slice_indices o) = (2 + length (expand_dims o))%nat.
Proof.
  destruct (PrepareSliceIndices (ops := shape_ops) sample_index [3; 4] no_outputs)
    as [o| |] eqn:E; [|discriminate E..].
  exists o. split; [reflexivity|].
  apply (PrepareSliceIndices_slice_count (ops := shape_ops) sample_index [3; 4] o).
  - unfold NumAxes. simpl. lia.
  - simpl. lia.
  - no_index_tensor.
  - exact E.
Defined.

Lemma PrepareSliceIndices_slices_within_axes_witness :
  exists o real, PrepareSliceIndices (ops := shape_ops) sample_index [3; 4] no_outputs = Ok o /\
    layout (slice_indices o) (expand_dims o) real /\ Forall2 within real [3; 4].
Proof.
  destruct (PrepareSliceIndices (ops := shape_ops) sample_index [3; 4] no_outputs)
    as [o| |] eqn:E; [|discriminate E..].
  destruct (PrepareSliceIndices_slices_within_axes (ops := shape_ops) sample_index [3; 4] o)
    as (real & Hlay & Hin).
  - unfold NumAxes. simpl. lia.
  - simpl. lia.
  - no_index_tensor.
  - repeat constructor; lia.
  - slice_items_in_range.
  - exact E.
  - exists o, real. split; [reflexivity|]. split; [exact Hlay | exact Hin].
Defined.

Lemma setitem_slices_with_one_inserted_axis_witness :
  exists o slices,
    PrepareSliceIndices (ops := shape_ops) sample_index [3; 4] no_outputs = Ok o /\
    RemoveExpandDimSlice (slice_indices o) (expand_dims o) = Ok slices /\
    Forall2 within slices [3; 4].
Proof.
  destruct (PrepareSliceIndices (ops := shape_ops) sample_index [3; 4] no_outputs)
    as [o| |] eqn:E; [|discriminate E..].
  destruct (setitem_slices_with_one_inserted_axis (ops := shape_ops) sample_index [3; 4] o)
    as (slices & Hr & Hin).
  - unfold NumAxes. simpl. lia.
  - simpl. lia.
  - no_index_tensor.
  - repeat constructor; lia.
  - slice_items_in_range.
  - exact E.
  - injection E as <-. simpl. lia.
  - exists o, slices. split; [reflexivity|]. split; [exact Hr | exact Hin].
Defined.

Lemma setitem_slices_with_two_inserted_axes_witness :
  exists o slices,
    PrepareSliceIndices (ops := shape_ops) sample_index2 [5] no_outputs = Ok o /\
    RemoveExpandDimSlice (slice_indices o) (expand_dims o) = Ok slices /\
    slices !! 0%nat = Some {| start_ := 0; end_ := 1; step_ := 1 |}.
Proof.
  destruct (PrepareSliceIndices (ops := shape_ops) sample_index2 [5] no_outputs)
    as [o| |] eqn:E; [|discriminate E..].
  destruct (setitem_slices_with_two_inserted_axes (ops := shape_ops) sample_index2 [5] o 0 1)
    as (slices & Hr & Hcase).
  - unfold NumAxes. simpl. lia.
  - simpl. lia.
  - no_index_tensor.
  - exact E.
  - by injection E as <-.
  - exists o, slices. split; [reflexivity|]. split; [exact Hr|].
    injection E as <-. vm_compute in Hr. injection Hr as <-. reflexivity.
Defined.

Lemma integer_index_names_one_element_per_axis_witness :
  PrepareSliceIndices (ops := shape_ops) (ItemInteger <$> [-1]) [3; 4] no_outputs
  = Ok {| slice_indices := [{| start_ := 2; end_ := 3; step_ := 1 |}; whole_axis 4];
          tensor_indices := []; expand_dims := []; target_dims := [4] |}.
Proof.
  rewrite (integer_index_names_one_element_per_axis (ops := shape_ops) [-1] [3; 4]).
  - reflexivity.
  - unfold NumAxes. simpl. lia.
  - simpl. lia.
  - repeat constructor; lia.
  - repeat constructor; lia.
Defined.

(** An [ArgWhere] that finds every element set, for a mask known by its
    shape. *)
Lemma ExpandMaskIndex_one_index_per_axis_witness :
  exists indices,
    ExpandMaskIndex (ops := mask_ops) [2; 3] = Ok indices /\ length indices = 2%nat.
Proof.
  destruct (ExpandMaskIndex (ops := mask_ops) [2; 3]) as [indices| |] eqn:E;
    [|discriminate E..].
  exists indices. split; [reflexivity|].
  apply (ExpandMaskIndex_one_index_per_axis (ops := mask_ops) [2; 3] indices E).
Defined.

Lemma ExpandIndices_broadcasts_to_one_shape_witness :
  exists expanded_indices,
    ExpandIndices (ops := shape_ops) [Some [3; 1]; None; Some [4]] = Ok expanded_indices /\
    length expanded_indices = 3%nat.
Proof.
  destruct (ExpandIndices (ops := shape_ops) [Some [3; 1]; None; Some [4]])
    as [r| |] eqn:E; [|discriminate E..].
  exists r. split; [reflexivity|].
  apply (ExpandIndices_broadcasts_to_one_shape (ops := shape_ops)
           [Some [3; 1]; None; Some [4]] r); [|exact E].
  intros t Ht.
  repeat (apply elem_of_cons in Ht as [Ht | Ht];
          [first [discriminate Ht
                 | injection Ht as ->; split;
                   [unfold NumAxes; simpl; lia | repeat constructor; lia]]|]).
  by apply elem_of_nil in Ht.
Defined.

Lemma TransposeFront_moves_indexed_axes_first_witness :
  exists output valid_indices permute,
    TransposeFront (ops := shape_ops) [2; 3; 4] [None; Some [5]] [] = Ok (output, valid_indices) /\
    permute ≡ₚ [0; 1; 2].
Proof.
  destruct (TransposeFront (ops := shape_ops) [2; 3; 4] [None; Some [5]] [])
    as [[output valid_indices]| |] eqn:E; [|discriminate E..].
  destruct (TransposeFront_moves_indexed_axes_first (ops := shape_ops)
              [2; 3; 4] [None; Some [5]] output valid_indices E) as (permute & Hperm & _).
  exists output, valid_indices, permute. split; [reflexivity | exact Hperm].
Defined.

Lemma AdjustSubspace_moves_index_axes_to_first_index_witness :
  AdjustSubspace (ops := shape_ops) [5; 2; 4] [None; Some [5]] 1 = Ok [2; 5; 4].
Proof.
  destruct (AdjustSubspace_moves_index_axes_to_first_index (ops := shape_ops)
              [5; 2; 4] [None; Some [5]] 1)
    as [[_ [Hnone | [t Ht]]] | (pos & t & Hpos & Hk & Hbefore & Hcase)].
  - unfold NumAxes. simpl. lia.
  - simpl. lia.
  - simpl. lia.
  - destruct (Hnone [5]). apply list_elem_of_further, list_elem_of_here.
  - discriminate Ht.
  - reflexivity.
Defined.

Lemma SplitFunctor_covers_axis_witness :
  exists pieces,
    SplitFunctor (ops := shape_ops) [10; 4] 3 0
    = narrow_each (ops := shape_ops) [10; 4] 0 pieces /\
    foldr Z.add 0 (pieces.*2) = 10.
Proof.
  destruct (SplitFunctor_covers_axis (ops := shape_ops) [10; 4] 3 0 10)
    as (pieces & Hrun & _ & _ & Hsum & _);
    [lia | reflexivity | lia | lia | reflexivity |].
  exists pieces. split; [exact Hrun | exact Hsum].
Defined.

Lemma SplitWithSizeFunctor_takes_consecutive_pieces_witness :
  SplitWithSizeFunctor (ops := shape_ops) [10; 4] [3; 7] 0 = Ok [Some [3; 4]; Some [7; 4]] /\
  SplitWithSizeFunctor (ops := shape_ops) [10; 4] [3; 6] 0 = Error CheckFailedError.
Proof.
  split.
  - destruct (SplitWithSizeFunctor_takes_consecutive_pieces (ops := shape_ops)
                [10; 4] [3; 7] 0 10 eq_refl) as [_ Hrun].
    rewrite Hrun; [reflexivity | repeat constructor; lia | simpl; lia | simpl; lia].
  - destruct (SplitWithSizeFunctor_takes_consecutive_pieces (ops := shape_ops)
                [10; 4] [3; 6] 0 10 eq_refl) as [_ Hrun].
    rewrite Hrun; [reflexivity | repeat constructor; lia | simpl; lia | simpl; lia].
Defined.


End functional_facts.

(* ================================================================= *)
(** ** Element types and the registry of functors *)

Module dtype_facts.
Import functional dtype.

(** X25.  [promoteTypes] returns whichever of its two arguments stands
    higher in [priority_order]; so it is idempotent, commutative and
    associative, and no two types share a priority. *)
Theorem promoteTypes_takes_higher_priority (a b c : DataType) :
  promoteTypes a b = (if priority_order a <? priority_order b then b else a) /\
  promoteTypes a a = a /\
  promoteTypes a b = promoteTypes b a /\
  promoteTypes (promoteTypes a b) c = promoteTypes a (promoteTypes b c) /\
  (priority_order a = priority_order b -> a = b).
Proof.
  split; [by destruct a, b|]. split; [by destruct a|]. split; [by destruct a, b|].
  split; [by destruct a, b, c|]. by destruct a, b.
Qed.

(** X26.  Promoting a floating-point type with a type that is neither
    [kOFRecord] nor [kTensorBuffer] gives a floating-point type; and
    every floating-point type is signed. *)
Theorem promoteTypes_keeps_floating_point (a b : DataType) :
  DType_is_floating_point a = Ok true ->
  b <> kOFRecord -> b <> kTensorBuffer ->
  DType_is_floating_point (promoteTypes a b) = Ok true /\
  DType_is_floating_point (promoteTypes b a) = Ok true /\
  DType_is_signed a = Ok true.
Proof. by destruct a, b. Qed.

Lemma promoteTypes_keeps_floating_point_witness :
  DType_is_floating_point (promoteTypes kFloat16 kInt64) = Ok true.
Proof.
  apply (promoteTypes_keeps_floating_point kFloat16 kInt64); [reflexivity | done | done].
Defined.

End dtype_facts.

Module function_library_facts.
Import functional function_library.

Section LibraryFacts.
Context {Func FType : Type} `{EqDecision FType}.
Variable FType_of : Func -> FType.

Local Abbreviation add_functor := (function_library.add_functor FType_of).

Lemma add_functor_Ok (func : Func) (func_name : string)
    (m m' : FunctionLibrary) :
  add_functor func func_name m = Ok m' ->
  find (FType_of func) func_name m' = Ok (func_name, func) /\
  find (FType_of func) func_name m = Error CheckFailedError /\
  forall ftype other_name,
    (ftype, other_name) <> (FType_of func, func_name) ->
    find ftype other_name m' = find ftype other_name m.
Proof.
  unfold function_library.add_functor, find.
  destruct (decide (func_name ∈ dom (m (FType_of func)))) as [|Hnew]; [done|].
  intros [= <-]. apply not_elem_of_dom in Hnew.
  rewrite decide_True by done. rewrite lookup_insert_eq, Hnew.
  split; [done|]. split; [done|].
  intros ftype other_name Hne.
  destruct (decide (ftype = FType_of func)) as [-> | Hft]; [|done].
  rewrite lookup_insert_ne; [done|]. congruence.
Qed.

(** X27.  A functor registered with [add_functor] is found again under
    its signature and name, as the packed functor of that name; and
    what [find] answers for any other signature or name is what it
    answered before. *)
Theorem find_after_add_functor (func : Func) (func_name : string)
    (m m' : FunctionLibrary) :
  add_functor func func_name m = Ok m' ->
  find (FType_of func) func_name m' = Ok (func_name, func) /\
  find (FType_of func) func_name m = Error CheckFailedError /\
  forall ftype other_name,
    (ftype, other_name) <> (FType_of func, func_name) ->
    find ftype other_name m' = find ftype other_name m.
Proof. apply add_functor_Ok. Qed.

(** X28.  [add_functor] ends the process exactly when the name is
    already registered under the signature of the functor.  So a second
    functor of the same signature cannot take a name that is in use,
    while a functor of another signature can: both are then found under
    that name, each by its own signature. *)
Theorem add_functor_rejects_name_per_signature (func other : Func) (func_name : string)
    (m m1 : FunctionLibrary) :
  add_functor other func_name m = Ok m1 ->
  (add_functor func func_name m = Abort <->
   exists registered, find (FType_of func) func_name m = Ok (func_name, registered)) /\
  (FType_of func = FType_of other -> add_functor func func_name m1 = Abort) /\
  (FType_of func <> FType_of other ->
   (add_functor func func_name m1 = Abort <-> add_functor func func_name m = Abort) /\
   forall m2, add_functor func func_name m1 = Ok m2 ->
     find (FType_of other) func_name m2 = Ok (func_name, other) /\
     find (FType_of func) func_name m2 = Ok (func_name, func)).
Proof.
  intros Hother. split; [|split].
  - unfold function_library.add_functor, find.
    destruct (decide (func_name ∈ dom (m (FType_of func)))) as [Hin|Hnew].
    + split; [|done]. intros _. apply elem_of_dom in Hin as [registered Hr].
      exists registered. by rewrite Hr.
    + split; [done|]. apply not_elem_of_dom in Hnew. rewrite Hnew. by intros [? [=]].
  - intros Heq. destruct (add_functor_Ok other func_name m m1 Hother) as (Hfound & _).
    unfold function_library.add_functor, find in *. rewrite Heq.
    destruct (decide (func_name ∈ dom (m1 (FType_of other)))) as [|Hnew]; [done|].
    apply not_elem_of_dom in Hnew. by rewrite Hnew in Hfound.
  - intros Hne.
    destruct (add_functor_Ok other func_name m m1 Hother) as (Hfound & _ & Hsame).
    assert (m1 (FType_of func) !! func_name = m (FType_of func) !! func_name) as Hlook.
    { specialize (Hsame (FType_of func) func_name). unfold find in Hsame.
      destruct (m1 (FType_of func) !! func_name), (m (FType_of func) !! func_name);
        try done; specialize (Hsame ltac:(congruence)); congruence. }
    split.
    + unfold function_library.add_functor.
      destruct (decide (func_name ∈ dom (m1 (FType_of func)))) as [H1|H1];
        destruct (decide (func_name ∈ dom (m (FType_of func)))) as [H0|H0];
        try done; exfalso.
      * apply elem_of_dom in H1. apply not_elem_of_dom in H0.
        rewrite Hlook, H0 in H1. by destruct H1.
      * apply elem_of_dom in H0. apply not_elem_of_dom in H1.
        rewrite <- Hlook, H1 in H0. by destruct H0.
    + intros m2 Hadd.
      destruct (add_functor_Ok func func_name m1 m2 Hadd) as (Hf & _ & Hkeep).
      split; [|exact Hf]. rewrite Hkeep; [exact Hfound | congruence].
Qed.



Local Abbreviation add_functors := (function_library.add_functors FType_of).
Local Abbreviation key := (fun r : Func * string => (FType_of r.1, r.2)).

(** The names of a block are free in a library: no name is used twice
    under one signature within the block, and none is registered yet
    under the signature it is given. *)
Local Abbreviation names_free registrations m :=
  (NoDup (key <$> registrations) /\
   forall func name, (func, name) ∈ registrations -> m (FType_of func) !! name = None).

Lemma add_functors_spec : forall (registrations : list (Func * string)) (m : FunctionLibrary),
  (names_free registrations m ->
   exists m', add_functors registrations m = Ok m' /\
     (forall func name, (func, name) ∈ registrations ->
        m' (FType_of func) !! name = Some func) /\
     (forall ftype name, (ftype, name) ∉ key <$> registrations ->
        m' ftype !! name = m ftype !! name)) /\
  (forall m', add_functors registrations m = Ok m' -> names_free registrations m) /\
  (add_functors registrations m = Abort \/ exists m', add_functors registrations m = Ok m').
Proof.
  induction registrations as [|[func name] rest IH]; intros m.
  - split; [|split].
    + intros _. exists m. split; [done|]. split; [|done].
      intros f n Hin. by apply elem_of_nil in Hin.
    + intros _ _. split; [constructor|].
      intros f n Hin. by apply elem_of_nil in Hin.
    + right. by exists m.
  - cbn [function_library.add_functors]. unfold function_library.add_functor.
    destruct (decide (name ∈ dom (m (FType_of func)))) as [Hused | Hfree].
    + split; [|split; [done | by left]].
      intros [_ Hnone]. apply elem_of_dom in Hused as [g Hg].
      rewrite (Hnone func name) in Hg by apply list_elem_of_here. done.
    + apply not_elem_of_dom in Hfree. cbn [bind].
      set (m1 := fun ftype => if decide (ftype = FType_of func)
                              then <[name := func]> (m (FType_of func)) else m ftype).
      assert (forall ftype n, (ftype, n) <> (FType_of func, name) ->
                m1 ftype !! n = m ftype !! n) as Hother.
      { intros ftype n Hne. unfold m1. destruct (decide (ftype = FType_of func)) as [->|]; [|done].
        rewrite lookup_insert_ne; [done | congruence]. }
      assert (m1 (FType_of func) !! name = Some func) as Hnew.
      { unfold m1. rewrite decide_True by done. apply lookup_insert_eq. }
      destruct (IH m1) as (IHok & IHfree & IHends). split; [|split; [|exact IHends]].
      * intros [[Hnin Hnd]%NoDup_cons Hnone].
        destruct IHok as (m' & Hrun & Hfound & Hkeep).
        { split; [exact Hnd|]. intros f n Hin. rewrite Hother.
          - apply Hnone. by apply list_elem_of_further.
          - intros Heq. apply Hnin. apply list_elem_of_fmap.
            exists (f, n). split; [by cbn; rewrite Heq | exact Hin]. }
        exists m'. split; [exact Hrun|]. split.
        -- intros f n [[= -> ->] | Hin]%elem_of_cons; [|by apply Hfound].
           rewrite Hkeep; [exact Hnew | exact Hnin].
        -- intros ftype n Hnk. rewrite fmap_cons in Hnk.
           apply not_elem_of_cons in Hnk as [Hne Hnk]. rewrite Hkeep by done.
           by apply Hother.
      * intros m' Hrun. destruct (IHfree m' Hrun) as [Hnd Hnone]. split.
        -- rewrite fmap_cons. apply NoDup_cons. split; [|exact Hnd].
           intros [[f n] [Heq Hin]]%list_elem_of_fmap. cbn in Heq.
           injection Heq as Hft Hn. specialize (Hnone f n Hin). congruence.
        -- intros f n [[= -> ->] | Hin]%elem_of_cons; [exact Hfree|].
           destruct (decide ((FType_of f, n) = (FType_of func, name))) as [Heq|Hne].
           ++ injection Heq as Hft Hn. specialize (Hnone f n Hin). congruence.
           ++ rewrite <- Hother by done. by apply Hnone.
Qed.

Lemma find_fails_iff (ftype : FType) (name : string)
    (m : FunctionLibrary (Func:=Func)) :
  find ftype name m = Error CheckFailedError <-> m ftype !! name = None.
Proof. unfold find. by destruct (m ftype !! name). Qed.

Lemma find_succeeds_iff (ftype : FType) (name : string) (func : Func) (m : FunctionLibrary) :
  find ftype name m = Ok (name, func) <-> m ftype !! name = Some func.
Proof. unfold find. destruct (m ftype !! name); split; congruence. Qed.

(** X29.  A block of [add_functor] calls runs to its end exactly when no
    name is registered twice under one signature within the block and
    none of its names is yet registered under the signature it is
    given; otherwise the process ends.  After a block that ran, every
    functor of the block is found under its own signature and name, and
    what [find] answers for a signature and a name that the block does
    not register is what it answered before. *)
Theorem add_functors_succeed_iff_names_are_free
    (registrations : list (Func * string)) (m : FunctionLibrary) :
  ((exists m', add_functors registrations m = Ok m') <->
   NoDup (key <$> registrations) /\
   forall func name, (func, name) ∈ registrations ->
     find (FType_of func) name m = Error CheckFailedError) /\
  (add_functors registrations m = Abort \/
   exists m', add_functors registrations m = Ok m' /\
     (forall func name, (func, name) ∈ registrations ->
        find (FType_of func) name m' = Ok (name, func)) /\
     (forall ftype name, (ftype, name) ∉ key <$> registrations ->
        find ftype name m' = find ftype name m)).
Proof.
  destruct (add_functors_spec registrations m) as (Hok & Hfree & Hends).
  split.
  - split.
    + intros [m' Hrun]. destruct (Hfree m' Hrun) as [Hnd Hnone].
      split; [exact Hnd|]. intros f n Hin. apply find_fails_iff. by apply Hnone.
    + intros [Hnd Hnone]. destruct Hok as (m' & Hrun & _); [|by exists m'].
      split; [exact Hnd|]. intros f n Hin. apply find_fails_iff. by apply Hnone.
  - destruct Hends as [Hends | [m' Hrun]]; [by left | right].
    destruct (Hok (Hfree m' Hrun)) as (m'' & Hrun' & Hfound & Hkeep).
    exists m''. split; [exact Hrun'|]. split.
    + intros f n Hin. apply find_succeeds_iff. by apply Hfound.
    + intros ftype n Hnk. unfold find. by rewrite Hkeep.
Qed.

End LibraryFacts.

(** The names of the block of array_functor.cpp are pairwise
    distinct. *)
Lemma array_functors_names_distinct : NoDup (array_functors.*2).
Proof. apply (bool_decide_unpack _). by vm_compute. Qed.

(** X30.  The registrations of functional/impl/array_functor.cpp do not
    collide with one another, whatever the signatures of the functor
    classes are: started on a library in which none of the names of
    the block is registered under the signature of its class, the
    block runs to its end, and each of its eighty-one functors is then
    found under its signature and name. *)
Theorem array_functors_register_without_collision {FType : Type} `{EqDecision FType}
    (FType_of : string -> FType) (m : FunctionLibrary (Func:=string)) :
  (forall func name, (func, name) ∈ array_functors ->
     find (FType_of func) name m = Error CheckFailedError) ->
  length array_functors = 81%nat /\
  exists m', function_library.add_functors FType_of array_functors m = Ok m' /\
    forall func name, (func, name) ∈ array_functors ->
      find (FType_of func) name m' = Ok (name, func).
Proof.
  intros Hnone. split; [reflexivity|].
  destruct (add_functors_spec FType_of array_functors m) as (Hok & _).
  destruct Hok as (m' & Hrun & Hfound & _).
  - split.
    + apply (NoDup_fmap_1 snd). rewrite <- list_fmap_compose.
      exact array_functors_names_distinct.
    + intros f n Hin. apply find_fails_iff. by apply Hnone.
  - exists m'. split; [exact Hrun|].
    intros f n Hin. apply find_succeeds_iff. by apply Hfound.
Qed.


Lemma find_after_add_functor_witness :
  exists m', add_functor Nat.even 2%nat "add" empty_library = Ok m' /\
    find true "add" m' = Ok ("add"%string, 2%nat).
Proof.
  destruct (add_functor Nat.even 2%nat "add" empty_library) as [m'| |] eqn:E;
    [|discriminate E..].
  exists m'. split; [reflexivity|].
  apply (find_after_add_functor Nat.even 2%nat "add" empty_library m' E).
Defined.

Lemma add_functor_rejects_name_per_signature_witness :
  exists m1, add_functor Nat.even 2%nat "add" empty_library = Ok m1 /\
    add_functor Nat.even 4%nat "add" m1 = Abort.
Proof.
  destruct (add_functor Nat.even 2%nat "add" empty_library) as [m1| |] eqn:E;
    [|discriminate E..].
  exists m1. split; [reflexivity|].
  destruct (add_functor_rejects_name_per_signature Nat.even 4%nat 2%nat "add"
              empty_library m1 E) as (_ & Hsame & _).
  apply Hsame. reflexivity.
Defined.

Lemma array_functors_register_without_collision_witness :
  exists m', add_functors (fun _ : string => ()) array_functors empty_library = Ok m' /\
    find () "Split" m' = Ok ("Split"%string, "impl::SplitFunctor"%string).
Proof.
  destruct (array_functors_register_without_collision (fun _ : string => ()) empty_library)
    as (_ & m' & Hrun & Hfound); [reflexivity|].
  exists m'. split; [exact Hrun|]. apply Hfound.
  apply (bool_decide_unpack _). vm_compute. exact I.
Defined.


End function_library_facts.
